(** * Fuzzaholic: the tokenizer-based WGSL fuzzer (services/fuzzerService.ts)

    A shallow embedding of the fuzzing engine: the lexer, the expression
    synthesizer, the mutation passes and the pipeline [fuzzShader], with the
    presets and the log of the application that calls it, followed by the
    properties of the specification, proved or refuted on it, and by further
    properties of the code.

    Conventions of the embedding.
    - A JavaScript string is the list of its UTF-16 code units ([char = N]);
      regular expressions without the [u] flag work on code units.
    - A JavaScript number is an IEEE-754 binary64 value, [spec_float] with
      [prec = 53] and [emax = 1024]; [parseFloat], [toFixed], [Math.floor]
      and Number::toString are written out on it.
    - [Math.random()] reads the next element of an explicit random sequence
      carried in the world, so every pass is a function in a state monad.
      The monad has a failure: where the source would go on with
      [undefined] (an index outside an array), the model ends abnormally, so
      that a proof of a normal end excludes it.
    - The recursion of [generateScalarExpr] is on a number, [depth - 1] in
      binary64, and need not end: the model bounds the nesting of its calls
      by a first argument and gives no result when the bound is used up.
    - Arrays are lists; a loop over indices is a recursion on the number of
      iterations left, with the index as in the source.
    - The lemmas that the definition of [tokenize] needs for its termination
      stand before it; all other lemmas follow the definitions. *)

From Stdlib Require Import Ascii String.
From Stdlib Require Import List Bool Arith ZArith NArith Lia.
From Stdlib Require Import Permutation.
From Stdlib Require Import Floats.SpecFloat.
From Equations Require Import Equations.
Import ListNotations.

(* ===================================================================== *)
(** ** JavaScript strings *)
(* ===================================================================== *)

Module JsString.

Definition char := N.
Definition jsstring := list char.

(** The code unit of an ASCII character, and a string literal. *)
Definition c (a : ascii) : char := N_of_ascii a.
Definition lit (s : string) : jsstring := map N_of_ascii (list_ascii_of_string s).

Fixpoint str_eqb (a b : jsstring) : bool :=
  match a, b with
  | [], [] => true
  | x :: a', y :: b' => N.eqb x y && str_eqb a' b'
  | _, _ => false
  end.

(** [Array.prototype.join('')] on an array of strings. *)
Definition join (l : list jsstring) : jsstring := concat l.

(** [s.includes(ch)] for a one-character needle. *)
Definition includes (ch : char) (s : jsstring) : bool := existsb (N.eqb ch) s.

(** [arr.includes(s)] for an array of strings. *)
Definition mem (s : jsstring) (arr : list jsstring) : bool := existsb (str_eqb s) arr.

Definition in_range (lo hi x : char) : bool := N.leb lo x && N.leb x hi.

(** [\d], [[0-9a-fA-F]], [[a-zA-Z_]] and [\w]. *)
Definition is_digit (x : char) : bool := in_range (c "0") (c "9") x.
Definition is_hex (x : char) : bool :=
  is_digit x || in_range (c "a") (c "f") x || in_range (c "A") (c "F") x.
Definition is_ident_start (x : char) : bool :=
  in_range (c "a") (c "z") x || in_range (c "A") (c "Z") x || N.eqb x (c "_").
Definition is_word (x : char) : bool := is_ident_start x || is_digit x.

(** Line terminators: LF, CR, U+2028, U+2029.  The regular expression [.]
    matches every code unit but these. *)
Definition is_line_terminator (x : char) : bool :=
  N.eqb x 10%N || N.eqb x 13%N || N.eqb x 8232%N || N.eqb x 8233%N.
Definition is_dot_char (x : char) : bool := negb (is_line_terminator x).

(** [\s]: the white space and line terminator code units of ECMAScript:
    TAB, LF, VT, FF, CR, SP, NBSP, U+1680, U+2000..U+200A, U+2028, U+2029,
    U+202F, U+205F, U+3000, U+FEFF. *)
Definition is_space (x : char) : bool :=
  in_range 9%N 13%N x || N.eqb x 32%N || N.eqb x 160%N || N.eqb x 5760%N
  || in_range 8192%N 8202%N x || N.eqb x 8232%N || N.eqb x 8233%N || N.eqb x 8239%N
  || N.eqb x 8287%N || N.eqb x 12288%N || N.eqb x 65279%N.

(** The length of the longest prefix of [s] whose code units satisfy [p]:
    what a greedy [p*] consumes. *)
Fixpoint span (p : char -> bool) (s : jsstring) : nat :=
  match s with
  | x :: s' => if p x then S (span p s') else 0
  | [] => 0
  end.

End JsString.
Import JsString.

(* ===================================================================== *)
(** ** JavaScript numbers *)
(* ===================================================================== *)

Module Num.

(** The Number type: binary64. *)
Definition jsnum := spec_float.
Definition prec : Z := 53.
Definition emax : Z := 1024.

Definition add : jsnum -> jsnum -> jsnum := SFadd prec emax.
Definition sub : jsnum -> jsnum -> jsnum := SFsub prec emax.
Definition mul : jsnum -> jsnum -> jsnum := SFmul prec emax.
Definition neg : jsnum -> jsnum := SFopp.
Definition abs : jsnum -> jsnum := SFabs.
Definition ltb : jsnum -> jsnum -> bool := SFltb.
Definition leb : jsnum -> jsnum -> bool := SFleb.
Definition gtb (x y : jsnum) : bool := SFltb y x.

Definition isNaN (x : jsnum) : bool :=
  match x with S754_nan => true | _ => false end.

(** The Number value of an integer, as for [arr.length] used in arithmetic. *)
Definition of_Z (z : Z) : jsnum := binary_normalize prec emax z 0 false.
Definition of_nat (n : nat) : jsnum := of_Z (Z.of_nat n).

(** The Number value of the decimal [m * 10^e10] ([m >= 0]) with sign
    [sg]: the binary64 value nearest to it, ties to even; too large a
    magnitude gives an infinity. *)
Definition of_decimal (sg : bool) (m : Z) (e10 : Z) : jsnum :=
  match m with
  | Zpos p =>
      match e10 with
      | Zneg k => SFdiv prec emax (S754_finite sg p 0) (S754_finite false (Pos.pow 10 k) 0)
      | _ => binary_normalize prec emax ((if sg then -1 else 1) * (m * 10 ^ e10)) 0 false
      end
  | _ => S754_zero sg
  end.

(** Decimal digits. *)
Definition digit_val (x : char) : Z := Z.of_N x - 48.
Definition digits_val (ds : jsstring) : Z :=
  fold_left (fun acc x => 10 * acc + digit_val x)%Z ds 0%Z.

Definition starts_with (p s : jsstring) : bool := str_eqb p (firstn (length p) s).

(** [parseFloat(s)]: leading white space is skipped, then the longest
    prefix that is a StrDecimalLiteral is converted; [NaN] when there is
    none. *)
Definition parseFloat (s : jsstring) : jsnum :=
  let s0 := skipn (span is_space s) s in
  let '(sg, s1) :=
    match s0 with
    | x :: r => if N.eqb x (c "-") then (true, r)
                else if N.eqb x (c "+") then (false, r) else (false, s0)
    | [] => (false, s0)
    end in
  if starts_with (lit "Infinity") s1 then S754_infinity sg
  else
    let ni := span is_digit s1 in
    let ip := firstn ni s1 in
    let s2 := skipn ni s1 in
    let '(fp, s3) :=
      match s2 with
      | x :: r => if N.eqb x (c ".")
                  then (firstn (span is_digit r) r, skipn (span is_digit r) r)
                  else ([], s2)
      | [] => ([], s2)
      end in
    match ip ++ fp with
    | [] => S754_nan
    | ds =>
        let ex :=
          match s3 with
          | e :: r =>
              if N.eqb e (c "e") || N.eqb e (c "E") then
                match r with
                | x :: r' =>
                    if N.eqb x (c "-") then
                      match span is_digit r' with
                      | 0 => 0%Z
                      | k => (- digits_val (firstn k r'))%Z
                      end
                    else if N.eqb x (c "+") then digits_val (firstn (span is_digit r') r')
                    else digits_val (firstn (span is_digit r) r)
                | [] => 0%Z
                end
              else 0%Z
          | [] => 0%Z
          end in
        of_decimal sg (digits_val ds) (ex - Z.of_nat (length fp))
    end.

(** A numeric literal of the source text. *)
Definition num (s : string) : jsnum := parseFloat (lit s).

(** The decimal digits of a non-negative integer, most significant first. *)
Fixpoint digits_fuel (fuel : nat) (z : Z) (acc : jsstring) : jsstring :=
  match fuel with
  | 0 => acc
  | S fuel' =>
      let acc' := N.add 48 (Z.to_N (z mod 10)) :: acc in
      if (z <? 10)%Z then acc' else digits_fuel fuel' (z / 10) acc'
  end.
Definition digits_of (z : Z) : jsstring :=
  digits_fuel (S (Z.to_nat (Z.log2 z))) z [].

Definition zeros (n : nat) : jsstring := repeat (c "0") n.

(** The magnitude [P / Q] of a finite jsnum [m * 2^e]. *)
Definition numer (m : positive) (e : Z) : Z := (Zpos m * 2 ^ Z.max e 0)%Z.
Definition denom (e : Z) : Z := (2 ^ Z.max (- e) 0)%Z.

(** [Math.floor] on the magnitude and sign of a finite jsnum. *)
Definition floorZ (sg : bool) (m : positive) (e : Z) : Z :=
  if sg then (- ((numer m e + denom e - 1) / denom e))%Z
  else (numer m e / denom e)%Z.

Definition Math_floor (x : jsnum) : jsnum :=
  match x with
  | S754_finite sg m e => of_Z (floorZ sg m e)
  | _ => x
  end.

(** [arr[x]] reads an element only when [x] is a non-negative integer;
    this is the index, [None] when the access gives [undefined]. *)
Definition array_index (x : jsnum) : option nat :=
  match x with
  | S754_zero _ => Some 0
  | S754_finite false m e =>
      if (numer m e mod denom e =? 0)%Z then Some (Z.to_nat (numer m e / denom e))
      else None
  | _ => None
  end.

(** Number::toString, radix 10.  For a finite non-zero magnitude [P / Q]
    the digits are the shortest decimal [s * 10^(n - k)] (with [k] digits)
    whose Number value is [x], the closest one to [x] when there are two. *)
Section ToString.

Variables (sg : bool) (m : positive) (e : Z).
Let P := numer m e.
Let Q := denom e.

(** [n0] with [10^(n0 - 1) <= P / Q < 10^n0]. *)
Fixpoint below_one (fuel : nat) (j : Z) : Z :=
  match fuel with
  | 0 => j
  | S fuel' => if (Q <=? P * 10 ^ j)%Z then j else below_one fuel' (j + 1)
  end.
Definition magnitude10 : Z :=
  if (Q <=? P)%Z then Z.of_nat (length (digits_of (P / Q)))
  else (1 - below_one 400 1)%Z.

(** [floor (P / Q * 10^d)] *)
Definition scaled (d : Z) : Z :=
  if (0 <=? d)%Z then (P * 10 ^ d / Q)%Z else (P / (Q * 10 ^ (- d)))%Z.

Definition rounds_here (s n k : Z) : bool :=
  match of_decimal false s (n - k) with
  | S754_finite _ m' e' => Pos.eqb m m' && Z.eqb e e'
  | _ => false
  end.

(** Is [lo] at least as close to [P / Q * 10^d] as [lo + 1]? *)
Definition lower_is_closer (lo d : Z) : bool :=
  if (0 <=? d)%Z then (2 * (P * 10 ^ d) <=? (2 * lo + 1) * Q)%Z
  else (2 * P <=? (2 * lo + 1) * (Q * 10 ^ (- d)))%Z.

Fixpoint shortest (fuel : nat) (k : Z) : Z * Z * Z :=
  let n0 := magnitude10 in
  let lo := scaled (k - n0) in
  let hi := (lo + 1)%Z in
  let '(hs, hn) := if (hi =? 10 ^ k)%Z then ((10 ^ (k - 1))%Z, (n0 + 1)%Z) else (hi, n0) in
  let okl := (10 ^ (k - 1) <=? lo)%Z && rounds_here lo n0 k in
  let okh := rounds_here hs hn k in
  match fuel with
  | 0 => (n0, k, lo)
  | S fuel' =>
      if okl && (negb okh || lower_is_closer lo (k - n0)) then (n0, k, lo)
      else if okh then (hn, k, hs)
      else shortest fuel' (k + 1)
  end.

Definition finite_to_string : jsstring :=
  let '(n, k, s) := shortest 20 1 in
  let ds := digits_of s in
  let body :=
    if (k <=? n)%Z && (n <=? 21)%Z then ds ++ zeros (Z.to_nat (n - k))
    else if (0 <? n)%Z && (n <=? 21)%Z then
      firstn (Z.to_nat n) ds ++ lit "." ++ skipn (Z.to_nat n) ds
    else if (-6 <? n)%Z && (n <=? 0)%Z then
      lit "0." ++ zeros (Z.to_nat (- n)) ++ ds
    else
      let ex := (n - 1)%Z in
      let es := (if (ex <? 0)%Z then lit "-" else lit "+") ++ digits_of (Z.abs ex) in
      match ds with
      | d :: (_ :: _) as r => d :: lit "." ++ r ++ lit "e" ++ es
      | _ => ds ++ lit "e" ++ es
      end in
  (if sg then lit "-" else []) ++ body.

End ToString.

Definition toString (x : jsnum) : jsstring :=
  match x with
  | S754_nan => lit "NaN"
  | S754_zero _ => lit "0"
  | S754_infinity sg => (if sg then lit "-" else []) ++ lit "Infinity"
  | S754_finite sg m e => finite_to_string sg m e
  end.

(** [x.toFixed(f)] for [f] in 0..100.  Let [n] be the integer for which
    [n / 10^f - |x|] is closest to zero, the larger one on a tie. *)
Definition toFixed (x : jsnum) (f : nat) : jsstring :=
  match x with
  | S754_finite sg m e =>
      let P := numer m e in
      let Q := denom e in
      if (10 ^ 21 * Q <=? P)%Z then toString x
      else
        let n := ((2 * P * 10 ^ Z.of_nat f + Q) / (2 * Q))%Z in
        let ds := digits_of n in
        let ds := zeros (S f - length ds) ++ ds in
        let k := length ds in
        (if sg then lit "-" else [])
          ++ (match f with
              | 0 => ds
              | _ => firstn (k - f) ds ++ lit "." ++ skipn (k - f) ds
              end)
  | S754_zero _ =>
      match f with
      | 0 => lit "0"
      | _ => lit "0." ++ zeros f
      end
  | _ => toString x
  end.

End Num.
Import Num.

(* ===================================================================== *)
(** ** Tokens *)
(* ===================================================================== *)

Inductive TokenType :=
| ident | number | punct | whitespace | comment | string_tt | unknown.

Definition TokenType_eqb (a b : TokenType) : bool :=
  match a, b with
  | ident, ident | number, number | punct, punct | whitespace, whitespace
  | comment, comment | string_tt, string_tt | unknown, unknown => true
  | _, _ => false
  end.

Record Token := mkToken {
  type : TokenType;
  value : jsstring;
  index : Z  (* original index in source; -1 on injected separators *)
}.

(** [{ ...t, value: v }] *)
Definition with_value (t : Token) (v : jsstring) : Token :=
  {| type := type t; value := v; index := index t |}.

(** [tokens.map(t => t.value).join('')], the serializer. *)
Definition serialize (tokens : list Token) : jsstring := join (map value tokens).

(* ===================================================================== *)
(** ** Lexer *)
(* ===================================================================== *)

Module Lexer.

(** Each pattern is anchored at the start of the remaining text; a matcher
    returns the length of [match[0]], or [None] when [sub.match] is null. *)

(** [/^\/\/.*/] *)
Definition re_comment (s : jsstring) : option nat :=
  match s with
  | a :: b :: rest =>
      if N.eqb a (c "/") && N.eqb b (c "/") then Some (2 + span is_dot_char rest)
      else None
  | _ => None
  end.

(** [/^\s+/] *)
Definition re_whitespace (s : jsstring) : option nat :=
  match span is_space s with
  | 0 => None
  | n => Some n
  end.

(** [(?:[eE][+-]?\d+)?]: the length of the optional exponent at [s]. *)
Definition exponent_len (s : jsstring) : nat :=
  match s with
  | e :: rest =>
      if N.eqb e (c "e") || N.eqb e (c "E") then
        match rest with
        | sg :: rest' =>
            if N.eqb sg (c "+") || N.eqb sg (c "-") then
              match span is_digit rest' with
              | 0 => 0
              | d => 2 + d
              end
            else
              match span is_digit rest with
              | 0 => 0
              | d => 1 + d
              end
        | [] => 0
        end
      else 0
  | [] => 0
  end.

(** [0x[0-9a-fA-F]+] *)
Definition num_hex (s : jsstring) : option nat :=
  match s with
  | a :: b :: rest =>
      if N.eqb a (c "0") && N.eqb b (c "x") then
        match span is_hex rest with
        | 0 => None
        | n => Some (2 + n)
        end
      else None
  | _ => None
  end.

(** [\d+\.\d+(?:[eE][+-]?\d+)?] *)
Definition num_float (s : jsstring) : option nat :=
  match span is_digit s with
  | 0 => None
  | d1 =>
      match skipn d1 s with
      | p :: rest =>
          if N.eqb p (c ".") then
            match span is_digit rest with
            | 0 => None
            | d2 => Some (d1 + 1 + d2 + exponent_len (skipn d2 rest))
            end
          else None
      | [] => None
      end
  end.

(** [\d+\.(?![eE\d])] *)
Definition num_trailing_dot (s : jsstring) : option nat :=
  match span is_digit s with
  | 0 => None
  | d1 =>
      match skipn d1 s with
      | p :: rest =>
          if N.eqb p (c ".") then
            match rest with
            | x :: _ =>
                if N.eqb x (c "e") || N.eqb x (c "E") || is_digit x then None
                else Some (d1 + 1)
            | [] => Some (d1 + 1)
            end
          else None
      | [] => None
      end
  end.

(** [\.\d+(?:[eE][+-]?\d+)?] *)
Definition num_leading_dot (s : jsstring) : option nat :=
  match s with
  | p :: rest =>
      if N.eqb p (c ".") then
        match span is_digit rest with
        | 0 => None
        | d => Some (1 + d + exponent_len (skipn d rest))
        end
      else None
  | [] => None
  end.

(** [\d+u?] *)
Definition num_int (s : jsstring) : option nat :=
  match span is_digit s with
  | 0 => None
  | d =>
      match skipn d s with
      | u :: _ => if N.eqb u (c "u") then Some (d + 1) else Some d
      | [] => Some d
      end
  end.

(** The alternatives of an alternation are tried from left to right. *)
Fixpoint alternation (alts : list (jsstring -> option nat)) (s : jsstring) : option nat :=
  match alts with
  | [] => None
  | m :: alts' =>
      match m s with
      | Some n => Some n
      | None => alternation alts' s
      end
  end.

Definition re_number : jsstring -> option nat :=
  alternation [num_hex; num_float; num_trailing_dot; num_leading_dot; num_int].

(** [/^[a-zA-Z_]\w*/] *)
Definition re_ident (s : jsstring) : option nat :=
  match s with
  | x :: rest => if is_ident_start x then Some (1 + span is_word rest) else None
  | [] => None
  end.

(** [/^(?:->|==|!=|<=|>=|&&|\|\|)/] *)
Definition re_punct2 (s : jsstring) : option nat :=
  match s with
  | a :: b :: _ =>
      if mem [a; b] [lit "->"; lit "=="; lit "!="; lit "<="; lit ">="; lit "&&"; lit "||"]
      then Some 2 else None
  | _ => None
  end.

(** [/^[{}()\[\],;:.+*\/=\-><]/] *)
Definition re_punct1 (s : jsstring) : option nat :=
  match s with
  | x :: _ => if includes x (lit "{}()[],;:.+*/=-><") then Some 1 else None
  | [] => None
  end.

(** The pattern table, ordered by priority. *)
Definition patterns : list (TokenType * (jsstring -> option nat)) :=
  [ (comment, re_comment);
    (whitespace, re_whitespace);
    (number, re_number);
    (ident, re_ident);
    (punct, re_punct2);
    (punct, re_punct1) ].

(** [for (const p of patterns) { const match = sub.match(p.regex); if (match) ... break }] *)
Fixpoint first_match (ps : list (TokenType * (jsstring -> option nat))) (sub : jsstring)
  : option (TokenType * nat) :=
  match ps with
  | [] => None
  | (ty, re) :: ps' =>
      match re sub with
      | Some n => Some (ty, n)
      | None => first_match ps' sub
      end
  end.

(** Case analysis on the innermost scrutinee of a hypothesis. *)
Ltac break_match_in H :=
  match type of H with
  | context [match ?x with _ => _ end] =>
      lazymatch x with
      | context [match _ with _ => _ end] => fail
      | _ => destruct x eqn:?
      end
  end.

Ltac solve_pos H :=
  repeat (break_match_in H; try discriminate);
  try (injection H as H; subst); try discriminate; try lia.

Lemma alternation_pos alts s n :
  Forall (fun m => forall k, m s = Some k -> 1 <= k) alts ->
  alternation alts s = Some n -> 1 <= n.
Proof.
  induction 1 as [|m alts Hm _ IH]; simpl; [discriminate|].
  destruct (m s) eqn:E; [intros [= <-]; auto | exact IH].
Qed.

Lemma re_number_pos s n : re_number s = Some n -> 1 <= n.
Proof.
  apply alternation_pos. repeat constructor; intros k H.
  - unfold num_hex in H. solve_pos H.
  - unfold num_float in H. solve_pos H.
  - unfold num_trailing_dot in H. solve_pos H.
  - unfold num_leading_dot in H. solve_pos H.
  - unfold num_int in H. solve_pos H.
Qed.

(** Every pattern consumes at least one code unit. *)
Lemma first_match_pos sub ty n :
  first_match patterns sub = Some (ty, n) -> 1 <= n.
Proof.
  unfold patterns, first_match. intros H.
  destruct (re_comment sub) eqn:E1.
  { injection H as <- <-. unfold re_comment in E1. solve_pos E1. }
  destruct (re_whitespace sub) eqn:E2.
  { injection H as <- <-. unfold re_whitespace in E2. solve_pos E2. }
  destruct (re_number sub) eqn:E3.
  { injection H as <- <-. eapply re_number_pos; eauto. }
  destruct (re_ident sub) eqn:E4.
  { injection H as <- <-. unfold re_ident in E4. solve_pos E4. }
  destruct (re_punct2 sub) eqn:E5.
  { injection H as <- <-. unfold re_punct2 in E5. solve_pos E5. }
  destruct (re_punct1 sub) eqn:E6.
  { injection H as <- <-. unfold re_punct1 in E6. solve_pos E6. }
  discriminate.
Qed.

(** Matching on a value while keeping the equation that defines it. *)
Definition inspect {A : Type} (a : A) : {b : A | a = b} := exist _ a eq_refl.

(** The main loop.  [sub] is [code.slice(i)]; the loop runs while [i <
    code.length], that is while [sub] is not empty. *)
Equations? tokenize_from (sub : jsstring) (i : Z) : list Token by wf (length sub) lt :=
  tokenize_from [] i := [];
  tokenize_from (x :: s) i with inspect (first_match patterns (x :: s)) := {
    | exist _ (Some (ty, n)) _ =>
        mkToken ty (firstn n (x :: s)) i
          :: tokenize_from (skipn n (x :: s)) (i + Z.of_nat n);
    | exist _ None _ =>
        mkToken unknown [x] i :: tokenize_from s (i + 1) }.
Proof.
  pose proof (first_match_pos (x :: s) ty n e) as Hn.
  destruct n as [|n]; [lia|].
  simpl. pose proof (length_skipn n s). lia.
Qed.

Definition tokenize (code : jsstring) : list Token := tokenize_from code 0.

End Lexer.
Import Lexer.

(* ===================================================================== *)
(** ** The random source and the monad of the passes *)
(* ===================================================================== *)

(** The world of one run: the sequence that [Math.random()] will produce,
    how many of its elements were read, and a ghost counter of the calls of
    [generateScalarExpr] (read by no program). *)
Record World := mkWorld {
  rng : nat -> jsnum;
  pos : nat;
  calls : nat
}.

(** A computation reads and advances the world; [None] is no result: the
    source would go on with [undefined] where a value is expected, or the
    nesting allowed to [generateScalarExpr] is used up. *)
Definition M (A : Type) : Type := World -> option (A * World).

Definition ret {A} (a : A) : M A := fun w => Some (a, w).
Definition bind {A B} (m : M A) (k : A -> M B) : M B :=
  fun w => match m w with
           | Some (a, w') => k a w'
           | None => None
           end.
Definition fail {A} : M A := fun _ => None.

Notation "x <- m ;; k" := (bind m (fun x => k))
  (at level 61, m at next level, right associativity).
Notation "m ;;; k" := (bind m (fun _ => k))
  (at level 61, right associativity).

(** [Math.random()] *)
Definition random : M jsnum :=
  fun w => Some (rng w (pos w), mkWorld (rng w) (S (pos w)) (calls w)).

Definition tick : M unit :=
  fun w => Some (tt, mkWorld (rng w) (pos w) (S (calls w))).

(** [arr.map(f)] for an [f] with effects, left to right. *)
Fixpoint mapM {A B} (f : A -> M B) (l : list A) : M (list B) :=
  match l with
  | [] => ret []
  | x :: l' => y <- f x ;; ys <- mapM f l' ;; ret (y :: ys)
  end.

(** [min + Math.random() * (max - min)] *)
Definition randFloat (min max : jsnum) : M jsnum :=
  r <- random ;; ret (add min (mul r (sub max min))).

(** [arr[Math.floor(Math.random() * arr.length)]].  An index outside the
    array gives [undefined] in the source; the model ends abnormally there. *)
Definition getRandomItem {T} (arr : list T) : M T :=
  r <- random ;;
  match array_index (Math_floor (mul r (of_nat (length arr)))) with
  | Some i => match nth_error arr i with
              | Some x => ret x
              | None => fail
              end
  | None => fail
  end.

(** [arr[i] = x] inside the bounds of the array. *)
Fixpoint set_nth {A} (l : list A) (i : nat) (x : A) : list A :=
  match l, i with
  | [], _ => []
  | _ :: t, 0 => x :: t
  | h :: t, S i' => h :: set_nth t i' x
  end.

(** The Fisher-Yates loop [for (let i = arr.length - 1; i > 0; i--)] with
    [[arr[i], arr[j]] = [arr[j], arr[i]]]. *)
Fixpoint shuffle_loop (i : nat) (arr : jsstring) : M jsstring :=
  match i with
  | 0 => ret arr
  | S i' =>
      r <- random ;;
      match array_index (Math_floor (mul r (of_nat (i + 1)))) with
      | Some j =>
          match nth_error arr i, nth_error arr j with
          | Some ai, Some aj => shuffle_loop i' (set_nth (set_nth arr i aj) j ai)
          | _, _ => fail
          end
      | None => fail
      end
  end.

Definition shuffleString (str : jsstring) : M jsstring :=
  shuffle_loop (length str - 1) str.

(* ===================================================================== *)
(** ** Expression synthesizer *)
(* ===================================================================== *)

Module Synth.

(** The terminals of [generateScalarExpr]. *)
Definition terminal (uvName : jsstring) : M jsstring :=
  x <- randFloat (num "0.1") (num "5.0") ;;
  getRandomItem
    [ uvName ++ lit ".x";
      uvName ++ lit ".y";
      lit "length(" ++ uvName ++ lit " - 0.5)";
      lit "time";
      toFixed x 2;
      lit "f_hash(" ++ uvName ++ lit ")";
      lit "f_n(" ++ uvName ++ lit ".x * 10.0)" ].

(** The non-terminal part of [generateScalarExpr]; [rec] stands for the
    recursive call [generateScalarExpr(depth - 1, uvName)], which every
    branch makes with the same arguments. *)
Definition nonterminal (rec : M jsstring) : M jsstring :=
  rnd <- random ;;
  if ltb rnd (num "0.35") then
    f <- getRandomItem (map lit ["sin"; "cos"; "fract"; "abs"; "sqrt"; "exp";
                                 "f_sin"; "f_cos"]%string) ;;
    inner <- rec ;;
    let inner := if str_eqb f (lit "sqrt")
                 then lit "abs(" ++ inner ++ lit ")" else inner in
    let inner := if str_eqb f (lit "exp")
                 then lit "clamp(" ++ inner ++ lit ", -10.0, 10.0)" else inner in
    ret (f ++ lit "(" ++ inner ++ lit ")")
  else if ltb rnd (num "0.7") then
    op <- getRandomItem (map lit ["+"; "-"; "*"; "*"]%string) ;;
    a <- rec ;;
    b <- rec ;;
    ret (lit "(" ++ a ++ lit " " ++ op ++ lit " " ++ b ++ lit ")")
  else
    ty <- random ;;
    if ltb ty (num "0.33") then
      a <- rec ;;
      b <- rec ;;
      x <- randFloat (num "0") (num "1") ;;
      ret (lit "mix(" ++ a ++ lit ", " ++ b ++ lit ", " ++ toFixed x 2 ++ lit ")")
    else if ltb ty (num "0.66") then
      a <- rec ;;
      ret (lit "smoothstep(0.0, 1.0, " ++ a ++ lit ")")
    else
      a <- rec ;;
      b <- rec ;;
      ret (lit "f_smin(" ++ a ++ lit ", " ++ b ++ lit ", 0.5)").

(** [generateScalarExpr(depth, uvName)].  The depth is a number: the test
    is [depth <= 0] and the recursive calls pass [depth - 1], both in
    binary64, where [depth - 1] is [depth] again from 2^53 + 4 on, for
    [Infinity] and for [NaN]; the recursion need not end.  [fuel] bounds
    the nesting of the calls: a call that would nest deeper has no result.
    [depth <= 0 || Math.random() < 0.15] draws only when [depth <= 0] is
    false.  Every call is counted in the ghost counter of the world. *)
Fixpoint generateScalarExpr (fuel : nat) (depth : jsnum) (uvName : jsstring)
  : M jsstring :=
  match fuel with
  | 0 => fail
  | S fuel' =>
      tick ;;;
      if leb depth (num "0") then terminal uvName
      else
        r0 <- random ;;
        if ltb r0 (num "0.15") then terminal uvName
        else nonterminal (generateScalarExpr fuel' (sub depth (num "1")) uvName)
  end.

(** [generateProceduralGene(uvName)].  From depth 4 the calls nest five
    deep at most (4, 3, 2, 1, 0), from depth 3 four deep: the nesting
    allowed here is never used up ([gene_nesting_exact]). *)
Definition generateProceduralGene (uvName : jsstring) : M jsstring :=
  r <- generateScalarExpr 5 (num "4") uvName ;;
  g <- generateScalarExpr 5 (num "4") uvName ;;
  b <- generateScalarExpr 5 (num "4") uvName ;;
  p <- random ;;
  if ltb p (num "0.5") then
    e <- generateScalarExpr 4 (num "3") uvName ;;
    ret (lit "f_pal(" ++ e ++ lit ", vec3<f32>(0.5,0.5,0.5), vec3<f32>(0.5,0.5,0.5), vec3<f32>(1.0,1.0,1.0), vec3<f32>(0.0, 0.33, 0.67))")
  else
    ret (lit "vec3<f32>(" ++ r ++ lit ", " ++ g ++ lit ", " ++ b ++ lit ")").

End Synth.
Import Synth.

(* ===================================================================== *)
(** ** Loops over a token array *)
(* ===================================================================== *)

Section TokenArray.

Variable tokens : list Token.

(** [tokens[i].value === s] and [tokens[i].type === ty], for [i] inside the
    array (every use below is guarded by [i < tokens.length]). *)
Definition value_is (i : nat) (s : jsstring) : bool :=
  match nth_error tokens i with
  | Some t => str_eqb (value t) s
  | None => false
  end.
Definition type_is (i : nat) (ty : TokenType) : bool :=
  match nth_error tokens i with
  | Some t => TokenType_eqb (type t) ty
  | None => false
  end.

(** [for (let k = i; k < i + n; k++) if (hit(k)) { found = k; break; }] *)
Fixpoint for_find (n i : nat) (hit : nat -> bool) : option nat :=
  match n with
  | 0 => None
  | S n' => if hit i then Some i else for_find n' (S i) hit
  end.

(** [for (let k = n - 1; k >= 0; k--) if (hit(k)) { found = k; break; }] *)
Fixpoint for_find_down (n : nat) (hit : nat -> bool) : option nat :=
  match n with
  | 0 => None
  | S k => if hit k then Some k else for_find_down k hit
  end.

(** [while (j < tokens.length && p(j)) j++], with [n = tokens.length - j]. *)
Fixpoint while_skip (n j : nat) (p : nat -> bool) : nat :=
  match n with
  | 0 => j
  | S n' => if p j then while_skip n' (S j) p else j
  end.

(** [while (j < tokens.length && tokens[j].type === 'whitespace') j++] *)
Definition skip_ws (j : nat) : nat :=
  while_skip (length tokens - j) j (fun k => type_is k whitespace).

(** [while (j < tokens.length && tokens[j].value !== s) j++] *)
Definition skip_until (j : nat) (s : jsstring) : nat :=
  while_skip (length tokens - j) j (fun k => negb (value_is k s)).

(** [let prev = i - 1; while (prev >= 0 && tokens[prev].type ===
    'whitespace') prev--], [None] for [prev = -1]. *)
Fixpoint prev_nonws (i : nat) : option nat :=
  match i with
  | 0 => None
  | S p => if type_is p whitespace then prev_nonws p else Some p
  end.

(** The first [i >= from] with [tokens[i].value === s]. *)
Definition find_value_from (from : nat) (s : jsstring) : option nat :=
  for_find (length tokens - from) from (fun i => value_is i s).

(** The entry function: the first [fn] identifier followed, after white
    space, by a token whose text is [main]. *)
Definition findMain : option nat :=
  for_find (length tokens - 1) 0
    (fun i =>
       type_is i ident && value_is i (lit "fn")
       && (let j := skip_ws (i + 1) in
           (j <? length tokens) && value_is j (lit "main"))).

(** The last [return] identifier. *)
Definition findReturn : option nat :=
  for_find_down (length tokens)
    (fun i => type_is i ident && value_is i (lit "return")).

(** The first loop of [findUVName]: the identifier after a [location(..)]
    attribute, [''] when the loop ends without one. *)
Fixpoint uv_by_location (n i : nat) : jsstring :=
  match n with
  | 0 => []
  | S n' =>
      if value_is i (lit ")") then []
      else if value_is i (lit "location") then
        let j := skip_until (i + 1) (lit ")") in
        let j := skip_ws (j + 1) in
        match nth_error tokens j with
        | Some t => if TokenType_eqb (type t) ident then value t
                    else uv_by_location n' (S i)
        | None => uv_by_location n' (S i)
        end
      else uv_by_location n' (S i)
  end.

(** The second loop of [findUVName]: a token [uv] before the first [)]. *)
Fixpoint uv_literal (n i : nat) : jsstring :=
  match n with
  | 0 => []
  | S n' =>
      if value_is i (lit ")") then []
      else if value_is i (lit "uv") then lit "uv"
      else uv_literal n' (S i)
  end.

(** [findUVName(tokens, mainIdx)]; [None] is [null]. *)
Definition findUVName (mainIdx : nat) : option jsstring :=
  match find_value_from mainIdx (lit "(") with
  | None => None
  | Some argsStart =>
      match uv_by_location (length tokens - argsStart) argsStart with
      | [] => Some (uv_literal (length tokens - argsStart) argsStart)
      | uvName => Some uvName
      end
  end.

(** [tokens.slice(a, b)] *)
Definition slice (a b : nat) : list Token := firstn (b - a) (skipn a tokens).

(** [[...tokens].splice(start, del, ...ins)], the array after the call. *)
Definition splice (start del : nat) (ins : list Token) : list Token :=
  firstn start tokens ++ ins ++ skipn (start + del) tokens.

End TokenArray.

(** [for (let k = i; k < i + n; k++) body(k)], where the body updates the
    array [newTokens] in place and may draw random numbers. *)
Fixpoint for_each_index (body : list Token -> nat -> M (list Token)) (n i : nat)
  (newTokens : list Token) : M (list Token) :=
  match n with
  | 0 => ret newTokens
  | S n' =>
      newTokens' <- body newTokens i ;;
      for_each_index body n' (S i) newTokens'
  end.

(* ===================================================================== *)
(** ** Mutation passes *)
(* ===================================================================== *)

Definition OPS : list jsstring := map lit ["+"; "-"; "*"; "/"]%string.
Definition SAFE_BUILTINS : list jsstring :=
  map lit ["sin"; "cos"; "tan"; "abs"; "floor"; "ceil"; "fract"; "sqrt"; "f_sin";
           "f_cos"; "f_n"; "f_hash"; "length"]%string.

Module Passes.

(** The new value of a literal in [mutateNumbers]: [val + (r - 0.5)] or
    [val * (0.5 + r)]. *)
Definition perturb (val : jsnum) (pick r : jsnum) : jsnum :=
  if ltb pick (num "0.5") then add val (sub r (num "0.5"))
  else mul val (add (num "0.5") r).

Definition number_text (newVal : jsnum) : jsstring :=
  if ltb (abs newVal) (num "0.001") then lit "0.0" else toFixed newVal 3.

Definition mutateNumbers_token (intensity : jsnum) (t : Token) : M Token :=
  if TokenType_eqb (type t) number && includes (c ".") (value t) then
    r <- random ;;
    if ltb r intensity then
      let val := parseFloat (value t) in
      if negb (isNaN val) then
        pick <- random ;;
        r' <- random ;;
        ret (with_value t (number_text (perturb val pick r')))
      else ret t
    else ret t
  else ret t.

Definition mutateNumbers (tokens : list Token) (intensity : jsnum) : M (list Token) :=
  mapM (mutateNumbers_token intensity) tokens.

Definition mutateOperators_token (intensity : jsnum) (t : Token) : M Token :=
  if TokenType_eqb (type t) punct && mem (value t) OPS then
    r <- random ;;
    if ltb r intensity then
      v <- getRandomItem OPS ;; ret (with_value t v)
    else ret t
  else ret t.

Definition mutateOperators (tokens : list Token) (intensity : jsnum) : M (list Token) :=
  mapM (mutateOperators_token intensity) tokens.

Definition mutateBuiltins_token (intensity : jsnum) (t : Token) : M Token :=
  if TokenType_eqb (type t) ident && mem (value t) SAFE_BUILTINS then
    r <- random ;;
    if ltb r intensity then
      v <- getRandomItem SAFE_BUILTINS ;; ret (with_value t v)
    else ret t
  else ret t.

Definition mutateBuiltins (tokens : list Token) (intensity : jsnum) : M (list Token) :=
  mapM (mutateBuiltins_token intensity) tokens.

(** *** Geometry *)

(** The five rebinding templates; the three random literals are drawn in
    the order of the array literal. *)
Definition geometry_templates (uvName mutVar : jsstring) : M (list jsstring) :=
  a <- randFloat (neg (num "0.5")) (num "0.5") ;;
  b <- randFloat (num "0.5") (num "2.0") ;;
  d <- randFloat (num "2") (num "5") ;;
  ret [ lit "var " ++ mutVar ++ lit " = f_rot(" ++ uvName ++ lit ", time * "
          ++ toFixed a 2 ++ lit ");";
        lit "var " ++ mutVar ++ lit " = " ++ uvName ++ lit " * " ++ toFixed b 2
          ++ lit " + vec2<f32>(sin(time), cos(time)) * 0.1;";
        lit "var " ++ mutVar ++ lit " = abs(" ++ uvName ++ lit " * 2.0 - 1.0);";
        lit "var " ++ mutVar ++ lit " = fract(" ++ uvName ++ lit " * "
          ++ toFixed d 2 ++ lit ");";
        lit "var " ++ mutVar ++ lit " = " ++ uvName ++ lit " + vec2<f32>(f_n("
          ++ uvName ++ lit ".x*10.0), f_n(" ++ uvName ++ lit ".y*10.0))*0.05;" ].

(** One iteration of the renaming loop at index [i] of [newTokens]. *)
Definition rename_at (uvName mutVar : jsstring) (newTokens : list Token) (i : nat)
  : list Token :=
  match nth_error newTokens i with
  | Some t =>
      if TokenType_eqb (type t) ident && str_eqb (value t) uvName then
        if match prev_nonws newTokens i with
           | Some prev => value_is newTokens prev (lit ".")
           | None => false
           end
        then newTokens
        else
          let next := skip_ws newTokens (i + 1) in
          if (next <? length newTokens) && value_is newTokens next (lit ":")
          then newTokens
          else set_nth newTokens i (with_value t mutVar)
      else newTokens
  | None => newTokens
  end.

(** [for (let i = start; i < newTokens.length; i++)], [n] iterations. *)
Fixpoint rename_loop (uvName mutVar : jsstring) (n i : nat) (newTokens : list Token)
  : list Token :=
  match n with
  | 0 => newTokens
  | S n' => rename_loop uvName mutVar n' (S i) (rename_at uvName mutVar newTokens i)
  end.

Definition mutateGeometry (tokens : list Token) (intensity : jsnum) : M (list Token) :=
  match findMain tokens with
  | None => ret tokens
  | Some mainIdx =>
      match findUVName tokens mainIdx with
      | None | Some [] => ret tokens
      | Some uvName =>
          match find_value_from tokens mainIdx (lit "(") with
          | None => fail
          | Some argsStart =>
              match find_value_from tokens argsStart (lit "{") with
              | None => ret tokens
              | Some bodyStart =>
                  r <- random ;;
                  let uniqueId := Math_floor (mul r (num "100000")) in
                  let mutVar := uvName ++ lit "_geo_" ++ toString uniqueId in
                  mutations <- geometry_templates uvName mutVar ;;
                  injectionStr <- getRandomItem mutations ;;
                  let injectionTokens := tokenize injectionStr in
                  let newTokens :=
                    splice tokens (bodyStart + 1) 0
                      (mkToken whitespace (10%N :: lit "    ") (-1)
                         :: injectionTokens ++ [mkToken punct (lit ";") (-1)]) in
                  let start := bodyStart + 1 + length injectionTokens + 2 in
                  ret (rename_loop uvName mutVar (length newTokens - start) start newTokens)
              end
          end
      end
  end.

(** *** Color *)

(** [while (j < newTokens.length && balance > 0)], at most [n] iterations. *)
Fixpoint color_args (intensity : jsnum) (n j : nat) (balance : Z)
  (newTokens : list Token) : M (list Token) :=
  match n with
  | 0 => ret newTokens
  | S n' =>
      match nth_error newTokens j with
      | Some t =>
          if (0 <? balance)%Z then
            let balance := if str_eqb (value t) (lit "(") then (balance + 1)%Z else balance in
            let balance := if str_eqb (value t) (lit ")") then (balance - 1)%Z else balance in
            newTokens' <-
              (if (0 <? balance)%Z && TokenType_eqb (type t) number
                  && includes (c ".") (value t) then
                 r <- random ;;
                 if ltb r intensity then
                   let val := parseFloat (value t) in
                   r' <- random ;;
                   let offset := mul (mul (sub r' (num "0.5")) intensity) (num "2.0") in
                   let newVal := add val offset in
                   ret (set_nth newTokens j (with_value t (toFixed newVal 2)))
                 else ret newTokens
               else ret newTokens) ;;
            color_args intensity n' (S j) balance newTokens'
          else ret newTokens
      | None => ret newTokens
      end
  end.

(** The body of the outer loop at index [i]. *)
Definition color_at (intensity : jsnum) (newTokens : list Token) (i : nat)
  : M (list Token) :=
  if type_is newTokens i ident
     && (value_is newTokens i (lit "vec3") || value_is newTokens i (lit "vec4")) then
    let ptr := skip_ws newTokens (i + 1) in
    let ptr :=
      if (ptr <? length newTokens) && value_is newTokens ptr (lit "<") then
        skip_ws newTokens (skip_until newTokens ptr (lit ">") + 1)
      else ptr in
    if (ptr <? length newTokens) && value_is newTokens ptr (lit "(") then
      color_args intensity (length newTokens - (ptr + 1)) (ptr + 1) 1 newTokens
    else ret newTokens
  else ret newTokens.

(** [const newTokens = [...tokens]; for (let i = 0; i < newTokens.length; i++)] *)
Definition mutateColor (tokens : list Token) (intensity : jsnum) : M (list Token) :=
  for_each_index (color_at intensity) (length tokens) 0 tokens.

(** *** Chaos *)

Definition chaosOptions (exprStr : jsstring) : list jsstring :=
  [ lit "( " ++ exprStr ++ lit " + vec4<f32>(0.1, 0.1, 0.1, 0.0) )";
    lit "abs( " ++ exprStr ++ lit " - 0.5 ) * 2.0";
    lit "vec4<f32>( (" ++ exprStr ++ lit ").brg, 1.0 )";
    lit "mix( " ++ exprStr ++ lit ", vec4<f32>(sin(time), cos(time), 0.5, 1.0), 0.1 )";
    lit "(" ++ exprStr ++ lit " * vec4<f32>(1.2, 0.9, 0.8, 1.0))" ].

Definition mutateChaos (tokens : list Token) (intensity : jsnum) : M (list Token) :=
  match findReturn tokens with
  | None => ret tokens
  | Some retIdx =>
      match find_value_from tokens retIdx (lit ";") with
      | None => ret tokens
      | Some semiIdx =>
          let '(spliceStart, preservedWhitespace) :=
            if (retIdx + 1 <? length tokens) && type_is tokens (retIdx + 1) whitespace
            then (retIdx + 2, true) else (retIdx + 1, false) in
          let '(spliceStart, preservedWhitespace) :=
            if semiIdx <=? spliceStart then (retIdx + 1, false)
            else (spliceStart, preservedWhitespace) in
          let exprTokens := slice tokens spliceStart semiIdx in
          let exprStr := join (map value exprTokens) in
          injectionStr <- getRandomItem (chaosOptions exprStr) ;;
          let injectionStr :=
            if negb preservedWhitespace then lit " " ++ injectionStr else injectionStr in
          let chaosTokens := tokenize injectionStr in
          ret (splice tokens spliceStart (semiIdx - spliceStart) chaosTokens)
      end
  end.

(** *** Swizzle *)

(** [/^[xyzrgba]{2,4}$/.test(s)] *)
Definition swizzle_re (s : jsstring) : bool :=
  (2 <=? length s) && (length s <=? 4)
  && forallb (fun x => includes x (lit "xyzrgba")) s.

(** The body of the loop at index [i]. *)
Definition swizzle_at (intensity : jsnum) (newTokens : list Token) (i : nat)
  : M (list Token) :=
  if value_is newTokens i (lit ".") && type_is newTokens i punct then
    match nth_error newTokens (i + 1) with
    | Some next =>
        if TokenType_eqb (type next) ident && swizzle_re (value next) then
          r <- random ;;
          if ltb r intensity then
            s <- shuffleString (value next) ;;
            ret (set_nth newTokens (i + 1) (with_value next s))
          else ret newTokens
        else ret newTokens
    | None => fail
    end
  else ret newTokens.

(** [const newTokens = [...tokens]; for (let i = 0; i < newTokens.length - 1; i++)] *)
Definition mutateSwizzle (tokens : list Token) (intensity : jsnum) : M (list Token) :=
  for_each_index (swizzle_at intensity) (length tokens - 1) 0 tokens.

(** *** Structure *)

Definition mutateStructure (tokens : list Token) (intensity : jsnum) : M (list Token) :=
  match findMain tokens with
  | None => ret tokens
  | Some mainIdx =>
      match findUVName tokens mainIdx with
      | None | Some [] => ret tokens
      | Some uvName =>
          match findReturn tokens with
          | None => ret tokens
          | Some retIdx =>
              match find_value_from tokens retIdx (lit ";") with
              | None => ret tokens
              | Some semiIdx =>
                  let '(spliceStart, preservedWhitespace) :=
                    if (retIdx + 1 <? length tokens)
                       && type_is tokens (retIdx + 1) whitespace
                    then (retIdx + 2, true) else (retIdx + 1, false) in
                  geneCode <- generateProceduralGene uvName ;;
                  let injectionStr := lit "vec4<f32>(" ++ geneCode ++ lit ", 1.0)" in
                  let injectionStr :=
                    if negb preservedWhitespace then lit " " ++ injectionStr
                    else injectionStr in
                  let injectionTokens := tokenize injectionStr in
                  if spliceStart <? semiIdx then
                    ret (splice tokens spliceStart (semiIdx - spliceStart) injectionTokens)
                  else
                    ret (splice tokens spliceStart 0 injectionTokens)
              end
          end
      end
  end.

End Passes.
Import Passes.

(* ===================================================================== *)
(** ** The pipeline *)
(* ===================================================================== *)

Record FuzzConfig := mkConfig {
  cfg_mutateNumbers : bool;
  cfg_mutateOperators : bool;
  cfg_mutateBuiltins : bool;
  cfg_mutateGeometry : bool;
  cfg_mutateColor : bool;
  cfg_mutateChaos : bool;
  cfg_mutateStructure : bool;
  cfg_intensity : jsnum
}.

(** [if (flag && Math.random() < config.intensity) tokens = pass(tokens, ..)];
    the draw is made only when the flag is set. *)
Definition gated (flag : bool) (intensity : jsnum)
  (pass : list Token -> jsnum -> M (list Token)) (tokens : list Token) : M (list Token) :=
  if flag then
    r <- random ;;
    if ltb r intensity then pass tokens intensity else ret tokens
  else ret tokens.

(** [if (flag) tokens = pass(tokens, config.intensity)] *)
Definition enabled (flag : bool) (intensity : jsnum)
  (pass : list Token -> jsnum -> M (list Token)) (tokens : list Token) : M (list Token) :=
  if flag then pass tokens intensity else ret tokens.

Definition fuzzShader (code : jsstring) (config : FuzzConfig) : M jsstring :=
  let intensity := cfg_intensity config in
  let tokens := tokenize code in
  tokens <- gated (cfg_mutateStructure config) intensity mutateStructure tokens ;;
  tokens <- gated (cfg_mutateGeometry config) intensity mutateGeometry tokens ;;
  tokens <- gated (cfg_mutateColor config) intensity mutateColor tokens ;;
  tokens <- gated (cfg_mutateChaos config) intensity mutateChaos tokens ;;
  tokens <- enabled (cfg_mutateNumbers config) intensity mutateNumbers tokens ;;
  tokens <- enabled (cfg_mutateOperators config) intensity mutateOperators tokens ;;
  tokens <- enabled (cfg_mutateBuiltins config) intensity mutateBuiltins tokens ;;
  tokens <- enabled (gtb intensity (num "0.15")) intensity mutateSwizzle tokens ;;
  ret (serialize tokens).

(* ===================================================================== *)
(** ** The application: presets and log (types.ts, constants.ts, App.tsx) *)
(* ===================================================================== *)

(** [PresetName] and [ShaderPreset] of types.ts. *)
Inductive PresetName := Triangle | Gradient | Plasma | Grid.

Record ShaderPreset := mkPreset { preset_name : PresetName; preset_code : jsstring }.

(** The presets of constants.ts; each text starts with the line break that
    follows the opening quote of its template literal. *)
Definition preset_Triangle : ShaderPreset :=
  mkPreset Triangle (lit "
@group(0) @binding(0) var<uniform> time : f32;
@group(0) @binding(1) var<uniform> resolution : vec2<f32>;

@fragment
fn main(@location(0) uv : vec2<f32>) -> @location(0) vec4<f32> {
    let col = 0.5 + 0.5 * cos(time + uv.xyx + vec3<f32>(0.0, 2.0, 4.0));
    return vec4<f32>(col, 1.0);
}
").

Definition preset_Gradient : ShaderPreset :=
  mkPreset Gradient (lit "
@group(0) @binding(0) var<uniform> time : f32;
@group(0) @binding(1) var<uniform> resolution : vec2<f32>;

@fragment
fn main(@location(0) uv : vec2<f32>) -> @location(0) vec4<f32> {
    let center = vec2<f32>(0.5, 0.5);
    let dist = distance(uv, center);
    let wave = sin(dist * 20.0 - time * 2.0);
    let col = vec3<f32>(wave, wave, wave);
    return vec4<f32>(col, 1.0);
}
").

Definition preset_Plasma : ShaderPreset :=
  mkPreset Plasma (lit "
@group(0) @binding(0) var<uniform> time : f32;
@group(0) @binding(1) var<uniform> resolution : vec2<f32>;

@fragment
fn main(@location(0) uv : vec2<f32>) -> @location(0) vec4<f32> {
    let x = uv.x * 10.0;
    let y = uv.y * 10.0;
    let v = sin(x + time) + sin((y + time) * 0.5);
    let cx = x + 0.5 * sin(time / 5.0);
    let cy = y + 0.5 * cos(time / 3.0);
    let v2 = sin(sqrt(100.0 * (cx*cx + cy*cy)) + time);
    let col = sin(vec3<f32>(v + v2, v + v2 + 2.0, v + v2 + 4.0));
    return vec4<f32>(col * 0.5 + 0.5, 1.0);
}
").

Definition preset_Grid : ShaderPreset :=
  mkPreset Grid (lit "
@group(0) @binding(0) var<uniform> time : f32;
@group(0) @binding(1) var<uniform> resolution : vec2<f32>;

@fragment
fn main(@location(0) uv : vec2<f32>) -> @location(0) vec4<f32> {
    let grid_scale = 10.0;
    let g = fract(uv * grid_scale);
    let line_w = 0.05;
    let lines = step(g.x, line_w) + step(g.y, line_w);
    let col = vec3<f32>(lines, lines * sin(time), lines * cos(time));
    return vec4<f32>(col, 1.0);
}
").

Definition PRESETS : list ShaderPreset :=
  [preset_Triangle; preset_Gradient; preset_Plasma; preset_Grid].

Definition PresetName_eqb (a b : PresetName) : bool :=
  match a, b with
  | Triangle, Triangle | Gradient, Gradient | Plasma, Plasma | Grid, Grid => true
  | _, _ => false
  end.

(** [PRESETS.find(p => p.name === presetName)] of [handleReset] in App.tsx. *)
Definition find_preset (presetName : PresetName) : option ShaderPreset :=
  find (fun p => PresetName_eqb (preset_name p) presetName) PRESETS.

(** [LogEntry] of types.ts.  [addLog] of App.tsx builds the entry from
    [Math.random().toString(36)] and [new Date()] and hands [setLogs] the
    update [prev => [...prev, entry].slice(-50)]; the update is modelled for
    an entry as it was built. *)
Inductive LogType := log_info | log_success | log_error | log_warning.

Record LogEntry := mkLogEntry {
  log_id : jsstring;
  log_timestamp : Z;
  log_type : LogType;
  log_message : jsstring
}.

(** [arr.slice(-k)] *)
Definition slice_last {A} (k : nat) (arr : list A) : list A :=
  skipn (length arr - k) arr.

(** [prev => [...prev, entry].slice(-50)] *)
Definition addLog (entry : LogEntry) (prev : list LogEntry) : list LogEntry :=
  slice_last 50 (prev ++ [entry]).

(* ===================================================================== *)
(** ** The vocabulary of the properties *)
(* ===================================================================== *)

(** What [Math.random()] promises: a Number with positive sign, at least
    [+0] and less than [1]. *)
Definition unit_draw (r : jsnum) : bool :=
  valid_binary prec emax r
  && match r with
     | S754_zero false | S754_finite false _ _ => true
     | _ => false
     end
  && ltb r (num "1").

Definition fair (w : World) : Prop := forall i, unit_draw (rng w i) = true.

(** [Runs m Q]: from every world with a fair random sequence, [m] ends
    normally, leaves the sequence as it was, and its result satisfies [Q]. *)
Definition Runs {A} (m : M A) (Q : A -> Prop) : Prop :=
  forall w, fair w -> exists a w', m w = Some (a, w') /\ rng w' = rng w /\ Q a.

Definition same_frame (t t' : Token) : Prop :=
  type t' = type t /\ index t' = index t.

Definition Frame (tokens out : list Token) : Prop := Forall2 same_frame tokens out.

(** What the passes look for. *)
Definition float_literal (t : Token) : bool :=
  TokenType_eqb (type t) number && includes (c ".") (value t).
Definition operator_token (t : Token) : bool :=
  TokenType_eqb (type t) punct && mem (value t) OPS.
Definition builtin_token (t : Token) : bool :=
  TokenType_eqb (type t) ident && mem (value t) SAFE_BUILTINS.
Definition swizzle_site (tokens : list Token) (i : nat) : bool :=
  value_is tokens i (lit ".") && type_is tokens i punct
  && match nth_error tokens (i + 1) with
     | Some next => TokenType_eqb (type next) ident && swizzle_re (value next)
     | None => false
     end.

(** No pass finds anything to act on: no entry function, no [return], no
    literal with a decimal point, no arithmetic operator, no whitelisted
    builtin, no swizzle after a [.]. *)
Definition no_anchor (tokens : list Token) : bool :=
  match findMain tokens with None => true | Some _ => false end
  && match findReturn tokens with None => true | Some _ => false end
  && forallb (fun t => negb (float_literal t) && negb (operator_token t)
                       && negb (builtin_token t)) tokens
  && forallb (fun i => negb (swizzle_site tokens i)) (seq 0 (length tokens - 1)).

Definition nofloat (l : list Token) : Prop :=
  forall t, In t l -> float_literal t = false.

(** The result of the Swizzle pass: the same array, but for tokens after a
    swizzle site, whose text is a permutation of the original text. *)
Definition swizzled_at (tokens : list Token) (i : nat) (t' : Token) : Prop :=
  nth_error tokens i = Some t'
  \/ exists i0 t p,
       i = S i0 /\ swizzle_site tokens i0 = true /\ nth_error tokens i = Some t
       /\ Permutation (value t) p /\ t' = with_value t p.

Definition swizzled (tokens out : list Token) : Prop :=
  length out = length tokens
  /\ forall i t', nth_error out i = Some t' -> swizzled_at tokens i t'.

(** [Costs m n]: a run of [m] adds at most [n] to the call counter. *)
Definition Costs {A} (m : M A) (n : nat) : Prop :=
  forall w a w', m w = Some (a, w') -> calls w <= calls w' <= calls w + n.

(** The calls of [generateScalarExpr] from [depth] nest at most [n] deep:
    one of [depth], [depth - 1], ..., the [n] first depths, is at most 0. *)
Fixpoint nests_within (n : nat) (depth : jsnum) : bool :=
  match n with
  | 0 => false
  | S n' => leb depth (num "0") || nests_within n' (sub depth (num "1"))
  end.

(** The integer 2^53 + 4, a depth that [depth - 1] leaves as it is. *)
Definition stuck_depth : jsnum := num "9007199254740996".

(** No identifier token [return]. *)
Definition no_return (tokens : list Token) : bool :=
  forallb (fun t => negb (TokenType_eqb (type t) ident && str_eqb (value t) (lit "return")))
          tokens.

Definition scenarioA : jsstring := lit "return vec4<f32>(1.0, 0.0, 0.0, 1.0);".
Definition scenarioA_expr : jsstring := lit "vec4<f32>(1.0, 0.0, 0.0, 1.0)".

Definition scenarioA_tokens : list Token := Eval vm_compute in tokenize scenarioA.

(** The five results, written out. *)
Definition scenarioA_results : list jsstring :=
  map lit
    [ "return ( vec4<f32>(1.0, 0.0, 0.0, 1.0) + vec4<f32>(0.1, 0.1, 0.1, 0.0) );";
      "return abs( vec4<f32>(1.0, 0.0, 0.0, 1.0) - 0.5 ) * 2.0;";
      "return vec4<f32>( (vec4<f32>(1.0, 0.0, 0.0, 1.0)).brg, 1.0 );";
      "return mix( vec4<f32>(1.0, 0.0, 0.0, 1.0), vec4<f32>(sin(time), cos(time), 0.5, 1.0), 0.1 );";
      "return (vec4<f32>(1.0, 0.0, 0.0, 1.0) * vec4<f32>(1.2, 0.9, 0.8, 1.0));" ]%string.

Definition swizzle_xw : jsstring := lit "p.xw".

(** An optional minus sign, at least one digit, a point and exactly three
    digits. *)
Definition is_fixed3 (s : jsstring) : bool :=
  let body := match s with
              | x :: r => if N.eqb x (c "-") then r else s
              | [] => s
              end in
  let n := span is_digit body in
  (1 <=? n)
  && match skipn n body with
     | p :: frac => N.eqb p (c ".") && (length frac =? 3) && forallb is_digit frac
     | [] => false
     end.

(** A decimal with at most three fractional digits: an optional minus sign,
    at least one digit, and possibly a point followed by up to three digits. *)
Definition decimal_text (s : jsstring) : bool :=
  let body := match s with
              | x :: r => if N.eqb x (c "-") then r else s
              | [] => s
              end in
  let n := span is_digit body in
  (1 <=? n)
  && match skipn n body with
     | p :: frac => N.eqb p (c ".") && (length frac <=? 3) && forallb is_digit frac
     | [] => true
     end.

(** The value is finite, and its magnitude is below [10^21]. *)
Definition below_1e21 (x : jsnum) : bool :=
  match x with
  | S754_finite _ m e => (numer m e <? 10 ^ 21 * denom e)%Z
  | _ => false
  end.

(** The token was selected and rewritten by [mutateNumbers]. *)
Definition numbers_selects (intensity : jsnum) (t : Token) (w : World) : bool :=
  float_literal t && ltb (rng w (pos w)) intensity && negb (isNaN (parseFloat (value t))).

(** The exclusion tests of the renaming loop at index [k] of [arr]: the
    previous token that is not white space is a [.], or the next one is a
    [:]. *)
Definition after_dot (arr : list Token) (k : nat) : bool :=
  match prev_nonws arr k with
  | Some p => value_is arr p (lit ".")
  | None => false
  end.
Definition before_colon (arr : list Token) (k : nat) : bool :=
  let next := skip_ws arr (k + 1) in
  (next <? length arr) && value_is arr next (lit ":").

(** The token [t] at index [k] of [arr] is an occurrence of [uvName] that
    the loop renames. *)
Definition renames (uvName : jsstring) (arr : list Token) (k : nat) (t : Token) : bool :=
  TokenType_eqb (type t) ident && str_eqb (value t) uvName
  && negb (after_dot arr k) && negb (before_colon arr k).

(** Two arrays with the same types, and [.] at the same places. *)
Definition sim_dot (a b : Token) : Prop :=
  type a = type b /\ str_eqb (value a) (lit ".") = str_eqb (value b) (lit ".").

(** What the renaming loop makes of the token [t] at index [k] of the body. *)
Definition renamed (uvName mutVar : jsstring) (post : list Token) (k : nat) (t : Token)
  : Token :=
  if renames uvName post k t then with_value t mutVar else t.

(** The anchors of the Geometry pass: the coordinate name and the index of
    the opening brace of the body of the entry function. *)
Definition geometry_anchors (tokens : list Token) : option (jsstring * nat) :=
  match findMain tokens with
  | Some mainIdx =>
      match findUVName tokens mainIdx with
      | Some (u :: uv) =>
          match find_value_from tokens mainIdx (lit "(") with
          | Some argsStart =>
              match find_value_from tokens argsStart (lit "{") with
              | Some bodyStart => Some (u :: uv, bodyStart)
              | None => None
              end
          | None => None
          end
      | _ => None
      end
  | None => None
  end.

(** The separator tokens that the pass inserts. *)
Definition geo_indent : Token := mkToken whitespace (10%N :: lit "    ") (-1).
Definition geo_semicolon : Token := mkToken punct (lit ";") (-1).

(** A world whose random sequence is constantly [0.5], used to run the
    passes on concrete inputs. *)
Definition half_world : World := mkWorld (fun _ => num "0.5") 0 0.

(** The source text of scenario B with a member access in the body. *)
Definition scenarioB : jsstring :=
  lit "fn main(@location(0) uv : vec2<f32>) { return uv.x; }".

(** The token at index [k] of [post] is the receiver of a member access:
    the next token that is not white space is a [.]. *)
Definition is_receiver (post : list Token) (k : nat) : bool :=
  value_is post (skip_ws post (k + 1)) (lit ".").

(** *** The vocabulary of the further properties *)

(** [code.slice(a, b)] on strings. *)
Definition str_slice (s : jsstring) (a b : nat) : jsstring := firstn (b - a) (skipn a s).

(** The characters of the one-character punctuation pattern, and the texts of
    the two-character one. *)
Definition punct1_chars : jsstring := lit "{}()[],;:.+*/=-><".
Definition punct2_texts : list jsstring :=
  [lit "->"; lit "=="; lit "!="; lit "<="; lit ">="; lit "&&"; lit "||"].

(** The text of a token has the shape of its type. *)
Definition lexeme_ok (t : Token) : bool :=
  match type t, value t with
  | comment, a :: b :: r =>
      N.eqb a (c "/") && N.eqb b (c "/") && forallb is_dot_char r
  | whitespace, x :: r => forallb is_space (x :: r)
  | number, x :: r =>
      is_digit x
      || (N.eqb x (c ".") && match r with y :: _ => is_digit y | [] => false end)
  | ident, x :: r => is_ident_start x && forallb is_word r
  | punct, [x] => includes x punct1_chars
  | punct, [x; y] => mem [x; y] punct2_texts
  | unknown, [x] =>
      negb (is_space x) && negb (is_word x) && negb (includes x punct1_chars)
  | _, _ => false
  end.

(** The first code unit of a token's text belongs to the class [p]. *)
Definition starts_in (p : char -> bool) (t : Token) : bool :=
  match value t with
  | x :: _ => p x
  | [] => false
  end.

(** The world after [n] more calls of [Math.random()]. *)
Definition drawn (n : nat) (w : World) : World := mkWorld (rng w) (pos w + n) (calls w).

(** No element of the random sequence is below the intensity. *)
Definition quiet (intensity : jsnum) (w : World) : Prop :=
  forall i, ltb (rng w i) intensity = false.

(** [Quiet intensity m Q]: from every quiet world [m] ends normally with
    a result that satisfies [Q]. *)
Definition Quiet {A} (intensity : jsnum) (m : M A) (Q : A -> Prop) : Prop :=
  forall w, quiet intensity w ->
    exists a w', m w = Some (a, w') /\ rng w' = rng w /\ Q a.

(** What [mutateOperators] and [mutateBuiltins] may make of a token: the
    token itself, or a candidate with another text of the list. *)
Definition replaced_within (ty : TokenType) (choices : list jsstring) (t t' : Token) : Prop :=
  t' = t
  \/ (type t = ty /\ In (value t) choices
      /\ exists v, In v choices /\ t' = with_value t v).

(** An identifier token [return]. *)
Definition is_return (t : Token) : bool :=
  TokenType_eqb (type t) ident && str_eqb (value t) (lit "return").

(** The place where the Chaos and Structure passes start to replace, after
    the [return] at [retIdx]: behind one white-space token when there is one. *)
Definition return_gap (tokens : list Token) (retIdx : nat) : bool :=
  type_is tokens (retIdx + 1) whitespace.

(** An entry function whose first parameter has an attribute with
    parentheses that is not [location]. *)
Definition builtin_first : jsstring :=
  lit "fn main(@builtin(position) p : vec4<f32>, @location(0) uv : vec2<f32>) -> @location(0) vec4<f32> { return vec4<f32>(uv, 0.0, 1.0); }".

(** Reading a text from left to right with [d] parentheses open: the
    number open at the end, [None] when a [)] closes nothing. *)
Fixpoint paren_scan (s : jsstring) (d : nat) : option nat :=
  match s with
  | [] => Some d
  | x :: r =>
      if N.eqb x (c "(") then paren_scan r (S d)
      else if N.eqb x (c ")") then
        match d with
        | 0 => None
        | S d' => paren_scan r d'
        end
      else paren_scan r d
  end.

(** Every [(] is closed and every [)] closes one. *)
Definition balanced (s : jsstring) : bool :=
  match paren_scan s 0 with
  | Some 0 => true
  | _ => false
  end.

(** No parenthesis at all. *)
Definition paren_free (s : jsstring) : bool :=
  forallb (fun x => negb (N.eqb x (c "(") || N.eqb x (c ")"))) s.

(** [balanced] as a postcondition. *)
Definition Balanced (s : jsstring) : Prop := balanced s = true.

(** The two shapes of a gene. *)
Definition gene_shape (s : jsstring) : Prop :=
  (exists e, balanced e = true
     /\ s = lit "f_pal(" ++ e ++ lit ", vec3<f32>(0.5,0.5,0.5), vec3<f32>(0.5,0.5,0.5), vec3<f32>(1.0,1.0,1.0), vec3<f32>(0.0, 0.33, 0.67))")
  \/ (exists r g b, balanced r = true /\ balanced g = true /\ balanced b = true
        /\ s = lit "vec3<f32>(" ++ r ++ lit ", " ++ g ++ lit ", " ++ b ++ lit ")").

(** [Yields m Q]: a result that [m] gives from a world with a fair random
    sequence satisfies [Q], and the sequence is as it was. *)
Definition Yields {A} (m : M A) (Q : A -> Prop) : Prop :=
  forall w a w', fair w -> m w = Some (a, w') -> rng w' = rng w /\ Q a.

(** [Always m Q]: from every world, whatever its random sequence, [m]
    ends normally with a result that satisfies [Q]. *)
Definition Always {A} (m : M A) (Q : A -> Prop) : Prop :=
  forall w, exists a w', m w = Some (a, w') /\ Q a.

(** An identifier [vec3] or [vec4]. *)
Definition is_vec_ctor (t : Token) : bool :=
  TokenType_eqb (type t) ident
  && (str_eqb (value t) (lit "vec3") || str_eqb (value t) (lit "vec4")).

(** What [mutateColor] may make of a token: the token itself, or a literal
    with a decimal point whose text is replaced by a [toFixed(2)] text. *)
Definition color_touched (t t' : Token) : Prop :=
  t' = t \/ (float_literal t = true /\ exists v, t' = with_value t (toFixed v 2)).

(** What [mutateNumbers] may make of a token. *)
Definition number_touched (t t' : Token) : Prop :=
  t' = t
  \/ (float_literal t = true /\ isNaN (parseFloat (value t)) = false
      /\ exists v, t' = with_value t (number_text v)).

(** The pass keeps the length of the array, and the type and index of each
    token. *)
Definition keeps_frame (intensity : jsnum)
  (pass : list Token -> jsnum -> M (list Token)) : Prop :=
  forall toks, Runs (pass toks intensity) (Frame toks).

(** The end of every preset: the [;] of the last statement, the closing
    brace and the line breaks. *)
Definition preset_tail : jsstring := lit ";
}
".

(* ===================================================================== *)
(** ** Sanity checks of the embedding *)
(* ===================================================================== *)

Example num_0_1 : num "0.1" = S754_finite false 7205759403792794 (-56).
Proof. vm_compute. reflexivity. Qed.
Example num_big : num "1.0e999" = S754_infinity false.
Proof. vm_compute. reflexivity. Qed.
Example toString_ex :
  map toString [num "1e21"; num "123456789012345680000"; num "0.000001"; num "1e-7";
                num "1234567890123456789012.0"; num "5e-324"; num "42"; num "-1.5";
                num "1e23"; num "0.3"; add (num "0.1") (num "0.2")]
  = map lit ["1e+21"; "123456789012345680000"; "0.000001"; "1e-7";
             "1.2345678901234568e+21"; "5e-324"; "42"; "-1.5";
             "1e+23"; "0.3"; "0.30000000000000004"]%string.
Proof. vm_compute. reflexivity. Qed.
Example toFixed_ex :
  [toFixed (num "1.005") 2; toFixed (num "2.5") 0; toFixed (num "-0.0004") 3;
   toFixed (num "0.0005") 3; toFixed (num "12345.6789") 3; toFixed (num "1e21") 2;
   toFixed (neg (num "0")) 2; toFixed (num "1.45") 1; toFixed (num "8.345") 2]
  = map lit ["1.00"; "3"; "-0.000"; "0.001"; "12345.679"; "1e+21"; "0.00"; "1.4"; "8.35"]%string.
Proof. vm_compute. reflexivity. Qed.
Example floor_ex :
  map (fun x => toString (Math_floor (num x))) ["3.7"; "-3.2"; "0.5"; "99999.99"; "-0.5"]%string
  = map lit ["3"; "-4"; "0"; "99999"; "-1"]%string.
Proof. vm_compute. reflexivity. Qed.

Example tokenize_ex1 :
  map (fun t => (type t, value t)) (tokenize (lit "a->1.5e3 //x"))
  = [ (ident, lit "a"); (punct, lit "->"); (number, lit "1.5e3");
      (whitespace, lit " "); (comment, lit "//x") ].
Proof. vm_compute. reflexivity. Qed.

(** Runs of the passes on a fixed random sequence. *)
Definition draws (l : list string) : World :=
  mkWorld (fun i => num (nth i l "0.5"%string)) 0 0.

Definition triangle : jsstring :=
  lit "fn main(@location(0) uv : vec2<f32>) -> @location(0) vec4<f32> {
    let col = 0.5 + 0.5 * cos(time + uv.xyx + vec3<f32>(0.0, 2.0, 4.0));
    return vec4<f32>(col, 1.0);
}".

Example mutateGeometry_ex :
  option_map (fun r => serialize (fst r))
    (mutateGeometry (tokenize triangle) (num "1.0")
       (draws ["0.25"; "0.1"; "0.9"; "0.3"; "0.0"]%string))
  = Some (lit "fn main(@location(0) uv : vec2<f32>) -> @location(0) vec4<f32> {
    var uv_geo_25000 = f_rot(uv, time * -0.40);;
    let col = 0.5 + 0.5 * cos(time + uv_geo_25000.xyx + vec3<f32>(0.0, 2.0, 4.0));
    return vec4<f32>(col, 1.0);
}").
Proof. vm_compute. reflexivity. Qed.

Example mutateChaos_ex :
  option_map (fun r => serialize (fst r))
    (mutateChaos (tokenize (lit "return vec4<f32>(col, 1.0);")) (num "1.0")
       (draws ["0.45"]%string))
  = Some (lit "return vec4<f32>( (vec4<f32>(col, 1.0)).brg, 1.0 );").
Proof. vm_compute. reflexivity. Qed.

Example mutateNumbers_ex :
  option_map (fun r => serialize (fst r))
    (mutateNumbers (tokenize (lit "2.5 * 0.0001 + 7 - 1234567890123456789012.0"))
       (num "1.0") (draws []))
  = Some (lit "2.500 * 0.0 + 7 - 1.2345678901234568e+21").
Proof. vm_compute. reflexivity. Qed.

Example mutateSwizzle_ex :
  option_map (fun r => serialize (fst r))
    (mutateSwizzle (tokenize (lit "c.rgb + p.xw")) (num "1.0")
       (draws ["0.5"; "0.1"; "0.1"]%string))
  = Some (lit "c.gbr + p.xw").
Proof. vm_compute. reflexivity. Qed.

Example generateScalarExpr_ex :
  option_map (fun r => (fst r, calls (snd r)))
    (generateScalarExpr 3 (num "2") (lit "uv") (draws []))
  = Some (lit "((time * time) * (time * time))", 7).
Proof. vm_compute. reflexivity. Qed.

(** The serializer undoes the lexer. *)
Lemma serialize_tokenize (T : jsstring) : serialize (tokenize T) = T.
Proof.
  unfold tokenize, serialize, join. generalize 0%Z as i.
  intros i. funelim (tokenize_from T i); simp tokenize_from; simpl.
  - reflexivity.
  - rewrite H. apply firstn_skipn.
  - now rewrite H.
Qed.

(* ===================================================================== *)
(** ** Reasoning about runs *)
(* ===================================================================== *)

Lemma fair_same_rng w w' : rng w' = rng w -> fair w -> fair w'.
Proof. unfold fair. intros -> H. exact H. Qed.

Lemma Runs_ret {A} (a : A) (Q : A -> Prop) : Q a -> Runs (ret a) Q.
Proof. intros HQ w _. exists a, w. auto. Qed.

Lemma Runs_bind {A B} (m : M A) (k : A -> M B) (P : A -> Prop) (Q : B -> Prop) :
  Runs m P -> (forall a, P a -> Runs (k a) Q) -> Runs (bind m k) Q.
Proof.
  intros Hm Hk w Hw. destruct (Hm w Hw) as (a & w1 & E1 & R1 & Pa).
  destruct (Hk a Pa w1 (fair_same_rng w w1 R1 Hw)) as (b & w2 & E2 & R2 & Qb).
  exists b, w2. unfold bind. rewrite E1. repeat split; auto. congruence.
Qed.

Lemma Runs_weaken {A} (m : M A) (P Q : A -> Prop) :
  Runs m P -> (forall a, P a -> Q a) -> Runs m Q.
Proof.
  intros Hm HPQ w Hw. destruct (Hm w Hw) as (a & w1 & E1 & R1 & Pa).
  exists a, w1. auto.
Qed.

Lemma Runs_random : Runs random (fun r => unit_draw r = true).
Proof. intros w Hw. eexists _, _. split; [reflexivity|]. split; [reflexivity|]. apply Hw. Qed.

Lemma Runs_tick : Runs tick (fun _ => True).
Proof. intros w Hw. eexists _, _. split; [reflexivity|]. split; [reflexivity|]. exact I. Qed.

Lemma Runs_mapM {A B} (f : A -> M B) (R : A -> B -> Prop) (l : list A) :
  (forall x, In x l -> Runs (f x) (R x)) -> Runs (mapM f l) (Forall2 R l).
Proof.
  induction l as [|x l IH]; intros H; simpl.
  - apply Runs_ret. constructor.
  - eapply Runs_bind; [apply H; now left|]. intros y Hy.
    eapply Runs_bind; [apply IH; intros; apply H; now right|]. intros ys Hys.
    apply Runs_ret. now constructor.
Qed.

(* ===================================================================== *)
(** ** Facts about binary64 arithmetic *)
(* ===================================================================== *)

Module FloatFacts.

Local Open Scope Z_scope.

Lemma digits2_log2 (m : positive) : Zpos (digits2_pos m) = Z.log2 (Zpos m) + 1.
Proof.
  induction m as [m IH|m IH|]; simpl digits2_pos.
  - rewrite Pos2Z.inj_succ, IH. change (Z.pos m~1) with (2 * Z.pos m + 1).
    rewrite Z.log2_succ_double by lia. lia.
  - rewrite Pos2Z.inj_succ, IH. change (Z.pos m~0) with (2 * Z.pos m).
    rewrite Z.log2_double by lia. lia.
  - reflexivity.
Qed.

Lemma digits2_bounds (m : positive) :
  2 ^ (Zpos (digits2_pos m) - 1) <= Zpos m < 2 ^ Zpos (digits2_pos m).
Proof.
  rewrite digits2_log2. replace (Z.log2 (Z.pos m) + 1 - 1) with (Z.log2 (Z.pos m)) by lia.
  replace (Z.log2 (Z.pos m) + 1) with (Z.succ (Z.log2 (Z.pos m))) by lia.
  apply Z.log2_spec. lia.
Qed.

Lemma iter_pos_nat {A} (f : A -> A) p x : iter_pos f p x = Nat.iter (Pos.to_nat p) f x.
Proof.
  revert x. induction p as [p IH|p IH|]; intros x; simpl iter_pos.
  - rewrite !IH. rewrite Pos2Nat.inj_xI.
    replace (S (2 * Pos.to_nat p))%nat with (Pos.to_nat p + S (Pos.to_nat p))%nat by lia.
    rewrite Nat.iter_add. f_equal. now rewrite Nat.iter_succ_r.
  - rewrite !IH. rewrite Pos2Nat.inj_xO.
    replace (2 * Pos.to_nat p)%nat with (Pos.to_nat p + Pos.to_nat p)%nat by lia.
    now rewrite Nat.iter_add.
  - reflexivity.
Qed.

Lemma shr_1_m mrs : 0 <= shr_m mrs -> shr_m (shr_1 mrs) = shr_m mrs / 2.
Proof.
  destruct mrs as [m r s]. simpl. intros Hm.
  rewrite <- Z.div2_div.
  destruct m as [|[q|q|]|q]; simpl; try lia; try reflexivity.
Qed.

Lemma shr_1_r mrs : 0 <= shr_m mrs -> shr_r (shr_1 mrs) = Z.odd (shr_m mrs).
Proof.
  destruct mrs as [m r s]. simpl. intros Hm.
  destruct m as [|[q|q|]|q]; simpl; try lia; try reflexivity.
Qed.

Lemma shr_iter_m k mrs :
  0 <= shr_m mrs -> shr_m (Nat.iter k shr_1 mrs) = shr_m mrs / 2 ^ Z.of_nat k.
Proof.
  intros Hm. induction k as [|k IH].
  - simpl. now rewrite Z.div_1_r.
  - rewrite Nat2Z.inj_succ, Z.pow_succ_r by lia. simpl Nat.iter.
    rewrite shr_1_m; rewrite IH.
    + rewrite Z.mul_comm, <- Z.div_div by lia. reflexivity.
    + apply Z.div_pos; lia.
Qed.

Lemma shr_iter_r k mrs :
  0 <= shr_m mrs ->
  shr_r (Nat.iter (S k) shr_1 mrs) = Z.odd (shr_m mrs / 2 ^ Z.of_nat k).
Proof.
  intros Hm. simpl Nat.iter. rewrite shr_1_r; rewrite shr_iter_m; auto.
  apply Z.div_pos; lia.
Qed.

Definition fx := fexp prec emax.

Lemma shr_pos mrs e p :
  0 <= shr_m mrs -> 0 < p ->
  exists mrs', shr mrs e p = (mrs', e + p)
    /\ shr_m mrs' = shr_m mrs / 2 ^ p
    /\ (shr_r mrs' = true -> Z.odd (shr_m mrs / 2 ^ (p - 1)) = true).
Proof.
  intros Hm Hp. destruct p as [|p|p]; try lia.
  unfold shr. eexists. split; [reflexivity|].
  rewrite iter_pos_nat. split.
  - rewrite shr_iter_m by assumption. now rewrite positive_nat_Z.
  - destruct (Pos.to_nat p) as [|k] eqn:Ek; [lia|].
    rewrite shr_iter_r by assumption.
    replace (Z.pos p - 1) with (Z.of_nat k) by lia. auto.
Qed.

Lemma rne_cases mrs :
  let m1 := round_nearest_even (shr_m mrs) (loc_of_shr_record mrs) in
  m1 = shr_m mrs \/ (m1 = shr_m mrs + 1 /\ shr_r mrs = true).
Proof.
  destruct mrs as [m [|] [|]]; simpl; auto.
  destruct (Z.even m); auto.
Qed.

Lemma round_aux_spec (M : positive) (E : Z) :
  let d := Zpos (digits2_pos M) in
  exists m1 e1 k,
    ((fx (d + E) <= E /\ m1 = Zpos M /\ e1 = E)
     \/ (E < fx (d + E) /\ e1 = fx (d + E)
         /\ (m1 = Zpos M / 2 ^ (e1 - E)
             \/ (m1 = Zpos M / 2 ^ (e1 - E) + 1
                 /\ Z.odd (Zpos M / 2 ^ (e1 - E - 1)) = true))))
    /\ k = Z.max 0 (fx (Zdigits2 m1 + e1) - e1)
    /\ binary_round_aux prec emax false (Zpos M) E loc_Exact
       = match m1 / 2 ^ k with
         | Z0 => S754_zero false
         | Zpos m => if e1 + k <=? emax - prec then S754_finite false m (e1 + k)
                     else S754_infinity false
         | Zneg _ => S754_nan
         end.
Proof.
  intros d. unfold binary_round_aux.
  assert (Stage2 : forall m1 e1, 0 <= m1 ->
    exists k, k = Z.max 0 (fx (Zdigits2 m1 + e1) - e1) /\
      (let '(mrs'', e'') := shr_fexp prec emax m1 e1 loc_Exact in
       match shr_m mrs'' with
       | Z0 => S754_zero false
       | Zpos m => if e'' <=? emax - prec then S754_finite false m e'' else S754_infinity false
       | Zneg _ => S754_nan
       end)
      = match m1 / 2 ^ k with
         | Z0 => S754_zero false
         | Zpos m => if e1 + k <=? emax - prec then S754_finite false m (e1 + k)
                     else S754_infinity false
         | Zneg _ => S754_nan
         end).
  { intros m1 e1 Hm1. eexists. split; [reflexivity|].
    unfold shr_fexp. fold fx. simpl shr_record_of_loc.
    destruct (Z_lt_le_dec 0 (fx (Zdigits2 m1 + e1) - e1)) as [Hp|Hp].
    - destruct (shr_pos {| shr_m := m1; shr_r := false; shr_s := false |} e1 _ Hm1 Hp)
        as (mrs' & -> & Hm' & _).
      rewrite Hm'. simpl shr_m. rewrite Z.max_r by lia.
      replace (e1 + (fx (Zdigits2 m1 + e1) - e1)) with (e1 + (fx (Zdigits2 m1 + e1) - e1)) by lia.
      reflexivity.
    - rewrite Z.max_l by lia. rewrite Z.pow_0_r, Z.div_1_r, Z.add_0_r.
      unfold shr. destruct (fx (Zdigits2 m1 + e1) - e1); try lia; reflexivity. }
  unfold shr_fexp at 1. fold fx. simpl shr_record_of_loc. simpl Zdigits2. fold d.
  destruct (Z_lt_le_dec 0 (fx (d + E) - E)) as [Hp|Hp].
  - destruct (shr_pos {| shr_m := Zpos M; shr_r := false; shr_s := false |} E _ ltac:(simpl; lia) Hp)
      as (mrs' & -> & Hm' & Hr'). simpl shr_m in *.
    pose proof (rne_cases mrs') as Hc. simpl in Hc.
    set (m1 := round_nearest_even (shr_m mrs') (loc_of_shr_record mrs')) in *.
    assert (0 <= Zpos M / 2 ^ (fx (d + E) - E)) by (apply Z.div_pos; lia).
    destruct (Stage2 m1 (E + (fx (d + E) - E)) ltac:(lia)) as (k & Hk & ->).
    exists m1, (fx (d + E)), k.
    replace (E + (fx (d + E) - E)) with (fx (d + E)) in * by lia.
    split; [|split; auto].
    right. split; [lia|]. split; [reflexivity|].
    destruct Hc as [Hc|[Hc Hr]]; [left|right]; rewrite Hc, Hm'; auto.
  - assert (Hs : shr {| shr_m := Zpos M; shr_r := false; shr_s := false |} E (fx (d + E) - E)
                 = ({| shr_m := Zpos M; shr_r := false; shr_s := false |}, E)).
    { unfold shr. destruct (fx (d + E) - E); try lia; reflexivity. }
    rewrite Hs. simpl loc_of_shr_record. simpl round_nearest_even. simpl shr_m.
    destruct (Stage2 (Zpos M) E ltac:(lia)) as (k & Hk & ->).
    exists (Zpos M), E, k. split; [left; repeat split; lia|]. split; auto.
Qed.

Lemma iter_xO_val p k : Zpos (Pos.iter xO p k) = Zpos p * 2 ^ Zpos k.
Proof.
  induction k as [|k IH] using Pos.peano_ind.
  - simpl. lia.
  - rewrite Pos.iter_succ, Pos2Z.inj_succ, Z.pow_succ_r by lia.
    change (Z.pos (Pos.iter xO p k)~0) with (2 * Z.pos (Pos.iter xO p k)). lia.
Qed.

Lemma iter_xO_digits p k :
  Zpos (digits2_pos (Pos.iter xO p k)) = Zpos (digits2_pos p) + Zpos k.
Proof.
  induction k as [|k IH] using Pos.peano_ind.
  - simpl. lia.
  - rewrite Pos.iter_succ. simpl digits2_pos. rewrite !Pos2Z.inj_succ, IH. lia.
Qed.

Lemma fx_eq e : fx e = Z.max (e - 53) (-1074).
Proof. reflexivity. Qed.

(** An integer below 2^53 is a Number, and indexes as itself. *)
Lemma of_Z_exact (p : positive) :
  Zpos p < 2 ^ 53 ->
  exists m e, of_Z (Zpos p) = S754_finite false m e /\ e <= 0
              /\ Zpos m = Zpos p * 2 ^ (- e).
Proof.
  intros Hp. unfold of_Z, binary_normalize, binary_round.
  pose proof (digits2_bounds p) as Hd.
  set (d := Zpos (digits2_pos p)) in *.
  assert (Hd53 : d <= 53).
  { destruct (Z_le_gt_dec d 53); auto.
    assert (2 ^ 53 <= 2 ^ (d - 1)) by (apply Z.pow_le_mono_r; lia). lia. }
  assert (Hd1 : 1 <= d) by (unfold d; lia).
  fold fx. rewrite Z.add_0_r, fx_eq. rewrite Z.max_l by lia.
  assert (Hal : exists mz, shl_align p 0 (d - 53) = (mz, d - 53)
                  /\ Zpos mz = Zpos p * 2 ^ (53 - d)
                  /\ Zpos (digits2_pos mz) = 53).
  { unfold shl_align. rewrite Z.sub_0_r.
    destruct (d - 53) as [|q|q] eqn:Eq; try lia.
    - exists p. replace (53 - d) with 0 by lia. repeat split; try lia.
    - exists (Pos.iter xO p q). split; [reflexivity|].
      rewrite iter_xO_val, iter_xO_digits. fold d.
      replace (53 - d) with (Zpos q) by lia. split; lia. }
  destruct Hal as (mz & -> & Hmz & Hdz).
  destruct (round_aux_spec mz (d - 53)) as (m1 & e1 & k & Hst & Hk & ->).
  rewrite Hdz in Hst. rewrite fx_eq in Hst.
  destruct Hst as [(_ & -> & ->)|(Hlt & _)]; [|lia].
  simpl Zdigits2 in Hk. rewrite Hdz, fx_eq in Hk.
  rewrite Z.max_l in Hk by lia. subst k.
  rewrite Z.pow_0_r, Z.div_1_r, Z.add_0_r.
  replace (d - 53 <=? emax - prec) with true
    by (symmetry; apply Z.leb_le; unfold emax, prec; lia).
  exists mz, (d - 53). split; [reflexivity|]. split; [lia|].
  rewrite Hmz. f_equal. f_equal. lia.
Qed.

Lemma array_index_of_Z (q : Z) :
  0 <= q < 2 ^ 53 -> array_index (of_Z q) = Some (Z.to_nat q).
Proof.
  intros [H0 H1]. destruct q as [|p|p]; try lia.
  - reflexivity.
  - destruct (of_Z_exact p H1) as (m & e & -> & He & Hm).
    unfold array_index, numer, denom.
    rewrite (Z.max_r e 0) by lia. rewrite (Z.max_l (- e) 0) by lia.
    rewrite Z.pow_0_r, Z.mul_1_r, Hm.
    assert (0 < 2 ^ (- e)) by (apply Z.pow_pos_nonneg; lia).
    rewrite Z.mod_mul by lia. rewrite Z.eqb_refl.
    rewrite Z.div_mul by lia. reflexivity.
Qed.

Lemma pow2_pos x : 0 <= x -> 0 < 2 ^ x.
Proof. intros. apply Z.pow_pos_nonneg; lia. Qed.

Lemma pow2_split x y : 0 <= x -> 0 <= y -> 2 ^ (x + y) = 2 ^ x * 2 ^ y.
Proof. intros. apply Z.pow_add_r; lia. Qed.

Lemma pow2_le x y : x <= y -> 2 ^ x <= 2 ^ y.
Proof. intros. apply Z.pow_le_mono_r; lia. Qed.

Lemma pow2_lt_inv x y : 0 <= y -> 2 ^ x < 2 ^ y -> x < y.
Proof. intros Hy H. apply (Z.pow_lt_mono_r_iff 2); lia. Qed.

(** First stage: the rounded mantissa stays below [n * 2^(-e1)]. *)
Lemma stage1_bound (M n a d m1 e1 : Z) :
  1 <= n < 2 ^ 53 -> 53 <= a ->
  2 ^ (d - 1) <= M < 2 ^ d -> 1 <= d ->
  M + n * 2 ^ (a - 53) <= n * 2 ^ a ->
  ((fx (d + - a) <= - a /\ m1 = M /\ e1 = - a)
   \/ (- a < fx (d + - a) /\ e1 = fx (d + - a)
       /\ (m1 = M / 2 ^ (e1 - - a)
           \/ (m1 = M / 2 ^ (e1 - - a) + 1
               /\ Z.odd (M / 2 ^ (e1 - - a - 1)) = true)))) ->
  -1074 <= e1 <= 0 /\ 0 <= m1 < n * 2 ^ (- e1).
Proof.
  intros Hn Ha Hd Hd1 Hc Hst.
  assert (HA : 0 < 2 ^ a) by (apply pow2_pos; lia).
  assert (HC : 0 < 2 ^ (a - 53)) by (apply pow2_pos; lia).
  assert (HM : M < n * 2 ^ a) by nia.
  assert (HdA : d <= 53 + a).
  { assert (2 ^ (d - 1) < 2 ^ (53 + a)).
    { rewrite pow2_split by lia. nia. }
    apply pow2_lt_inv in H; lia. }
  destruct Hst as [(Hfx & -> & ->)|(Hfx & He1 & Hm1)].
  - rewrite fx_eq in Hfx. rewrite Z.opp_involutive. split; [lia|]. split; lia.
  - rewrite fx_eq in He1, Hfx.
    assert (Hb : -1074 <= e1 <= 0) by lia.
    split; [exact Hb|].
    set (b := - e1) in *. set (p := e1 - - a) in *.
    assert (Hp : 0 < p) by (unfold p; lia).
    assert (HB : 0 < 2 ^ b) by (apply pow2_pos; lia).
    assert (HP : 0 < 2 ^ p) by (apply pow2_pos; lia).
    assert (HAB : 2 ^ a = 2 ^ b * 2 ^ p).
    { rewrite <- pow2_split by lia. f_equal. unfold b, p. lia. }
    set (q0 := M / 2 ^ p) in *.
    assert (Hq0 : 0 <= q0) by (apply Z.div_pos; lia).
    assert (Hq0lt : q0 < n * 2 ^ b).
    { apply Z.div_lt_upper_bound; [lia|]. nia. }
    destruct Hm1 as [->|[-> Hodd]]; [lia|].
    split; [lia|].
    destruct (Z_lt_le_dec (q0 + 1) (n * 2 ^ b)) as [|Hge]; [assumption|exfalso].
    assert (Hq0eq : q0 = n * 2 ^ b - 1) by lia.
    (* the round bit: M >= q0 * 2^p + 2^(p-1) *)
    assert (HP1 : 0 < 2 ^ (p - 1)) by (apply pow2_pos; lia).
    assert (HPP : 2 ^ p = 2 * 2 ^ (p - 1)).
    { replace p with (1 + (p - 1)) at 1 by lia. rewrite pow2_split by lia. reflexivity. }
    replace (p - 1) with (p - 1) in Hodd by lia.
    set (h := M / 2 ^ (p - 1)) in *.
    assert (Hh2 : h / 2 = q0).
    { unfold h, q0. rewrite Z.div_div by lia. rewrite HPP. f_equal. lia. }
    assert (Hh : h = 2 * q0 + 1).
    { rewrite <- Hh2. rewrite (Z.div_mod h 2) at 1 by lia.
      rewrite Zmod_odd, Hodd. reflexivity. }
    assert (HMh : h * 2 ^ (p - 1) <= M).
    { unfold h. rewrite Z.mul_comm. apply Z.mul_div_le. lia. }
    (* hence c <= 2^(p-1) *)
    assert (Hcle : n * 2 ^ (a - 53) <= 2 ^ (p - 1)).
    { assert (E1 : h * 2 ^ (p - 1) = 2 * (n * 2 ^ b * 2 ^ (p - 1)) - 2 ^ (p - 1))
        by (rewrite Hh, Hq0eq; ring).
      assert (E2 : n * 2 ^ a = 2 * (n * 2 ^ b * 2 ^ (p - 1)))
        by (rewrite HAB, HPP; ring).
      lia. }
    (* both possible exponents contradict it *)
    assert (Hpb : p - 1 = a - b - 1) by (unfold p, b; lia).
    assert (Hnb : n * 2 ^ (b + 1) <= 2 ^ 53).
    { destruct (Z_le_gt_dec (n * 2 ^ (b + 1)) (2 ^ 53)) as [|Hgt]; [assumption|exfalso].
      assert (0 < 2 ^ (b + 1)) by (apply pow2_pos; lia).
      assert (2 ^ (a - 53) * 2 ^ 53 = 2 ^ a).
      { rewrite <- pow2_split by lia. f_equal. lia. }
      assert (2 ^ (p - 1) * 2 ^ (b + 1) = 2 ^ a).
      { rewrite <- pow2_split by lia. f_equal. lia. }
      nia. }
    destruct (Z.max_spec (d + - a - 53) (-1074)) as [[Hmx Hmax]|[Hmx Hmax]];
      rewrite Hmax in He1.
    + (* e1 = -1074 *)
      assert (2 ^ 54 <= 2 ^ (b + 1)) by (apply pow2_le; unfold b; lia).
      assert (2 ^ 53 < 2 ^ 54) by (apply Z.pow_lt_mono_r; lia).
      nia.
    + (* e1 = d - a - 53 *)
      assert (Hb53 : b + 1 <= 53).
      { destruct (Z_le_gt_dec (b + 1) 53); [assumption|exfalso].
        assert (2 ^ 54 <= 2 ^ (b + 1)) by (apply pow2_le; lia).
        assert (2 ^ 53 < 2 ^ 54) by (apply Z.pow_lt_mono_r; lia).
        nia. }
      set (g := d - a - 1).
      assert (Hg : 0 <= g) by (unfold g, b in *; lia).
      assert (H53 : 2 ^ 53 = 2 ^ (b + 1) * 2 ^ g).
      { rewrite <- pow2_split by lia. f_equal. unfold g, b. lia. }
      assert (0 < 2 ^ (b + 1)) by (apply pow2_pos; lia).
      assert (Hng : n <= 2 ^ g) by nia.
      assert (H2d : 2 ^ (d - 1) = 2 ^ g * 2 ^ a).
      { rewrite <- pow2_split by lia. f_equal. unfold g. lia. }
      nia.
Qed.

(** Second stage: renormalizing keeps the exponent non-positive and the
    integer part unchanged. *)
Lemma stage2_bound (m1 e1 n : Z) :
  1 <= n < 2 ^ 53 -> -1074 <= e1 <= 0 -> 0 <= m1 < n * 2 ^ (- e1) ->
  let k := Z.max 0 (fx (Zdigits2 m1 + e1) - e1) in
  0 <= k /\ e1 + k <= 0 /\ m1 / 2 ^ k / 2 ^ (- (e1 + k)) < n.
Proof.
  intros Hn He Hm k.
  assert (HB : 0 < 2 ^ (- e1)) by (apply pow2_pos; lia).
  assert (Hk0 : 0 <= k) by (unfold k; lia).
  assert (Hke : e1 + k <= 0).
  { unfold k. rewrite fx_eq. destruct m1 as [|p|p]; simpl Zdigits2; try lia.
    pose proof (digits2_bounds p) as Hd.
    set (d := Zpos (digits2_pos p)) in *.
    assert (2 ^ (d - 1) < 2 ^ (53 + - e1)).
    { rewrite pow2_split by lia. nia. }
    apply pow2_lt_inv in H; lia. }
  split; [exact Hk0|]. split; [exact Hke|].
  rewrite Z.div_div by (try apply pow2_pos; lia).
  rewrite <- pow2_split by lia.
  replace (k + - (e1 + k)) with (- e1) by lia.
  apply Z.div_lt_upper_bound; lia.
Qed.

Lemma num_one : num "1" = S754_finite false 4503599627370496 (-52).
Proof. vm_compute. reflexivity. Qed.

(** A valid Number in [0, 1) is a zero or [m * 2^e] with [m < 2^53] and
    [e <= -53]. *)
Lemma unit_draw_inv (r : jsnum) :
  unit_draw r = true ->
  r = S754_zero false
  \/ (exists m e, r = S754_finite false m e /\ Zpos m < 2 ^ 53 /\ e <= -53).
Proof.
  unfold unit_draw. rewrite num_one. intros H.
  apply andb_prop in H as [H Hlt]. apply andb_prop in H as [Hv Hle].
  destruct r as [s|s| |s m e]; try discriminate.
  - left. destruct s; [discriminate|reflexivity].
  - right. destruct s; [discriminate|]. exists m, e. split; [reflexivity|].
    unfold valid_binary, bounded, canonical_mantissa in Hv.
    apply andb_prop in Hv as [Hc _]. apply Z.eqb_eq in Hc.
    fold fx in Hc. rewrite fx_eq in Hc.
    pose proof (digits2_bounds m) as Hd.
    set (d := Zpos (digits2_pos m)) in *.
    assert (Hd53 : d <= 53) by lia.
    assert (Hm : Zpos m < 2 ^ 53).
    { assert (2 ^ d <= 2 ^ 53) by (apply pow2_le; lia). lia. }
    split; [exact Hm|].
    unfold ltb, SFltb, SFcompare in Hlt.
    destruct (Z.compare_spec e (-52)) as [He|He|He]; try discriminate; [|lia].
    subst e. exfalso.
    assert (d = 53) by lia.
    assert (H52 : 2 ^ (d - 1) = 4503599627370496) by (rewrite H; reflexivity).
    set (q := 4503599627370496%positive) in *.
    destruct (Pos.compare_cont Eq m q) eqn:Ec; try discriminate.
    pose proof (proj1 (Pos.compare_lt_iff m q)) as HH. unfold Pos.compare in HH.
    apply HH in Ec. lia.
Qed.

(** [Math.floor(Math.random() * n)] is an integer from [0] to [n - 1]. *)
Lemma floor_unit_Z (r : jsnum) (n : Z) :
  unit_draw r = true -> 1 <= n < 2 ^ 53 ->
  exists q, 0 <= q < n /\ Math_floor (mul r (of_Z n)) = of_Z q.
Proof.
  intros Hr [Hn1 Hn2].
  destruct n as [|pn|pn]; try lia.
  destruct (of_Z_exact pn Hn2) as (mn & en & -> & Hen & Hmn).
  destruct (unit_draw_inv r Hr) as [->|(m & e & -> & Hm & He)].
  - exists 0. split; [lia|reflexivity].
  - unfold mul, SFmul. simpl xorb.
    destruct (round_aux_spec (m * mn) (e + en)) as (m1 & e1 & k & Hst & Hk & ->).
    pose proof (digits2_bounds (m * mn)) as Hd.
    set (d := Zpos (digits2_pos (m * mn))) in *.
    set (a := - (e + en)).
    replace (e + en) with (- a) in Hst by (unfold a; lia).
    assert (Ha : 53 <= a) by (unfold a; lia).
    assert (HT : 0 < 2 ^ (- e - 53)) by (apply pow2_pos; lia).
    assert (HN : 0 < 2 ^ (- en)) by (apply pow2_pos; lia).
    assert (HA : 2 ^ a = 2 ^ 53 * 2 ^ (- e - 53) * 2 ^ (- en)).
    { rewrite <- !pow2_split by lia. f_equal. unfold a. lia. }
    assert (HA53 : 2 ^ (a - 53) = 2 ^ (- e - 53) * 2 ^ (- en)).
    { rewrite <- !pow2_split by lia. f_equal. unfold a. lia. }
    assert (Hc : Zpos (m * mn) + Zpos pn * 2 ^ (a - 53) <= Zpos pn * 2 ^ a).
    { rewrite Pos2Z.inj_mul, Hmn, HA, HA53.
      assert (Zpos m + 2 ^ (- e - 53) <= 2 ^ 53 * 2 ^ (- e - 53)) by nia.
      assert (0 < Zpos pn * 2 ^ (- en)) by nia.
      nia. }
    destruct (stage1_bound (Zpos (m * mn)) (Zpos pn) a d m1 e1
                ltac:(lia) Ha Hd ltac:(unfold d; lia) Hc Hst) as (He1 & Hm1).
    pose proof (stage2_bound m1 e1 (Zpos pn) ltac:(lia) He1 Hm1) as Hs2.
    cbv zeta in Hs2. rewrite <- Hk in Hs2. destruct Hs2 as (Hk0 & Hke & Hfl).
    assert (HK : 0 < 2 ^ k) by (apply pow2_pos; lia).
    assert (Hq : 0 <= m1 / 2 ^ k) by (apply Z.div_pos; lia).
    destruct (m1 / 2 ^ k) as [|m2|m2] eqn:Em2; try lia.
    + exists 0. split; [lia|reflexivity].
    + replace (e1 + k <=? emax - prec) with true
        by (symmetry; apply Z.leb_le; unfold emax, prec; lia).
      unfold Math_floor, floorZ, numer, denom.
      rewrite (Z.max_r (e1 + k) 0) by lia. rewrite (Z.max_l (- (e1 + k)) 0) by lia.
      rewrite Z.pow_0_r, Z.mul_1_r.
      assert (0 < 2 ^ (- (e1 + k))) by (apply pow2_pos; lia).
      assert (0 <= Zpos m2 / 2 ^ (- (e1 + k))) by (apply Z.div_pos; lia).
      eexists. split; [|reflexivity]. lia.
Qed.

Lemma floor_unit (r : jsnum) (n : nat) :
  unit_draw r = true -> (1 <= n)%nat -> Z.of_nat n < 2 ^ 53 ->
  exists q, 0 <= q < Z.of_nat n /\ Math_floor (mul r (of_nat n)) = of_Z q.
Proof. intros Hr Hn1 Hn2. apply floor_unit_Z; [exact Hr|lia]. Qed.

(** The index computed by [Math.floor(Math.random() * n)] is inside an
    array of [n] elements. *)
Lemma pick_lt (r : jsnum) (n : nat) :
  unit_draw r = true -> (1 <= n)%nat -> Z.of_nat n < 2 ^ 53 ->
  exists k, array_index (Math_floor (mul r (of_nat n))) = Some k /\ (k < n)%nat.
Proof.
  intros Hr Hn1 Hn2.
  destruct (floor_unit r n Hr Hn1 Hn2) as (q & Hq & ->).
  rewrite array_index_of_Z by lia. eexists. split; [reflexivity|lia].
Qed.

Lemma digits2_unique (q : positive) (a : Z) :
  2 ^ (a - 1) <= Zpos q < 2 ^ a -> Zpos (digits2_pos q) = a.
Proof.
  intros [Hlo Hhi]. pose proof (digits2_bounds q) as [Dlo Dhi].
  set (d := Zpos (digits2_pos q)) in *.
  assert (0 < a).
  { destruct (Z_lt_le_dec 0 a); auto. rewrite Z.pow_neg_r in Hlo by lia.
    destruct (Z.eq_dec a 0); [subst; simpl in Hhi; lia|]. rewrite Z.pow_neg_r in Hhi by lia. lia. }
  assert (d - 1 < a) by (apply pow2_lt_inv; lia).
  assert (a - 1 < d) by (apply pow2_lt_inv; [unfold d|]; lia).
  lia.
Qed.

(** The form of an integer below 2^53 as a Number. *)
Lemma of_Z_canon (p : positive) :
  Zpos p < 2 ^ 53 ->
  let d := Zpos (digits2_pos p) in
  exists m, of_Z (Zpos p) = S754_finite false m (d - 53)
            /\ Zpos m = Zpos p * 2 ^ (53 - d).
Proof.
  intros Hp d. unfold of_Z, binary_normalize, binary_round.
  pose proof (digits2_bounds p) as Hd. fold d in Hd.
  assert (Hd53 : d <= 53).
  { destruct (Z_le_gt_dec d 53); auto.
    assert (2 ^ 53 <= 2 ^ (d - 1)) by (apply Z.pow_le_mono_r; lia). lia. }
  assert (Hd1 : 1 <= d) by (unfold d; lia).
  fold fx. fold d. rewrite Z.add_0_r, fx_eq. rewrite Z.max_l by lia.
  assert (Hal : exists mz, shl_align p 0 (d - 53) = (mz, d - 53)
                  /\ Zpos mz = Zpos p * 2 ^ (53 - d)
                  /\ Zpos (digits2_pos mz) = 53).
  { unfold shl_align. rewrite Z.sub_0_r.
    destruct (d - 53) as [|q|q] eqn:Eq; try lia.
    - exists p. replace (53 - d) with 0 by lia. repeat split; try lia.
    - exists (Pos.iter xO p q). split; [reflexivity|].
      rewrite iter_xO_val, iter_xO_digits. fold d.
      replace (53 - d) with (Zpos q) by lia. split; lia. }
  destruct Hal as (mz & -> & Hmz & Hdz).
  destruct (round_aux_spec mz (d - 53)) as (m1 & e1 & k & Hst & Hk & ->).
  rewrite Hdz in Hst. rewrite fx_eq in Hst.
  destruct Hst as [(_ & -> & ->)|(Hlt & _)]; [|lia].
  simpl Zdigits2 in Hk. rewrite Hdz, fx_eq in Hk.
  rewrite Z.max_l in Hk by lia. subst k.
  rewrite Z.pow_0_r, Z.div_1_r, Z.add_0_r.
  replace (d - 53 <=? emax - prec) with true
    by (symmetry; apply Z.leb_le; unfold emax, prec; lia).
  exists mz. split; [reflexivity|]. exact Hmz.
Qed.

(** Rounding [p * 2^52] at exponent -52 gives the Number of [p]. *)
Lemma normalize_shifted (p q : positive) :
  Zpos p < 2 ^ 53 -> Zpos q = Zpos p * 2 ^ 52 ->
  binary_normalize prec emax (Zpos q) (-52) false = of_Z (Zpos p).
Proof.
  intros Hp Hq.
  destruct (of_Z_canon p Hp) as (m & -> & Hm).
  pose proof (digits2_bounds p) as Hd.
  set (d := Zpos (digits2_pos p)) in *.
  assert (Hd1 : 1 <= d) by (unfold d; lia).
  assert (Hd53 : d <= 53).
  { destruct (Z_le_gt_dec d 53); auto.
    assert (2 ^ 53 <= 2 ^ (d - 1)) by (apply Z.pow_le_mono_r; lia). lia. }
  assert (Hdq : Zpos (digits2_pos q) = d + 52).
  { apply digits2_unique. rewrite Hq.
    replace (d + 52 - 1) with ((d - 1) + 52) by lia.
    rewrite !pow2_split by lia. nia. }
  assert (Hdm : Zpos (digits2_pos m) = 53).
  { apply digits2_unique. rewrite Hm.
    assert (E52 : 2 ^ (53 - 1) = 2 ^ (d - 1) * 2 ^ (53 - d))
      by (rewrite <- pow2_split by lia; f_equal; lia).
    assert (E53 : 2 ^ 53 = 2 ^ d * 2 ^ (53 - d))
      by (rewrite <- pow2_split by lia; f_equal; lia).
    rewrite E52, E53.
    assert (0 < 2 ^ (53 - d)) by (apply pow2_pos; lia). nia. }
  unfold binary_normalize, binary_round. fold fx.
  rewrite Hdq. replace (d + 52 + -52) with d by lia.
  rewrite fx_eq, Z.max_l by lia.
  assert (Hal : shl_align q (-52) (d - 53) = (q, -52)).
  { unfold shl_align. destruct (d - 53 - -52) eqn:E; try reflexivity; lia. }
  rewrite Hal.
  destruct (round_aux_spec q (-52)) as (m1 & e1 & k & Hst & Hk & ->).
  rewrite Hdq in Hst. replace (d + 52 + -52) with d in Hst by lia.
  rewrite fx_eq, Z.max_l in Hst by lia.
  assert (Hm1 : m1 = Zpos m /\ e1 = d - 53).
  { destruct Hst as [(Hle & -> & ->)|(Hlt & -> & Hc)].
    - assert (d = 1) by lia. split; [|lia].
      rewrite Hq, Hm. f_equal. f_equal. lia.
    - split; [|reflexivity].
      assert (Hdiv : Zpos q / 2 ^ (d - 53 - -52) = Zpos m).
      { rewrite Hq, Hm. replace (d - 53 - -52) with (d - 1) by lia.
        replace 52 with ((53 - d) + (d - 1)) at 1 by lia.
        rewrite pow2_split by lia. rewrite Z.mul_assoc.
        apply Z.div_mul. assert (0 < 2 ^ (d - 1)) by (apply pow2_pos; lia). lia. }
      destruct Hc as [->|[_ Hodd]]; [exact Hdiv|].
      exfalso. rewrite Hq in Hodd.
      replace (d - 53 - -52 - 1) with (d - 2) in Hodd by lia.
      replace 52 with ((54 - d) + (d - 2)) in Hodd at 1 by lia.
      rewrite pow2_split in Hodd by lia. rewrite Z.mul_assoc in Hodd.
      rewrite Z.div_mul in Hodd
        by (assert (0 < 2 ^ (d - 2)) by (apply pow2_pos; lia); lia).
      replace (54 - d) with (Z.succ (53 - d)) in Hodd by lia.
      rewrite Z.pow_succ_r in Hodd by lia.
      rewrite Z.odd_mul, Z.odd_mul in Hodd. simpl Z.odd in Hodd.
      rewrite andb_false_r in Hodd. simpl in Hodd. discriminate. }
  destruct Hm1 as [-> ->].
  simpl Zdigits2 in Hk. rewrite Hdm, fx_eq in Hk.
  rewrite Z.max_l in Hk by lia. subst k.
  rewrite Z.pow_0_r, Z.div_1_r, Z.add_0_r.
  replace (d - 53 <=? emax - prec) with true
    by (symmetry; apply Z.leb_le; unfold emax, prec; lia).
  reflexivity.
Qed.

(** [n - 1] is exact on the integers from 1 to 2^53. *)
Lemma sub_one_of_Z (n : Z) :
  1 <= n <= 2 ^ 53 -> sub (of_Z n) (num "1") = of_Z (n - 1).
Proof.
  intros [H1 H2].
  destruct (Z.eq_dec n (2 ^ 53)) as [->|Hne]; [vm_compute; reflexivity|].
  destruct n as [|p|p]; try lia.
  assert (Hp : Zpos p < 2 ^ 53) by lia.
  destruct (of_Z_canon p Hp) as (m & -> & Hm).
  pose proof (digits2_bounds p) as Hd.
  set (d := Zpos (digits2_pos p)) in *.
  assert (Hd1 : 1 <= d) by (unfold d; lia).
  assert (Hd53 : d <= 53).
  { destruct (Z_le_gt_dec d 53); auto.
    assert (2 ^ 53 <= 2 ^ (d - 1)) by (apply Z.pow_le_mono_r; lia). lia. }
  rewrite num_one. unfold sub, SFsub.
  rewrite Z.min_r by lia.
  assert (Hx : Zpos (fst (shl_align m (d - 53) (-52))) = Zpos p * 2 ^ 52).
  { unfold shl_align. destruct (-52 - (d - 53)) as [|k|k] eqn:E; simpl fst.
    - rewrite Hm. f_equal. f_equal. lia.
    - lia.
    - rewrite iter_xO_val, Hm. rewrite <- Z.mul_assoc, <- pow2_split by lia.
      f_equal. f_equal. lia. }
  assert (Hy : Zpos (fst (shl_align 4503599627370496 (-52) (-52))) = 2 ^ 52)
    by reflexivity.
  unfold cond_Zopp. rewrite Hx, Hy.
  destruct (Z.eq_dec (Zpos p) 1) as [E1|E1].
  - rewrite E1. reflexivity.
  - destruct (Zpos p * 2 ^ 52 - 2 ^ 52) as [|q|q] eqn:Eq; try lia.
    destruct (Zpos p - 1) as [|p'|p'] eqn:Ep; try lia.
    apply normalize_shifted; lia.
Qed.

Lemma round_aux_sign (M : Z) (E : Z) l :
  binary_round_aux prec emax true M E l
  = SFopp (binary_round_aux prec emax false M E l).
Proof.
  unfold binary_round_aux.
  destruct (shr_fexp prec emax M E l) as [mrs' e'].
  destruct (shr_fexp prec emax _ e' loc_Exact) as [mrs'' e''].
  destruct (shr_m mrs''); try reflexivity.
  destruct (e'' <=? emax - prec); reflexivity.
Qed.

(** An integer that is at most 0 passes the test [depth <= 0]. *)
Lemma leb_of_Z_nonpos (n : Z) : n <= 0 -> leb (of_Z n) (num "0") = true.
Proof.
  intros Hn. destruct n as [|p|p]; try lia; [reflexivity|].
  unfold of_Z, binary_normalize, binary_round.
  destruct (shl_align p 0 _) as [mz ez].
  rewrite round_aux_sign.
  destruct (round_aux_spec mz ez) as (m1 & e1 & k & Hst & Hk & ->).
  assert (Hm1 : 0 <= m1).
  { destruct Hst as [(_ & -> & _)|(Hlt & He1 & [->|[-> _]])]; try lia.
    - apply Z.div_pos; [lia|]. apply Z.pow_pos_nonneg; lia.
    - assert (0 <= Zpos mz / 2 ^ (e1 - ez)); [|lia].
      apply Z.div_pos; [lia|]. apply Z.pow_pos_nonneg; lia. }
  assert (Hq : 0 <= m1 / 2 ^ k).
  { apply Z.div_pos; [lia|]. apply Z.pow_pos_nonneg; lia. }
  destruct (m1 / 2 ^ k); try lia; [reflexivity|].
  destruct (e1 + k <=? emax - prec); reflexivity.
Qed.

End FloatFacts.

(* ===================================================================== *)
(** ** Facts about arrays *)
(* ===================================================================== *)

Lemma length_set_nth {A} (l : list A) i x : length (set_nth l i x) = length l.
Proof.
  revert i. induction l as [|h t IH]; intros [|i]; simpl; auto.
Qed.

Lemma nth_error_set_nth {A} (l : list A) i x n :
  nth_error (set_nth l i x) n
  = if (n =? i) && (i <? length l) then Some x else nth_error l n.
Proof.
  revert i n. induction l as [|h t IH]; intros [|i] [|n]; simpl;
    rewrite ?andb_false_r; auto.
Qed.

(** Exchanging two elements of an array permutes it. *)
Lemma swap_Permutation {A} (l : list A) i j ai aj :
  nth_error l i = Some ai -> nth_error l j = Some aj ->
  Permutation l (set_nth (set_nth l i aj) j ai).
Proof.
  intros Hi Hj.
  assert (Li : i < length l) by (apply nth_error_Some; congruence).
  assert (Lj : j < length l) by (apply nth_error_Some; congruence).
  apply Permutation_nth_error. split.
  - now rewrite !length_set_nth.
  - exists (fun n => if n =? i then j else if n =? j then i else n). split.
    + intros a b. 
      destruct (Nat.eqb_spec a i), (Nat.eqb_spec a j), (Nat.eqb_spec b i),
        (Nat.eqb_spec b j); lia.
    + intros n. rewrite !nth_error_set_nth, !length_set_nth.
      apply Nat.ltb_lt in Li, Lj. rewrite Li, Lj, !andb_true_r.
      destruct (Nat.eqb_spec n j) as [->|Hnj].
      * destruct (Nat.eqb_spec j i) as [->|]; congruence.
      * destruct (Nat.eqb_spec n i) as [->|]; congruence.
Qed.

(* ===================================================================== *)
(** ** Runs of the random primitives *)
(* ===================================================================== *)

Lemma Runs_getRandomItem {T} (arr : list T) :
  1 <= length arr -> (Z.of_nat (length arr) < 2 ^ 53)%Z ->
  Runs (getRandomItem arr) (fun x => In x arr).
Proof.
  intros H1 H2. unfold getRandomItem.
  eapply Runs_bind; [apply Runs_random|]. intros r Hr.
  destruct (FloatFacts.pick_lt r (length arr) Hr H1 H2) as (k & -> & Hk).
  destruct (nth_error arr k) as [x|] eqn:Ex.
  - apply Runs_ret. eapply nth_error_In; eauto.
  - apply nth_error_None in Ex. lia.
Qed.

Lemma Runs_randFloat a b : Runs (randFloat a b) (fun _ => True).
Proof.
  unfold randFloat. eapply Runs_bind; [apply Runs_random|].
  intros; now apply Runs_ret.
Qed.

Lemma shuffle_loop_S i arr :
  shuffle_loop (S i) arr
  = (r <- random ;;
     match array_index (Math_floor (mul r (of_nat (S i + 1)))) with
     | Some j =>
         match nth_error arr (S i), nth_error arr j with
         | Some ai, Some aj => shuffle_loop i (set_nth (set_nth arr (S i) aj) j ai)
         | _, _ => fail
         end
     | None => fail
     end).
Proof. reflexivity. Qed.

Lemma Runs_shuffle_loop i arr :
  i < length arr -> (Z.of_nat (length arr) < 2 ^ 53)%Z ->
  Runs (shuffle_loop i arr) (fun s => Permutation arr s).
Proof.
  revert arr. induction i as [|i IH]; intros arr Hi Hlen.
  - apply Runs_ret. apply Permutation_refl.
  - rewrite shuffle_loop_S.
    eapply Runs_bind; [apply Runs_random|]. intros r Hr.
    destruct (FloatFacts.pick_lt r (S i + 1) Hr ltac:(lia) ltac:(lia)) as (j & -> & Hj).
    destruct (nth_error arr (S i)) as [ai|] eqn:Eai;
      [|apply nth_error_None in Eai; lia].
    destruct (nth_error arr j) as [aj|] eqn:Eaj;
      [|apply nth_error_None in Eaj; lia].
    eapply Runs_weaken.
    + apply IH; rewrite !length_set_nth; lia.
    + intros s Hs. eapply Permutation_trans; [|exact Hs].
      now apply swap_Permutation.
Qed.

Lemma Runs_shuffleString str :
  (Z.of_nat (length str) < 2 ^ 53)%Z ->
  Runs (shuffleString str) (fun s => Permutation str s).
Proof.
  intros Hlen. unfold shuffleString. destruct str as [|x str].
  - simpl. apply Runs_ret. constructor.
  - apply Runs_shuffle_loop; simpl in *; lia.
Qed.

(* ===================================================================== *)
(** ** Frame: what the token-wise passes leave alone *)
(* ===================================================================== *)

Lemma Frame_refl tokens : Frame tokens tokens.
Proof. induction tokens; constructor; auto. split; reflexivity. Qed.

Lemma Frame_trans a b d : Frame a b -> Frame b d -> Frame a d.
Proof.
  intros H. revert d. induction H as [|x y l l' [H1 H2] _ IH]; intros d Hd; inversion Hd; subst.
  - constructor.
  - constructor; [|now apply IH].
    destruct H3 as [H3 H4]. split; congruence.
Qed.

Lemma Frame_set_nth cur j t v :
  nth_error cur j = Some t -> Frame cur (set_nth cur j (with_value t v)).
Proof.
  revert j. induction cur as [|h l IH]; intros [|j]; simpl; try discriminate.
  - intros [= ->]. constructor; [split; reflexivity|apply Frame_refl].
  - intros H. constructor; [split; reflexivity|now apply IH].
Qed.

Lemma Frame_length a b : Frame a b -> length b = length a.
Proof. intros H. symmetry. eapply Forall2_length; eauto. Qed.

(** A loop whose body keeps an invariant keeps it. *)
Lemma Runs_for_each_index body (Inv : nat -> list Token -> Prop) n :
  forall i0 cur,
  (forall cur i, i0 <= i < i0 + n -> Inv i cur -> Runs (body cur i) (Inv (S i))) ->
  Inv i0 cur -> Runs (for_each_index body n i0 cur) (Inv (i0 + n)).
Proof.
  induction n as [|n IH]; intros i0 cur Hbody Hinv; simpl.
  - apply Runs_ret. now rewrite Nat.add_0_r.
  - eapply Runs_bind; [apply Hbody; [lia|exact Hinv]|]. intros cur' Hcur'.
    replace (i0 + S n) with (S i0 + n) by lia. apply IH; [|exact Hcur'].
    intros c i Hi. apply Hbody. lia.
Qed.

Lemma Forall2_of_nth_error {A B} (R : A -> B -> Prop) l l' :
  length l = length l' ->
  (forall i x y, nth_error l i = Some x -> nth_error l' i = Some y -> R x y) ->
  Forall2 R l l'.
Proof.
  revert l'. induction l as [|x l IH]; intros [|y l'] Hlen H; try discriminate.
  - constructor.
  - constructor.
    + apply (H 0); reflexivity.
    + apply IH; [simpl in Hlen; lia|]. intros i. apply (H (S i)).
Qed.

Lemma Forall2_eq_eq {A} (l l' : list A) : Forall2 eq l l' -> l' = l.
Proof. induction 1; congruence. Qed.

Lemma swizzled_Frame tokens out : swizzled tokens out -> Frame tokens out.
Proof.
  intros [Hlen H]. apply Forall2_of_nth_error; [congruence|].
  intros i t t' Ht Ht'. destruct (H i t' Ht') as [E|(i0 & t0 & p & _ & _ & E & _ & ->)].
  - rewrite Ht in E. injection E as <-. split; reflexivity.
  - rewrite Ht in E. injection E as <-. split; reflexivity.
Qed.

Lemma swizzled_unchanged tokens out :
  swizzled tokens out ->
  (forall i, i < length tokens - 1 -> swizzle_site tokens i = false) ->
  out = tokens.
Proof.
  intros [Hlen H] Hno. apply nth_error_ext. intros i.
  destruct (nth_error out i) as [t'|] eqn:E.
  - destruct (H i t' E) as [E'|(i0 & t0 & p & -> & Hs & Ht & _)]; [congruence|].
    rewrite Hno in Hs; [discriminate|].
    assert (S i0 < length tokens) by (apply nth_error_Some; congruence). lia.
  - symmetry. apply nth_error_None. apply nth_error_None in E. lia.
Qed.

Section FramePasses.

Variable intensity : jsnum.

Lemma Runs_mutateNumbers_token t :
  Runs (mutateNumbers_token intensity t)
       (fun t' => same_frame t t' /\ (float_literal t = false -> t' = t)).
Proof.
  unfold mutateNumbers_token, float_literal.
  destruct (_ && _); [|apply Runs_ret; repeat split].
  eapply Runs_bind; [apply Runs_random|]. intros r _.
  destruct (ltb r intensity); [|apply Runs_ret; repeat split].
  destruct (negb _); [|apply Runs_ret; repeat split].
  eapply Runs_bind; [apply Runs_random|]. intros r1 _.
  eapply Runs_bind; [apply Runs_random|]. intros r2 _.
  apply Runs_ret; repeat split. discriminate.
Qed.

Lemma Runs_mutateOperators_token t :
  Runs (mutateOperators_token intensity t)
       (fun t' => same_frame t t' /\ (operator_token t = false -> t' = t)).
Proof.
  unfold mutateOperators_token, operator_token.
  destruct (_ && _); [|apply Runs_ret; repeat split].
  eapply Runs_bind; [apply Runs_random|]. intros r _.
  destruct (ltb r intensity); [|apply Runs_ret; repeat split].
  eapply Runs_bind; [apply Runs_getRandomItem; simpl; lia|]. intros v _.
  apply Runs_ret; repeat split. discriminate.
Qed.

Lemma Runs_mutateBuiltins_token t :
  Runs (mutateBuiltins_token intensity t)
       (fun t' => same_frame t t' /\ (builtin_token t = false -> t' = t)).
Proof.
  unfold mutateBuiltins_token, builtin_token.
  destruct (_ && _); [|apply Runs_ret; repeat split].
  eapply Runs_bind; [apply Runs_random|]. intros r _.
  destruct (ltb r intensity); [|apply Runs_ret; repeat split].
  eapply Runs_bind; [apply Runs_getRandomItem; simpl; lia|]. intros v _.
  apply Runs_ret; repeat split. discriminate.
Qed.

(** A pass that maps a token function over the array. *)
Lemma Runs_map_pass (f : Token -> M Token) (sel : Token -> bool) tokens :
  (forall t, Runs (f t) (fun t' => same_frame t t' /\ (sel t = false -> t' = t))) ->
  Runs (mapM f tokens)
       (fun out => Frame tokens out
                   /\ ((forall t, In t tokens -> sel t = false) -> out = tokens)).
Proof.
  intros Hf. eapply Runs_weaken.
  - apply Runs_mapM with
      (R := fun t t' => same_frame t t' /\ (sel t = false -> t' = t)).
    intros t _. apply Hf.
  - intros out H. split.
    + eapply Forall2_impl; [|exact H]. now intros a b [Hab _].
    + intros Hsel. apply Forall2_eq_eq.
      clear Hf. induction H as [|x y l l' [_ Hxy] _ IH]; constructor.
      * symmetry. apply Hxy. apply Hsel. now left.
      * apply IH. intros t Ht. apply Hsel. now right.
Qed.

Lemma Runs_color_args tokens n : forall j balance cur,
  Frame tokens cur ->
  Runs (color_args intensity n j balance cur)
       (fun out => Frame tokens out /\ (nofloat cur -> out = cur)).
Proof.
  induction n as [|n IH]; intros j balance cur Hf; cbn [color_args].
  - now apply Runs_ret.
  - destruct (nth_error cur j) as [t|] eqn:Et; [|now apply Runs_ret].
    destruct (0 <? balance)%Z; [|now apply Runs_ret].
    eapply Runs_bind with (P := fun c => Frame tokens c /\ (nofloat cur -> c = cur)).
    + destruct (_ && TokenType_eqb (type t) number && _) eqn:Eb; [|now apply Runs_ret].
      eapply Runs_bind; [apply Runs_random|]. intros r _.
      destruct (ltb r intensity); [|now apply Runs_ret].
      eapply Runs_bind; [apply Runs_random|]. intros r' _.
      apply Runs_ret. split.
      * eapply Frame_trans; [exact Hf|]. now apply Frame_set_nth.
      * intros Hno. apply nth_error_In in Et. apply Hno in Et.
        unfold float_literal in Et.
        rewrite <- andb_assoc in Eb. apply andb_prop in Eb as [_ Eb]. congruence.
    + intros c [Hc Hcc]. eapply Runs_weaken; [apply IH; exact Hc|].
      intros out [Ho Hoo]. split; [exact Ho|].
      intros Hno. specialize (Hcc Hno). subst c. now apply Hoo.
Qed.

Lemma Runs_color_at tokens cur i :
  Frame tokens cur ->
  Runs (color_at intensity cur i)
       (fun out => Frame tokens out /\ (nofloat cur -> out = cur)).
Proof.
  intros Hf. unfold color_at.
  destruct (_ && _); [|now apply Runs_ret].
  match goal with |- context [if ?b then color_args _ _ _ _ _ else _] => destruct b end;
    [|now apply Runs_ret].
  now apply Runs_color_args.
Qed.

Lemma Runs_mutateColor tokens :
  Runs (mutateColor tokens intensity)
       (fun out => Frame tokens out /\ (nofloat tokens -> out = tokens)).
Proof.
  unfold mutateColor.
  apply (Runs_for_each_index (color_at intensity)
           (fun _ cur => Frame tokens cur /\ (nofloat tokens -> cur = tokens))).
  - intros cur i _ [Hf Hc]. eapply Runs_weaken; [apply Runs_color_at; exact Hf|].
    intros out [Ho Hoo]. split; [exact Ho|].
    intros Hno. specialize (Hc Hno). subst cur. now apply Hoo.
  - split; [apply Frame_refl|reflexivity].
Qed.

Lemma swizzle_re_length s : swizzle_re s = true -> length s <= 4.
Proof.
  unfold swizzle_re. intros H. apply andb_prop in H as [H _].
  apply andb_prop in H as [_ H]. now apply Nat.leb_le.
Qed.

(** The invariant of the Swizzle loop before iteration [i]: the array is
    the original one from index [i + 1] on, and swizzled before. *)
Definition swizzle_inv (tokens : list Token) (i : nat) (cur : list Token) : Prop :=
  swizzled tokens cur
  /\ forall n, i < n -> nth_error cur n = nth_error tokens n.

Lemma Runs_swizzle_at tokens cur i :
  i + 1 < length tokens ->
  swizzle_inv tokens i cur ->
  Runs (swizzle_at intensity cur i) (swizzle_inv tokens (S i)).
Proof.
  intros Hi [[Hlen Hsw] Hrest]. unfold swizzle_at.
  assert (Hkeep : swizzle_inv tokens (S i) cur).
  { split; [split; assumption|]. intros n Hn. apply Hrest. lia. }
  destruct (value_is cur i (lit ".") && type_is cur i punct) eqn:Edot;
    [|now apply Runs_ret].
  rewrite (Hrest (i + 1)) by lia.
  destruct (nth_error tokens (i + 1)) as [next|] eqn:En;
    [|apply nth_error_None in En; lia].
  destruct (TokenType_eqb (type next) ident && swizzle_re (value next)) eqn:Eb;
    [|now apply Runs_ret].
  (* the token at [i] is an original one, since it is a punctuation *)
  assert (Hsite : swizzle_site tokens i = true).
  { unfold swizzle_site. rewrite En, Eb, andb_true_r.
    unfold value_is, type_is in *.
    destruct (nth_error cur i) as [ti|] eqn:Eti; [|discriminate].
    destruct (Hsw i ti Eti) as [E|(i0 & t0 & p & Hi0 & Hs0 & E & _ & ->)].
    - now rewrite E.
    - exfalso. unfold swizzle_site in Hs0.
      replace (i0 + 1) with i in Hs0 by lia. rewrite E in Hs0.
      apply andb_prop in Hs0 as [_ Hs0]. apply andb_prop in Hs0 as [Hid _].
      apply andb_prop in Edot as [_ Hp]. simpl in Hp.
      destruct (type t0); discriminate. }
  pose proof Eb as Eb'. apply andb_prop in Eb' as [_ Hre].
  apply swizzle_re_length in Hre.
  eapply Runs_bind; [apply Runs_random|]. intros r _.
  destruct (ltb r intensity); [|now apply Runs_ret].
  eapply Runs_bind; [apply Runs_shuffleString; lia|]. intros s Hs.
  apply Runs_ret. split; [split|].
  - now rewrite length_set_nth.
  - intros n t'. rewrite nth_error_set_nth.
    destruct ((n =? i + 1) && (i + 1 <? length cur)) eqn:En1.
    + intros [= <-]. apply andb_prop in En1 as [En1 _]. apply Nat.eqb_eq in En1.
      subst n. right. exists i, next, s. rewrite Nat.add_1_r in *. auto 6.
    + apply Hsw.
  - intros n Hn. rewrite nth_error_set_nth.
    replace (n =? i + 1) with false by (symmetry; apply Nat.eqb_neq; lia).
    apply Hrest. lia.
Qed.

Lemma Runs_mutateSwizzle tokens :
  Runs (mutateSwizzle tokens intensity) (swizzled tokens).
Proof.
  unfold mutateSwizzle. eapply Runs_weaken.
  - apply (Runs_for_each_index (swizzle_at intensity) (swizzle_inv tokens)).
    + intros cur i Hi Hinv. apply Runs_swizzle_at; [lia|exact Hinv].
    + split; [split; [reflexivity|]|reflexivity]. intros i t' H. now left.
  - intros out [H _]. exact H.
Qed.

End FramePasses.

(* ===================================================================== *)
(** ** The expression synthesizer ends, within a number of calls *)
(* ===================================================================== *)

Lemma generateScalarExpr_unfold fuel depth uvName :
  generateScalarExpr (S fuel) depth uvName
  = tick ;;;
    if leb depth (num "0") then terminal uvName
    else r0 <- random ;;
         if ltb r0 (num "0.15") then terminal uvName
         else nonterminal (generateScalarExpr fuel (sub depth (num "1")) uvName).
Proof. reflexivity. Qed.

Lemma nests_within_unfold n depth :
  nests_within (S n) depth
  = leb depth (num "0") || nests_within n (sub depth (num "1")).
Proof. reflexivity. Qed.

(** From an integer depth up to 2^53 the calls nest [depth + 1] deep at
    most, and one deep from a depth that is at most 0. *)
Lemma nests_within_of_Z (n : Z) :
  (n <= 2 ^ 53)%Z -> nests_within (Z.to_nat n + 1) (of_Z n) = true.
Proof.
  remember (Z.to_nat n) as k eqn:Ek. revert n Ek.
  induction k as [|k IH]; intros n Ek Hn.
  - change (0 + 1) with 1. rewrite nests_within_unfold.
    rewrite FloatFacts.leb_of_Z_nonpos by lia. reflexivity.
  - change (S k + 1) with (S (k + 1)). rewrite nests_within_unfold.
    rewrite FloatFacts.sub_one_of_Z by lia.
    rewrite (IH (n - 1)%Z) by lia. apply orb_true_r.
Qed.

(** A nesting that is not used up can be allowed more: the result is the
    same, in every world. *)
Lemma generateScalarExpr_fuel fuel k depth uvName :
  nests_within fuel depth = true ->
  generateScalarExpr (fuel + k) depth uvName = generateScalarExpr fuel depth uvName.
Proof.
  revert depth. induction fuel as [|fuel IH]; intros depth H; [discriminate|].
  change (S fuel + k) with (S (fuel + k)).
  rewrite !generateScalarExpr_unfold. rewrite nests_within_unfold in H.
  destruct (leb depth (num "0")); [reflexivity|].
  rewrite (IH _ H). reflexivity.
Qed.

Lemma gene_nesting_exact k uvName :
  generateScalarExpr (5 + k) (num "4") uvName = generateScalarExpr 5 (num "4") uvName
  /\ generateScalarExpr (4 + k) (num "3") uvName = generateScalarExpr 4 (num "3") uvName.
Proof. split; apply generateScalarExpr_fuel; vm_compute; reflexivity. Qed.

Lemma Runs_terminal uvName : Runs (terminal uvName) (fun _ => True).
Proof.
  unfold terminal. eapply Runs_bind; [apply Runs_randFloat|]. intros x _.
  eapply Runs_weaken; [apply Runs_getRandomItem; simpl; lia|]. auto.
Qed.

Lemma Runs_nonterminal rec :
  Runs rec (fun _ => True) -> Runs (nonterminal rec) (fun _ => True).
Proof.
  intros Hrec. unfold nonterminal.
  eapply Runs_bind; [apply Runs_random|]. intros rnd _.
  destruct (ltb rnd (num "0.35")).
  { eapply Runs_bind; [apply Runs_getRandomItem; simpl; lia|]. intros f _.
    eapply Runs_bind; [exact Hrec|]. intros inner _. now apply Runs_ret. }
  destruct (ltb rnd (num "0.7")).
  { eapply Runs_bind; [apply Runs_getRandomItem; simpl; lia|]. intros op _.
    eapply Runs_bind; [exact Hrec|]. intros a _.
    eapply Runs_bind; [exact Hrec|]. intros b _. now apply Runs_ret. }
  eapply Runs_bind; [apply Runs_random|]. intros ty _.
  destruct (ltb ty (num "0.33")).
  { eapply Runs_bind; [exact Hrec|]. intros a _.
    eapply Runs_bind; [exact Hrec|]. intros b _.
    eapply Runs_bind; [apply Runs_randFloat|]. intros x _. now apply Runs_ret. }
  destruct (ltb ty (num "0.66")).
  { eapply Runs_bind; [exact Hrec|]. intros a _. now apply Runs_ret. }
  eapply Runs_bind; [exact Hrec|]. intros a _.
  eapply Runs_bind; [exact Hrec|]. intros b _. now apply Runs_ret.
Qed.

Lemma Runs_generateScalarExpr fuel depth uvName :
  nests_within fuel depth = true ->
  Runs (generateScalarExpr fuel depth uvName) (fun _ => True).
Proof.
  revert depth. induction fuel as [|fuel IH]; intros depth H; [discriminate|].
  rewrite generateScalarExpr_unfold. rewrite nests_within_unfold in H.
  eapply Runs_bind; [apply Runs_tick|]. intros _ _.
  destruct (leb depth (num "0")); [apply Runs_terminal|].
  eapply Runs_bind; [apply Runs_random|]. intros r0 _.
  destruct (ltb r0 (num "0.15")); [apply Runs_terminal|].
  apply Runs_nonterminal. apply IH. exact H.
Qed.

Lemma nests_within_4 : nests_within 5 (num "4") = true.
Proof. vm_compute. reflexivity. Qed.

Lemma nests_within_3 : nests_within 4 (num "3") = true.
Proof. vm_compute. reflexivity. Qed.

Lemma Runs_generateProceduralGene uvName :
  Runs (generateProceduralGene uvName) (fun _ => True).
Proof.
  unfold generateProceduralGene.
  pose proof nests_within_4 as H4. pose proof nests_within_3 as H3.
  eapply Runs_bind; [now apply Runs_generateScalarExpr|]. intros r _.
  eapply Runs_bind; [now apply Runs_generateScalarExpr|]. intros g _.
  eapply Runs_bind; [now apply Runs_generateScalarExpr|]. intros b _.
  eapply Runs_bind; [apply Runs_random|]. intros p _.
  destruct (ltb p (num "0.5")); [|now apply Runs_ret].
  eapply Runs_bind; [now apply Runs_generateScalarExpr|]. intros e _. now apply Runs_ret.
Qed.

Lemma Costs_ret {A} (a : A) : Costs (ret a) 0.
Proof. intros w a' w' [= <- <-]. lia. Qed.

Lemma Costs_fail {A} n : Costs (@fail A) n.
Proof. intros w a' w' [=]. Qed.

Lemma Costs_bind {A B} (m : M A) (k : A -> M B) n1 n2 :
  Costs m n1 -> (forall a, Costs (k a) n2) -> Costs (bind m k) (n1 + n2).
Proof.
  intros Hm Hk w b w' H. unfold bind in H.
  destruct (m w) as [[a w1]|] eqn:E; [|discriminate].
  apply Hm in E. apply Hk in H. lia.
Qed.

Lemma Costs_weaken {A} (m : M A) n n' : Costs m n -> n <= n' -> Costs m n'.
Proof. intros Hm Hn w a w' H. apply Hm in H. lia. Qed.

Lemma Costs_random : Costs random 0.
Proof. intros w a w' [= <- <-]. simpl. lia. Qed.

Lemma Costs_tick : Costs tick 1.
Proof. intros w a w' [= <- <-]. simpl. lia. Qed.

Lemma Costs_getRandomItem {T} (arr : list T) : Costs (getRandomItem arr) 0.
Proof.
  unfold getRandomItem. apply Costs_bind with (n1 := 0) (n2 := 0); [apply Costs_random|].
  intros r. destruct (array_index _); [|apply Costs_fail].
  destruct (nth_error arr n); [apply Costs_ret|apply Costs_fail].
Qed.

Lemma Costs_randFloat a b : Costs (randFloat a b) 0.
Proof.
  unfold randFloat. apply Costs_bind with (n1 := 0) (n2 := 0); [apply Costs_random|].
  intros; apply Costs_ret.
Qed.

Lemma Costs_terminal uvName : Costs (terminal uvName) 0.
Proof.
  unfold terminal. apply Costs_bind with (n1 := 0) (n2 := 0); [apply Costs_randFloat|].
  intros; apply Costs_getRandomItem.
Qed.

Ltac costs_step :=
  lazymatch goal with
  | |- Costs (bind random _) _ =>
      eapply Costs_bind with (n1 := 0); [apply Costs_random|intros ?]
  | |- Costs (bind (getRandomItem _) _) _ =>
      eapply Costs_bind with (n1 := 0); [apply Costs_getRandomItem|intros ?]
  | |- Costs (bind (randFloat _ _) _) _ =>
      eapply Costs_bind with (n1 := 0); [apply Costs_randFloat|intros ?]
  | |- Costs (ret _) _ => eapply Costs_weaken; [apply Costs_ret|lia]
  | |- Costs (if ?b then _ else _) _ => destruct b
  end.

(** At most two recursive calls are made by one call. *)
Lemma Costs_nonterminal rec n : Costs rec n -> Costs (nonterminal rec) (n + n).
Proof.
  intros Hrec. unfold nonterminal.
  assert (H1 : forall k : jsstring -> M jsstring, (forall a, Costs (k a) 0) ->
                 Costs (bind rec k) (n + n)).
  { intros k Hk. eapply Costs_weaken; [apply (Costs_bind _ _ _ _ Hrec Hk)|lia]. }
  assert (H2 : forall k : jsstring -> jsstring -> M jsstring,
                 (forall a b, Costs (k a b) 0) ->
                 Costs (bind rec (fun a => bind rec (k a))) (n + n)).
  { intros k Hk. apply Costs_bind; [exact Hrec|]. intros a.
    eapply Costs_weaken; [apply (Costs_bind _ _ _ _ Hrec (Hk a))|lia]. }
  repeat costs_step.
  - apply H1. intros. apply Costs_ret.
  - apply (H2 (fun a b => ret _)). intros. apply Costs_ret.
  - apply (H2 (fun a b => bind (randFloat _ _) _)). intros.
    apply Costs_bind with (n1 := 0) (n2 := 0); [apply Costs_randFloat|].
    intros. apply Costs_ret.
  - apply H1. intros. apply Costs_ret.
  - apply (H2 (fun a b => ret _)). intros. apply Costs_ret.
Qed.

(** A call that nests [fuel] deep at most makes [2^fuel - 1] calls at most. *)
Lemma Costs_generateScalarExpr fuel depth uvName :
  Costs (generateScalarExpr fuel depth uvName) (2 ^ fuel - 1).
Proof.
  revert depth. induction fuel as [|fuel IH]; intros depth; [apply Costs_fail|].
  rewrite generateScalarExpr_unfold.
  assert (Hpow : 1 <= 2 ^ fuel) by (apply Nat.neq_0_lt_0, Nat.pow_nonzero; lia).
  replace (2 ^ S fuel - 1) with (1 + ((2 ^ fuel - 1) + (2 ^ fuel - 1)))
    by (simpl; lia).
  apply Costs_bind; [apply Costs_tick|]. intros _.
  destruct (leb depth (num "0")).
  { eapply Costs_weaken; [apply Costs_terminal|lia]. }
  eapply Costs_bind with (n1 := 0); [apply Costs_random|]. intros r0.
  destruct (ltb r0 (num "0.15")).
  - eapply Costs_weaken; [apply Costs_terminal|lia].
  - apply Costs_nonterminal. apply IH.
Qed.

(** With every draw 0.5 no call ends by chance, and every call from the
    depth 2^53 + 4 makes two more at the same depth. *)
Lemma nonterminal_stuck (rec : M jsstring) (w : World) :
  rng w = rng half_world ->
  (forall w', rng w' = rng half_world -> rec w' = None) ->
  nonterminal rec w = None.
Proof.
  intros Hw Hrec. destruct w as [r p n]. simpl in Hw. subst r.
  unfold nonterminal, getRandomItem, bind, random. cbn [rng pos calls].
  replace (ltb (num "0.5") (num "0.35")) with false by (vm_compute; reflexivity).
  replace (ltb (num "0.5") (num "0.7")) with true by (vm_compute; reflexivity).
  match goal with
  | |- context [array_index ?x] =>
      replace (array_index x) with (Some 2) by (vm_compute; reflexivity)
  end.
  cbn [nth_error map ret]. rewrite Hrec; reflexivity.
Qed.

Lemma generateScalarExpr_stuck fuel uvName w :
  rng w = rng half_world -> generateScalarExpr fuel stuck_depth uvName w = None.
Proof.
  revert w. induction fuel as [|fuel IH]; intros w Hw; [reflexivity|].
  rewrite generateScalarExpr_unfold.
  replace (leb stuck_depth (num "0")) with false by (vm_compute; reflexivity).
  replace (sub stuck_depth (num "1")) with stuck_depth by (vm_compute; reflexivity).
  destruct w as [r p n]. simpl in Hw. subst r.
  unfold bind at 1 2. cbn [tick random rng pos calls].
  replace (ltb (num "0.5") (num "0.15")) with false by (vm_compute; reflexivity).
  apply nonterminal_stuck; [reflexivity|exact IH].
Qed.

(* ===================================================================== *)
(** ** Every pass ends; without its anchor a pass changes nothing *)
(* ===================================================================== *)

Section PassesEnd.

Variable intensity : jsnum.

Lemma Runs_mutateChaos tokens :
  Runs (mutateChaos tokens intensity)
       (fun out => findReturn tokens = None -> out = tokens).
Proof.
  unfold mutateChaos.
  destruct (findReturn tokens) as [retIdx|]; [|now apply Runs_ret].
  destruct (find_value_from tokens retIdx (lit ";")) as [semiIdx|];
    [|apply Runs_ret; discriminate].
  destruct (if _ : bool then _ else _) as [s0 p0].
  destruct (if _ : bool then _ else _) as [spliceStart preservedWhitespace].
  eapply Runs_bind; [apply Runs_getRandomItem; simpl; lia|]. intros inj _.
  apply Runs_ret. discriminate.
Qed.

Lemma Runs_mutateStructure tokens :
  Runs (mutateStructure tokens intensity)
       (fun out => findMain tokens = None \/ findReturn tokens = None -> out = tokens).
Proof.
  unfold mutateStructure.
  destruct (findMain tokens) as [mainIdx|]; [|now apply Runs_ret].
  destruct (findUVName tokens mainIdx) as [[|u uvName]|]; try now apply Runs_ret.
  destruct (findReturn tokens) as [retIdx|]; [|now apply Runs_ret].
  destruct (find_value_from tokens retIdx (lit ";")) as [semiIdx|];
    [|now apply Runs_ret].
  destruct (if _ : bool then _ else _) as [spliceStart preservedWhitespace].
  eapply Runs_bind; [apply Runs_generateProceduralGene|]. intros gene _.
  destruct (spliceStart <? semiIdx); apply Runs_ret; intros [|]; discriminate.
Qed.

Lemma Runs_geometry_templates uvName mutVar :
  Runs (geometry_templates uvName mutVar) (fun l => length l = 5).
Proof.
  unfold geometry_templates.
  eapply Runs_bind; [apply Runs_randFloat|]. intros a _.
  eapply Runs_bind; [apply Runs_randFloat|]. intros b _.
  eapply Runs_bind; [apply Runs_randFloat|]. intros d _.
  now apply Runs_ret.
Qed.

Lemma find_value_from_findUVName tokens mainIdx :
  find_value_from tokens mainIdx (lit "(") = None -> findUVName tokens mainIdx = None.
Proof. unfold findUVName. now intros ->. Qed.

Lemma Runs_mutateGeometry tokens :
  Runs (mutateGeometry tokens intensity)
       (fun out => findMain tokens = None -> out = tokens).
Proof.
  unfold mutateGeometry.
  destruct (findMain tokens) as [mainIdx|]; [|now apply Runs_ret].
  destruct (findUVName tokens mainIdx) as [[|u uvName]|] eqn:Euv;
    try (apply Runs_ret; discriminate).
  destruct (find_value_from tokens mainIdx (lit "(")) as [argsStart|] eqn:Ea;
    [|apply find_value_from_findUVName in Ea; congruence].
  destruct (find_value_from tokens argsStart (lit "{")) as [bodyStart|];
    [|apply Runs_ret; discriminate].
  eapply Runs_bind; [apply Runs_random|]. intros r _.
  eapply Runs_bind; [apply Runs_geometry_templates|]. intros l Hl.
  eapply Runs_bind; [apply Runs_getRandomItem; rewrite Hl; simpl; lia|]. intros inj _.
  apply Runs_ret. discriminate.
Qed.

Lemma no_anchor_inv tokens :
  no_anchor tokens = true ->
  findMain tokens = None /\ findReturn tokens = None
  /\ (forall t, In t tokens ->
        float_literal t = false /\ operator_token t = false /\ builtin_token t = false)
  /\ (forall i, i < length tokens - 1 -> swizzle_site tokens i = false).
Proof.
  unfold no_anchor. intros H.
  apply andb_prop in H as [H Hs]. apply andb_prop in H as [H Ht].
  apply andb_prop in H as [Hm Hr].
  split; [destruct (findMain tokens); [discriminate|reflexivity]|].
  split; [destruct (findReturn tokens); [discriminate|reflexivity]|].
  split.
  - intros t Hin. rewrite forallb_forall in Ht. specialize (Ht t Hin).
    apply andb_prop in Ht as [Ht Hb]. apply andb_prop in Ht as [Hf Ho].
    now rewrite negb_true_iff in Hf, Ho, Hb.
  - intros i Hi. rewrite forallb_forall in Hs.
    specialize (Hs i ltac:(apply in_seq; lia)). now rewrite negb_true_iff in Hs.
Qed.

(** Each pass, on an array without anchors, returns the array. *)
Definition inert_pass (pass : list Token -> jsnum -> M (list Token)) : Prop :=
  forall tokens,
    Runs (pass tokens intensity) (fun out => no_anchor tokens = true -> out = tokens).

Lemma inert_mutateStructure : inert_pass mutateStructure.
Proof.
  intros tokens. eapply Runs_weaken; [apply Runs_mutateStructure|].
  intros out H Hno. apply no_anchor_inv in Hno as (Hm & _). auto.
Qed.

Lemma inert_mutateGeometry : inert_pass mutateGeometry.
Proof.
  intros tokens. eapply Runs_weaken; [apply Runs_mutateGeometry|].
  intros out H Hno. apply no_anchor_inv in Hno as (Hm & _). auto.
Qed.

Lemma inert_mutateChaos : inert_pass mutateChaos.
Proof.
  intros tokens. eapply Runs_weaken; [apply Runs_mutateChaos|].
  intros out H Hno. apply no_anchor_inv in Hno as (_ & Hr & _). auto.
Qed.

Lemma inert_mutateColor : inert_pass mutateColor.
Proof.
  intros tokens. eapply Runs_weaken; [apply Runs_mutateColor|].
  intros out [_ H] Hno. apply no_anchor_inv in Hno as (_ & _ & Ht & _).
  apply H. intros t Hin. now apply Ht.
Qed.

Lemma inert_mutateNumbers : inert_pass mutateNumbers.
Proof.
  intros tokens. eapply Runs_weaken;
    [apply Runs_map_pass, Runs_mutateNumbers_token|].
  intros out [_ H] Hno. apply no_anchor_inv in Hno as (_ & _ & Ht & _).
  apply H. intros t Hin. now apply Ht.
Qed.

Lemma inert_mutateOperators : inert_pass mutateOperators.
Proof.
  intros tokens. eapply Runs_weaken;
    [apply Runs_map_pass, Runs_mutateOperators_token|].
  intros out [_ H] Hno. apply no_anchor_inv in Hno as (_ & _ & Ht & _).
  apply H. intros t Hin. now apply Ht.
Qed.

Lemma inert_mutateBuiltins : inert_pass mutateBuiltins.
Proof.
  intros tokens. eapply Runs_weaken;
    [apply Runs_map_pass, Runs_mutateBuiltins_token|].
  intros out [_ H] Hno. apply no_anchor_inv in Hno as (_ & _ & Ht & _).
  apply H. intros t Hin. now apply Ht.
Qed.

Lemma inert_mutateSwizzle : inert_pass mutateSwizzle.
Proof.
  intros tokens. eapply Runs_weaken; [apply Runs_mutateSwizzle|].
  intros out H Hno. apply no_anchor_inv in Hno as (_ & _ & _ & Hs).
  now apply swizzled_unchanged.
Qed.

(** One stage of the pipeline, gated or not, after stages that kept the
    tokens [T] of an input without anchors. *)
Lemma Runs_stage (wrap : (list Token -> jsnum -> M (list Token)) -> list Token ->
                         M (list Token)) pass T tokens :
  (forall toks, wrap pass toks = pass toks intensity
                \/ wrap pass toks = ret toks
                \/ wrap pass toks
                   = (r <- random ;;
                      if ltb r intensity then pass toks intensity else ret toks)) ->
  inert_pass pass ->
  (no_anchor T = true -> tokens = T) ->
  Runs (wrap pass tokens) (fun out => no_anchor T = true -> out = T).
Proof.
  intros Hwrap Hpass Hprev.
  assert (Hp : Runs (pass tokens intensity) (fun out => no_anchor T = true -> out = T)).
  { eapply Runs_weaken; [apply Hpass|]. intros out H Hno.
    specialize (Hprev Hno). subst tokens. auto. }
  destruct (Hwrap tokens) as [->|[->| ->]].
  - exact Hp.
  - now apply Runs_ret.
  - eapply Runs_bind; [apply Runs_random|]. intros r _.
    destruct (ltb r intensity); [exact Hp|now apply Runs_ret].
Qed.

End PassesEnd.

Lemma gated_cases flag intensity pass toks :
  gated flag intensity pass toks = pass toks intensity
  \/ gated flag intensity pass toks = ret toks
  \/ gated flag intensity pass toks
     = (r <- random ;; if ltb r intensity then pass toks intensity else ret toks).
Proof. unfold gated. destruct flag; auto. Qed.

Lemma enabled_cases flag intensity pass toks :
  enabled flag intensity pass toks = pass toks intensity
  \/ enabled flag intensity pass toks = ret toks
  \/ enabled flag intensity pass toks
     = (r <- random ;; if ltb r intensity then pass toks intensity else ret toks).
Proof. unfold enabled. destruct flag; auto. Qed.

Lemma Runs_fuzzShader code config :
  Runs (fuzzShader code config)
       (fun out => no_anchor (tokenize code) = true -> out = code).
Proof.
  unfold fuzzShader. set (T := tokenize code). set (i := cfg_intensity config).
  eapply Runs_bind.
  { apply (Runs_stage i (gated (cfg_mutateStructure config) i) mutateStructure T T);
      [apply gated_cases|apply inert_mutateStructure|auto]. }
  intros t1 H1. eapply Runs_bind.
  { apply (Runs_stage i (gated (cfg_mutateGeometry config) i) mutateGeometry T t1);
      [apply gated_cases|apply inert_mutateGeometry|auto]. }
  intros t2 H2. eapply Runs_bind.
  { apply (Runs_stage i (gated (cfg_mutateColor config) i) mutateColor T t2);
      [apply gated_cases|apply inert_mutateColor|auto]. }
  intros t3 H3. eapply Runs_bind.
  { apply (Runs_stage i (gated (cfg_mutateChaos config) i) mutateChaos T t3);
      [apply gated_cases|apply inert_mutateChaos|auto]. }
  intros t4 H4. eapply Runs_bind.
  { apply (Runs_stage i (enabled (cfg_mutateNumbers config) i) mutateNumbers T t4);
      [apply enabled_cases|apply inert_mutateNumbers|auto]. }
  intros t5 H5. eapply Runs_bind.
  { apply (Runs_stage i (enabled (cfg_mutateOperators config) i) mutateOperators T t5);
      [apply enabled_cases|apply inert_mutateOperators|auto]. }
  intros t6 H6. eapply Runs_bind.
  { apply (Runs_stage i (enabled (cfg_mutateBuiltins config) i) mutateBuiltins T t6);
      [apply enabled_cases|apply inert_mutateBuiltins|auto]. }
  intros t7 H7. eapply Runs_bind.
  { apply (Runs_stage i (enabled (gtb i (num "0.15")) i) mutateSwizzle T t7);
      [apply enabled_cases|apply inert_mutateSwizzle|auto]. }
  intros t8 H8. apply Runs_ret. intros Hno. rewrite (H8 Hno).
  apply serialize_tokenize.
Qed.

(* ===================================================================== *)
(** ** Anchor absence *)
(* ===================================================================== *)

Lemma for_find_down_None n hit :
  (forall i, i < n -> hit i = false) -> for_find_down n hit = None.
Proof.
  induction n as [|n IH]; intros H; simpl; [reflexivity|].
  rewrite H by lia. apply IH. intros i Hi. apply H. lia.
Qed.

Lemma no_return_findReturn tokens : no_return tokens = true -> findReturn tokens = None.
Proof.
  intros H. unfold findReturn. apply for_find_down_None. intros i Hi.
  unfold type_is, value_is. destruct (nth_error tokens i) as [t|] eqn:Et; [|reflexivity].
  unfold no_return in H. rewrite forallb_forall in H.
  specialize (H t (nth_error_In _ _ Et)). now apply negb_true_iff in H.
Qed.

Lemma mutateChaos_no_return tokens intensity w :
  findReturn tokens = None -> mutateChaos tokens intensity w = Some (tokens, w).
Proof. unfold mutateChaos. now intros ->. Qed.

Lemma mutateStructure_no_return tokens intensity w :
  findReturn tokens = None -> mutateStructure tokens intensity w = Some (tokens, w).
Proof.
  unfold mutateStructure. intros ->.
  destruct (findMain tokens) as [mainIdx|]; [|reflexivity].
  destruct (findUVName tokens mainIdx) as [[|u uvName]|]; reflexivity.
Qed.

(* ===================================================================== *)
(** ** Scenario A: the Chaos pass on a fixed return statement *)
(* ===================================================================== *)

Lemma scenarioA_tokens_eq : tokenize scenarioA = scenarioA_tokens.
Proof. vm_compute. reflexivity. Qed.

Lemma Runs_scenarioA intensity :
  Runs (mutateChaos (tokenize scenarioA) intensity)
       (fun out => In (serialize out) scenarioA_results
                   /\ exists wrapped, In wrapped (chaosOptions scenarioA_expr)
                        /\ serialize out = lit "return " ++ wrapped ++ lit ";").
Proof.
  rewrite scenarioA_tokens_eq. unfold mutateChaos.
  replace (findReturn scenarioA_tokens) with (Some 0) by (vm_compute; reflexivity).
  replace (find_value_from scenarioA_tokens 0 (lit ";")) with (Some 18)
    by (vm_compute; reflexivity).
  replace ((0 + 1 <? length scenarioA_tokens) && type_is scenarioA_tokens (0 + 1) whitespace)
    with true by (vm_compute; reflexivity).
  cbv iota beta. replace (18 <=? 0 + 2) with false by reflexivity. cbv iota beta.
  replace (join (map value (slice scenarioA_tokens (0 + 2) 18))) with scenarioA_expr
    by (vm_compute; reflexivity).
  eapply Runs_bind; [apply Runs_getRandomItem; simpl; lia|]. intros inj Hin.
  apply Runs_ret. split.
  - simpl in Hin. decompose [or] Hin; try contradiction; subst inj; vm_compute; tauto.
  - exists inj. split; [exact Hin|].
    simpl in Hin. decompose [or] Hin; try contradiction; subst inj; vm_compute; reflexivity.
Qed.

(* ===================================================================== *)
(** ** The Swizzle alphabet *)
(* ===================================================================== *)

Lemma mutateSwizzle_xw intensity w :
  mutateSwizzle (tokenize swizzle_xw) intensity w = Some (tokenize swizzle_xw, w).
Proof.
  replace (tokenize swizzle_xw)
    with [mkToken ident (lit "p") 0; mkToken punct (lit ".") 1; mkToken ident (lit "xw") 2]
    by (vm_compute; reflexivity).
  reflexivity.
Qed.

(* ===================================================================== *)
(** ** The text written by the Numbers pass *)
(* ===================================================================== *)

Lemma is_fixed3_decimal_text s : is_fixed3 s = true -> decimal_text s = true.
Proof.
  unfold is_fixed3, decimal_text. intros H.
  apply andb_prop in H as [H1 H2]. rewrite H1. cbn [andb].
  destruct (skipn _ _) as [|p frac]; [reflexivity|].
  apply andb_prop in H2 as [H2 H3]. apply andb_prop in H2 as [H2 H4].
  rewrite H2, H3. apply Nat.eqb_eq in H4. rewrite H4. reflexivity.
Qed.

Lemma is_digit_digit z : is_digit (N.add 48 (Z.to_N (z mod 10))) = true.
Proof.
  pose proof (Z.mod_pos_bound z 10 ltac:(lia)) as H.
  unfold is_digit, in_range. apply andb_true_intro.
  split; apply N.leb_le; change (c "0") with 48%N; change (c "9") with 57%N; lia.
Qed.

Lemma digits_fuel_spec fuel z acc :
  forallb is_digit acc = true ->
  forallb is_digit (digits_fuel fuel z acc) = true
  /\ length acc + match fuel with 0 => 0 | S _ => 1 end
     <= length (digits_fuel fuel z acc).
Proof.
  revert z acc. induction fuel as [|fuel IH]; intros z acc Hacc; simpl.
  - split; [exact Hacc|lia].
  - assert (Hacc' : forallb is_digit (N.add 48 (Z.to_N (z mod 10)) :: acc) = true).
    { cbn [forallb]. now rewrite is_digit_digit. }
    destruct (z <? 10)%Z.
    + split; [exact Hacc'|simpl; lia].
    + destruct (IH (z / 10)%Z _ Hacc') as [H1 H2]. split; [exact H1|].
      simpl length in H2. destruct fuel; lia.
Qed.

Lemma digits_of_spec z :
  forallb is_digit (digits_of z) = true /\ 1 <= length (digits_of z).
Proof.
  unfold digits_of. destruct (digits_fuel_spec (S (Z.to_nat (Z.log2 z))) z [] eq_refl)
    as [H1 H2]. split; [exact H1|exact H2].
Qed.

Lemma span_all_then (p : char -> bool) a x r :
  forallb p a = true -> p x = false -> span p (a ++ x :: r) = length a.
Proof.
  induction a as [|y a IH]; simpl; intros Ha Hx.
  - now rewrite Hx.
  - apply andb_prop in Ha as [Hy Ha]. rewrite Hy. now rewrite IH.
Qed.

Lemma forallb_zeros n : forallb is_digit (zeros n) = true.
Proof. induction n; simpl; auto. Qed.

Lemma forallb_firstn {A} (p : A -> bool) n l :
  forallb p l = true -> forallb p (firstn n l) = true.
Proof.
  revert n. induction l as [|x l IH]; intros [|n]; simpl; auto.
  intros H. apply andb_prop in H as [-> H]. simpl. now apply IH.
Qed.

Lemma forallb_skipn {A} (p : A -> bool) n l :
  forallb p l = true -> forallb p (skipn n l) = true.
Proof.
  revert n. induction l as [|x l IH]; intros [|n]; simpl; auto.
  intros H. apply andb_prop in H as [_ H]. now apply IH.
Qed.

(** The shape of [sign ++ F ++ "." ++ S] with digits [F] and three digits [S]. *)
Lemma is_fixed3_build (sg : bool) F S :
  forallb is_digit F = true -> 1 <= length F ->
  forallb is_digit S = true -> length S = 3 ->
  is_fixed3 ((if sg then lit "-" else []) ++ F ++ lit "." ++ S) = true.
Proof.
  intros HF HlF HS HlS.
  assert (Hbody : is_fixed3 (F ++ lit "." ++ S) = true
                  /\ (let n := span is_digit (F ++ lit "." ++ S) in
                      (1 <=? n)
                      && match skipn n (F ++ lit "." ++ S) with
                         | p :: frac => N.eqb p (c ".") && (length frac =? 3)
                                        && forallb is_digit frac
                         | [] => false
                         end) = true).
  { assert (Hn : (let n := span is_digit (F ++ lit "." ++ S) in
                      (1 <=? n)
                      && match skipn n (F ++ lit "." ++ S) with
                         | p :: frac => N.eqb p (c ".") && (length frac =? 3)
                                        && forallb is_digit frac
                         | [] => false
                         end) = true).
    { cbv zeta. change (lit "." ++ S) with (c "." :: S).
      rewrite span_all_then by (auto; reflexivity).
      rewrite skipn_app, skipn_all, Nat.sub_diag.
      change ([] ++ skipn 0 (c "." :: S)) with (c "." :: S). cbv iota.
      rewrite HS, HlS. replace (1 <=? length F) with true
        by (symmetry; apply Nat.leb_le; lia). reflexivity. }
    split; [|exact Hn].
    unfold is_fixed3. destruct F as [|x F]; [simpl in HlF; lia|].
    simpl app. simpl in HF. apply andb_prop in HF as [Hx HF'].
    replace (N.eqb x (c "-")) with false.
    - exact Hn.
    - symmetry. apply N.eqb_neq. intros ->. discriminate. }
  destruct sg; [|apply Hbody].
  change (lit "-" ++ F ++ lit "." ++ S) with (c "-" :: (F ++ lit "." ++ S)).
  unfold is_fixed3. change (N.eqb (c "-") (c "-")) with true. apply Hbody.
Qed.

Lemma toFixed3_format (sg : bool) (m : positive) (e : Z) :
  below_1e21 (S754_finite sg m e) = true ->
  is_fixed3 (toFixed (S754_finite sg m e) 3) = true.
Proof.
  unfold below_1e21, toFixed. intros H. apply Z.ltb_lt in H.
  replace (10 ^ 21 * denom e <=? numer m e)%Z with false
    by (symmetry; apply Z.leb_gt; exact H).
  set (n := ((2 * numer m e * 10 ^ Z.of_nat 3 + denom e) / (2 * denom e))%Z).
  destruct (digits_of_spec n) as [Hd Hl].
  set (ds := zeros (4 - length (digits_of n)) ++ digits_of n).
  assert (Hds : forallb is_digit ds = true).
  { unfold ds. rewrite forallb_app, forallb_zeros, Hd. reflexivity. }
  assert (Hlen : 4 <= length ds).
  { unfold ds, zeros. rewrite length_app, repeat_length. lia. }
  apply is_fixed3_build.
  - now apply forallb_firstn.
  - rewrite length_firstn. lia.
  - now apply forallb_skipn.
  - rewrite length_skipn. lia.
Qed.

(** What [mutateNumbers] writes for a selected literal. *)
Lemma mutateNumbers_token_selected intensity t w :
  numbers_selects intensity t w = true ->
  let newVal := perturb (parseFloat (value t)) (rng w (S (pos w))) (rng w (S (S (pos w)))) in
  mutateNumbers_token intensity t w
  = Some (with_value t (number_text newVal),
          mkWorld (rng w) (S (S (S (pos w)))) (calls w)).
Proof.
  unfold numbers_selects, float_literal. intros H.
  apply andb_prop in H as [H Hn]. apply andb_prop in H as [Hf Hr].
  unfold mutateNumbers_token. rewrite Hf.
  unfold bind at 1. unfold random at 1. cbv iota beta. rewrite Hr, Hn.
  reflexivity.
Qed.

Lemma number_text_format newVal :
  (ltb (abs newVal) (num "0.001") = true -> number_text newVal = lit "0.0")
  /\ (ltb (abs newVal) (num "0.001") = false -> below_1e21 newVal = true ->
      is_fixed3 (number_text newVal) = true).
Proof.
  unfold number_text. split; intros H.
  - now rewrite H.
  - rewrite H. intros Hb. destruct newVal as [s|s| |s m e]; try discriminate.
    now apply toFixed3_format.
Qed.

(* ===================================================================== *)
(** ** The Geometry pass *)
(* ===================================================================== *)

Lemma str_eqb_eq a b : str_eqb a b = true <-> a = b.
Proof.
  revert b. induction a as [|x a IH]; intros [|y b]; simpl; split; try easy.
  - intros H. apply andb_prop in H as [Hx Ha]. apply N.eqb_eq in Hx. apply IH in Ha.
    congruence.
  - intros [= -> ->]. rewrite N.eqb_refl. now apply IH.
Qed.

Lemma for_find_Some n i hit k :
  for_find n i hit = Some k -> i <= k < i + n /\ hit k = true.
Proof.
  revert i. induction n as [|n IH]; intros i; simpl; [discriminate|].
  destruct (hit i) eqn:E.
  - intros [= <-]. split; [lia|exact E].
  - intros H. apply IH in H. split; [lia|tauto].
Qed.

Lemma find_value_from_Some tokens from s k :
  find_value_from tokens from s = Some k ->
  from <= k < length tokens /\ value_is tokens k s = true.
Proof.
  unfold find_value_from. intros H. apply for_find_Some in H as [H1 H2].
  split; [|exact H2]. unfold value_is in H2.
  destruct (nth_error tokens k) eqn:E; [|discriminate].
  assert (k < length tokens) by (apply nth_error_Some; congruence). lia.
Qed.

Lemma rename_at_renames uvName mutVar arr i :
  rename_at uvName mutVar arr i
  = match nth_error arr i with
    | Some t => if renames uvName arr i t then set_nth arr i (with_value t mutVar)
                else arr
    | None => arr
    end.
Proof.
  unfold rename_at, renames, after_dot, before_colon.
  destruct (nth_error arr i) as [t|]; [|reflexivity].
  destruct (TokenType_eqb (type t) ident && str_eqb (value t) uvName); [|reflexivity].
  cbn [andb].
  destruct (match prev_nonws arr i with Some prev => _ | None => false end); [reflexivity|].
  cbn [negb andb].
  destruct ((skip_ws arr (i + 1) <? length arr) && _); reflexivity.
Qed.

Lemma type_is_app P R x ty : type_is (P ++ R) (length P + x) ty = type_is R x ty.
Proof.
  unfold type_is. rewrite nth_error_app2 by lia.
  now replace (length P + x - length P) with x by lia.
Qed.

Lemma value_is_app P R x s : value_is (P ++ R) (length P + x) s = value_is R x s.
Proof.
  unfold value_is. rewrite nth_error_app2 by lia.
  now replace (length P + x - length P) with x by lia.
Qed.

Lemma while_skip_shift (p q : nat -> bool) d n j :
  (forall x, p (d + x) = q x) ->
  while_skip n (d + j) p = d + while_skip n j q.
Proof.
  intros H. revert j. induction n as [|n IH]; intros j; simpl; [reflexivity|].
  rewrite H. destruct (q j); [|reflexivity].
  replace (S (d + j)) with (d + S j) by lia. apply IH.
Qed.

Lemma skip_ws_app P R x : skip_ws (P ++ R) (length P + x) = length P + skip_ws R x.
Proof.
  unfold skip_ws. rewrite length_app.
  replace (length P + length R - (length P + x)) with (length R - x) by lia.
  apply while_skip_shift. intros y. apply type_is_app.
Qed.

Lemma before_colon_app P R x :
  before_colon (P ++ R) (length P + x) = before_colon R x.
Proof.
  unfold before_colon. cbv zeta.
  replace (length P + x + 1) with (length P + (x + 1)) by lia.
  rewrite skip_ws_app, value_is_app, length_app.
  f_equal. destruct (Nat.ltb_spec (skip_ws R (x + 1)) (length R));
    [apply Nat.ltb_lt|apply Nat.ltb_ge]; lia.
Qed.

Lemma after_dot_sim pfx sep done odone X Y :
  type sep <> whitespace -> str_eqb (value sep) (lit ".") = false ->
  Forall2 sim_dot done odone ->
  after_dot ((pfx ++ [sep]) ++ done ++ X) (length (pfx ++ [sep]) + length done)
  = after_dot (odone ++ Y) (length odone).
Proof.
  intros Hty Hval Hsim. unfold after_dot.
  assert (Hgen : forall k, k <= length done ->
    match prev_nonws ((pfx ++ [sep]) ++ done ++ X) (length (pfx ++ [sep]) + k) with
    | Some p => value_is ((pfx ++ [sep]) ++ done ++ X) p (lit ".")
    | None => false
    end
    = match prev_nonws (odone ++ Y) k with
      | Some p => value_is (odone ++ Y) p (lit ".")
      | None => false
      end).
  { induction k as [|k IH]; intros Hk.
    - rewrite Nat.add_0_r, length_app. simpl length.
      replace (length pfx + 1) with (S (length pfx)) by lia.
      cbn [prev_nonws].
      assert (Hn : nth_error ((pfx ++ [sep]) ++ done ++ X) (length pfx) = Some sep).
      { rewrite <- app_assoc. rewrite nth_error_app2 by lia.
        now rewrite Nat.sub_diag. }
      unfold type_is. rewrite Hn.
      destruct (type sep); try contradiction; cbn [TokenType_eqb];
        unfold value_is; rewrite Hn; exact Hval.
    - replace (length (pfx ++ [sep]) + S k) with (S (length (pfx ++ [sep]) + k)) by lia.
      cbn [prev_nonws].
      pose proof (Forall2_length Hsim) as Hlen.
      destruct (nth_error done k) as [a|] eqn:Ea;
        [|apply nth_error_None in Ea; lia].
      destruct (nth_error odone k) as [b|] eqn:Eb;
        [|apply nth_error_None in Eb; lia].
      assert (Hab : sim_dot a b).
      { clear -Hsim Ea Eb. revert k Ea Eb.
        induction Hsim; intros [|k]; simpl; try discriminate.
        - now intros [= ->] [= ->].
        - apply IHHsim. }
      assert (Hn1 : nth_error ((pfx ++ [sep]) ++ done ++ X) (length (pfx ++ [sep]) + k)
                    = Some a).
      { rewrite nth_error_app2 by lia.
        replace (length (pfx ++ [sep]) + k - length (pfx ++ [sep])) with k by lia.
        rewrite nth_error_app1 by lia. exact Ea. }
      assert (Hn2 : nth_error (odone ++ Y) k = Some b).
      { rewrite nth_error_app1 by lia. exact Eb. }
      unfold type_is. rewrite Hn1, Hn2.
      destruct Hab as [Ht Hv]. rewrite Ht.
      destruct (TokenType_eqb (type b) whitespace).
      + apply IH. lia.
      + unfold value_is. rewrite Hn1, Hn2. exact Hv. }
  rewrite <- (Forall2_length Hsim). apply Hgen. lia.
Qed.

Lemma set_nth_middle {A} (P R : list A) x y :
  set_nth (P ++ x :: R) (length P) y = P ++ y :: R.
Proof. induction P as [|a P IH]; simpl; [reflexivity|now rewrite IH]. Qed.

Lemma rename_loop_spec uvName mutVar pfx sep post :
  type sep <> whitespace -> str_eqb (value sep) (lit ".") = false ->
  str_eqb uvName (lit ".") = false -> str_eqb mutVar (lit ".") = false ->
  forall rest done odone,
    post = odone ++ rest ->
    Forall2 sim_dot done odone ->
    (forall k t, nth_error odone k = Some t ->
                 nth_error done k = Some (renamed uvName mutVar post k t)) ->
    exists body,
      rename_loop uvName mutVar (length rest) (length (pfx ++ [sep]) + length done)
                  ((pfx ++ [sep]) ++ done ++ rest)
      = (pfx ++ [sep]) ++ body
      /\ length body = length post
      /\ forall k t, nth_error post k = Some t ->
                     nth_error body k = Some (renamed uvName mutVar post k t).
Proof.
  intros Hty Hval Huv Hmv.
  induction rest as [|t rest IH]; intros done odone Hpost Hsim Hdone.
  - exists done. rewrite app_nil_r in *. subst post. simpl. split; [reflexivity|].
    split; [apply (Forall2_length Hsim)|exact Hdone].
  - cbn [length rename_loop]. rewrite rename_at_renames.
    pose proof (Forall2_length Hsim) as Hlen.
    set (P := pfx ++ [sep]) in *.
    assert (Hn : nth_error (P ++ done ++ t :: rest) (length P + length done) = Some t).
    { rewrite nth_error_app2 by lia.
      replace (length P + length done - length P) with (length done) by lia.
      rewrite nth_error_app2 by lia. now rewrite Nat.sub_diag. }
    rewrite Hn.
    assert (Hren : renames uvName (P ++ done ++ t :: rest) (length P + length done) t
                   = renames uvName post (length odone) t).
    { unfold renames. f_equal; [f_equal|].
      - f_equal. subst post. apply after_dot_sim; assumption.
      - f_equal. subst post.
        rewrite app_assoc. rewrite <- length_app.
        rewrite <- (Nat.add_0_r (length (P ++ done))).
        rewrite before_colon_app.
        rewrite <- (Nat.add_0_r (length odone)).
        now rewrite before_colon_app. }
    rewrite Hren.
    set (t' := renamed uvName mutVar post (length odone) t).
    assert (Hcur : (if renames uvName post (length odone) t
                    then set_nth (P ++ done ++ t :: rest) (length P + length done)
                                 (with_value t mutVar)
                    else P ++ done ++ t :: rest)
                   = P ++ (done ++ [t']) ++ rest).
    { unfold t', renamed. rewrite <- (app_assoc done). simpl app.
      destruct (renames uvName post (length odone) t); [|reflexivity].
      rewrite (app_assoc P done). rewrite <- length_app.
      rewrite set_nth_middle. now rewrite <- app_assoc. }
    rewrite Hcur.
    replace (S (length P + length done)) with (length P + length (done ++ [t']))
      by (rewrite length_app; simpl; lia).
    apply (IH (done ++ [t']) (odone ++ [t])).
    + subst post. now rewrite <- app_assoc.
    + apply Forall2_app; [exact Hsim|]. constructor; [|constructor].
      unfold t', renamed. destruct (renames uvName post (length odone) t) eqn:Er.
      * split; [reflexivity|]. simpl value.
        unfold renames in Er. apply andb_prop in Er as [Er _].
        apply andb_prop in Er as [Er _]. apply andb_prop in Er as [_ Er].
        apply str_eqb_eq in Er. rewrite Er. congruence.
      * split; reflexivity.
    + intros k x Hk.
      destruct (Nat.lt_ge_cases k (length odone)) as [Hlt|Hge].
      * rewrite nth_error_app1 in Hk by lia. rewrite nth_error_app1 by lia.
        now apply Hdone.
      * rewrite nth_error_app2 in Hk by lia. rewrite nth_error_app2 by lia.
        rewrite Hlen.
        destruct (k - length odone) as [|d] eqn:Ed; simpl in Hk |- *.
        -- injection Hk as <-. replace k with (length odone) by lia. reflexivity.
        -- destruct d; discriminate.
Qed.

Lemma mutateGeometry_no_anchor tokens intensity w :
  geometry_anchors tokens = None -> mutateGeometry tokens intensity w = Some (tokens, w).
Proof.
  unfold geometry_anchors, mutateGeometry.
  destruct (findMain tokens) as [mainIdx|]; [|reflexivity].
  destruct (findUVName tokens mainIdx) as [[|u uv]|] eqn:Euv; try reflexivity.
  destruct (find_value_from tokens mainIdx (lit "(")) as [argsStart|] eqn:Ea.
  - destruct (find_value_from tokens argsStart (lit "{")); [discriminate|reflexivity].
  - unfold findUVName in Euv. rewrite Ea in Euv. discriminate.
Qed.

Lemma Runs_geometry_templates_shape uvName mutVar :
  Runs (geometry_templates uvName mutVar)
       (fun l => length l = 5
                 /\ forall x, In x l ->
                      exists rest, x = lit "var " ++ mutVar ++ lit " = " ++ rest).
Proof.
  unfold geometry_templates.
  eapply Runs_bind; [apply Runs_randFloat|]. intros a _.
  eapply Runs_bind; [apply Runs_randFloat|]. intros b _.
  eapply Runs_bind; [apply Runs_randFloat|]. intros d _.
  apply Runs_ret. split; [reflexivity|].
  intros x Hx. simpl in Hx.
  decompose [or] Hx; try contradiction; subst x; eexists;
    apply (f_equal (app (lit "var "))); apply (f_equal (app mutVar)); reflexivity.
Qed.

Lemma num_100000 : num "100000" = of_Z 100000.
Proof. vm_compute. reflexivity. Qed.

Lemma Runs_mutateGeometry_found tokens intensity uvName bodyStart :
  geometry_anchors tokens = Some (uvName, bodyStart) ->
  uvName <> lit "." ->
  Runs (mutateGeometry tokens intensity)
       (fun out =>
          exists q inj body,
            (0 <= q < 100000)%Z
            /\ let mutVar := uvName ++ lit "_geo_" ++ toString (of_Z q) in
               (exists rest, inj = lit "var " ++ mutVar ++ lit " = " ++ rest)
               /\ out = firstn (bodyStart + 1) tokens
                          ++ geo_indent :: tokenize inj ++ geo_semicolon :: body
               /\ length body = length (skipn (bodyStart + 1) tokens)
               /\ forall k t,
                    nth_error (skipn (bodyStart + 1) tokens) k = Some t ->
                    nth_error body k
                    = Some (renamed uvName mutVar (skipn (bodyStart + 1) tokens) k t)).
Proof.
  unfold geometry_anchors, mutateGeometry. intros Hanch Huv.
  destruct (findMain tokens) as [mainIdx|]; [|discriminate].
  destruct (findUVName tokens mainIdx) as [[|u uv]|]; try discriminate.
  destruct (find_value_from tokens mainIdx (lit "(")) as [argsStart|]; [|discriminate].
  destruct (find_value_from tokens argsStart (lit "{")) as [b|] eqn:Eb; [|discriminate].
  injection Hanch as <- <-.
  apply find_value_from_Some in Eb as [Hb _].
  eapply Runs_bind; [apply Runs_random|]. intros r Hr.
  rewrite num_100000.
  destruct (FloatFacts.floor_unit_Z r 100000 Hr ltac:(lia)) as (q & Hq & ->).
  set (mutVar := (u :: uv) ++ lit "_geo_" ++ toString (of_Z q)).
  eapply Runs_bind; [apply Runs_geometry_templates_shape|]. intros l [Hl Hshape].
  eapply Runs_bind; [apply Runs_getRandomItem; rewrite Hl; simpl; lia|]. intros inj Hinj.
  apply Runs_ret.
  set (post := skipn (b + 1) tokens).
  set (pfx := firstn (b + 1) tokens ++ geo_indent :: tokenize inj).
  assert (Hpfx : length (firstn (b + 1) tokens) = b + 1) by (rewrite length_firstn; lia).
  assert (Hsplice : splice tokens (b + 1) 0
                      (mkToken whitespace (10%N :: lit "    ") (-1)
                         :: tokenize inj ++ [mkToken punct (lit ";") (-1)])
                    = (pfx ++ [geo_semicolon]) ++ [] ++ post).
  { unfold splice, pfx, post, geo_indent, geo_semicolon. rewrite Nat.add_0_r.
    rewrite <- !app_assoc. cbn [app]. rewrite <- !app_assoc. reflexivity. }
  rewrite Hsplice.
  assert (Hstart : b + 1 + length (tokenize inj) + 2
                   = length (pfx ++ [geo_semicolon]) + length (@nil Token)).
  { unfold pfx. rewrite !length_app. simpl. lia. }
  rewrite Hstart.
  replace (length ((pfx ++ [geo_semicolon]) ++ [] ++ post)
           - (length (pfx ++ [geo_semicolon]) + length (@nil Token)))
    with (length post) by (rewrite !length_app; simpl; lia).
  assert (Hmv : str_eqb mutVar (lit ".") = false).
  { destruct (str_eqb mutVar (lit ".")) eqn:E; [|reflexivity].
    apply str_eqb_eq in E. apply (f_equal (@length _)) in E.
    unfold mutVar in E. rewrite !length_app in E. simpl in E. lia. }
  assert (Huv' : str_eqb (u :: uv) (lit ".") = false).
  { destruct (str_eqb (u :: uv) (lit ".")) eqn:E; [|reflexivity].
    apply str_eqb_eq in E. contradiction. }
  destruct (rename_loop_spec (u :: uv) mutVar pfx geo_semicolon post
              ltac:(discriminate) eq_refl Huv' Hmv post [] [] eq_refl
              ltac:(constructor) ltac:(intros [|k] t0; discriminate))
    as (body & -> & Hlen & Hbody).
  exists q, inj, body. split; [lia|]. cbv zeta. fold mutVar.
  split; [apply Hshape; exact Hinj|].
  split; [|split; [exact Hlen|exact Hbody]].
  unfold pfx. rewrite <- !app_assoc. reflexivity.
Qed.

(* ===================================================================== *)
(** ** The properties of the specification *)
(* ===================================================================== *)

(** C1. Round trip: for every source text [T], concatenating the text of
    the tokens of [tokenize T] in order gives back [T], code unit for code
    unit. *)
Theorem tokenize_roundtrip (T : jsstring) :
  join (map value (tokenize T)) = T.
Proof. exact (serialize_tokenize T). Qed.

(** C2, as stated, fails: [x = 1.5] has no entry function, no [return]
    and no [vec3] or [vec4] to anchor a pass, and yet is not returned as it
    is: the Numbers pass, which needs no anchor, rewrites the literal. *)
Lemma fuzzShader_rewrites_unanchored :
  fair half_world
  /\ findMain (tokenize (lit "x = 1.5")) = None
  /\ findReturn (tokenize (lit "x = 1.5")) = None
  /\ existsb is_vec_ctor (tokenize (lit "x = 1.5")) = false
  /\ exists out w',
       fuzzShader (lit "x = 1.5")
         (mkConfig true true true true true true true (num "1.0")) half_world
       = Some (out, w')
       /\ out = lit "x = 1.500"
       /\ out <> lit "x = 1.5".
Proof.
  split; [intros i; vm_compute; reflexivity|].
  split; [vm_compute; reflexivity|].
  split; [vm_compute; reflexivity|].
  split; [vm_compute; reflexivity|].
  destruct (fuzzShader (lit "x = 1.5")
              (mkConfig true true true true true true true (num "1.0")) half_world)
    as [[out w']|] eqn:E; [|vm_compute in E; discriminate].
  exists out, w'. split; [reflexivity|].
  vm_compute in E. injection E as <- <-.
  split; [vm_compute; reflexivity|vm_compute; discriminate].
Qed.

(** C2, amended.  For every source text and every configuration,
    [fuzzShader] ends normally with a string, whatever numbers in [0, 1)
    [Math.random()] returns; when no pass finds anything to act on
    ([no_anchor]: no entry function, no [return], no float literal, no
    operator, no builtin and no swizzle after a dot), the string is the
    input. *)
Theorem fuzzShader_total (code : jsstring) (config : FuzzConfig) (w : World) :
  fair w ->
  exists out w',
    fuzzShader code config w = Some (out, w')
    /\ (no_anchor (tokenize code) = true -> out = code).
Proof.
  intros Hw. destruct (Runs_fuzzShader code config w Hw) as (out & w' & E & _ & H).
  exists out, w'. auto.
Qed.

Lemma fuzzShader_total_witness :
  no_anchor (tokenize (lit "let a = b;")) = true
  /\ exists out w',
       fuzzShader (lit "let a = b;")
         (mkConfig true true true true true true true (num "1.0")) half_world
       = Some (out, w')
       /\ (no_anchor (tokenize (lit "let a = b;")) = true -> out = lit "let a = b;").
Proof.
  split; [vm_compute; reflexivity|].
  apply (fuzzShader_total (lit "let a = b;")
           (mkConfig true true true true true true true (num "1.0")) half_world).
  intros i. vm_compute. reflexivity.
Defined.

(** C3. Neutral configuration: with every flag false, [fuzzShader] returns
    its input when the intensity is not above 0.15; above 0.15 the output is
    the serialization of the input tokens in which only swizzle tokens after
    a [.] may differ, each by a permutation of its characters. *)
Theorem neutral_configuration (T : jsstring) (intensity : jsnum) (w : World) :
  (gtb intensity (num "0.15") = true -> fair w) ->
  let config := mkConfig false false false false false false false intensity in
  if gtb intensity (num "0.15")
  then exists out w',
         fuzzShader T config w = Some (serialize out, w')
         /\ swizzled (tokenize T) out
  else fuzzShader T config w = Some (T, w).
Proof.
  intros Hw config. unfold fuzzShader, config, gated, enabled. cbn [cfg_mutateStructure
    cfg_mutateGeometry cfg_mutateColor cfg_mutateChaos cfg_mutateNumbers
    cfg_mutateOperators cfg_mutateBuiltins cfg_intensity].
  destruct (gtb intensity (num "0.15")) eqn:Eg.
  - destruct (Runs_mutateSwizzle intensity (tokenize T) w (Hw eq_refl))
      as (out & w' & E & _ & H).
    exists out, w'. split; [|exact H].
    unfold bind, ret. rewrite E. reflexivity.
  - unfold bind, ret. now rewrite serialize_tokenize.
Qed.

Lemma neutral_configuration_witness :
  exists out w',
    fuzzShader (lit "v.xy")
      (mkConfig false false false false false false false (num "1.0")) half_world
    = Some (serialize out, w')
    /\ swizzled (tokenize (lit "v.xy")) out.
Proof.
  apply (neutral_configuration (lit "v.xy") (num "1.0") half_world).
  intros _ i. vm_compute. reflexivity.
Defined.

(** C4. Anchor absence: on a token sequence without an identifier token
    [return], the Chaos pass and the Structure pass return the sequence as
    it is and draw no random number; for the tokens of a source text the
    serialized output is that text. *)
Theorem anchor_absence_safety (tokens : list Token) (intensity : jsnum) (w : World) :
  no_return tokens = true ->
  mutateChaos tokens intensity w = Some (tokens, w)
  /\ mutateStructure tokens intensity w = Some (tokens, w)
  /\ forall T, tokens = tokenize T -> serialize tokens = T.
Proof.
  intros H. apply no_return_findReturn in H. split; [|split].
  - now apply mutateChaos_no_return.
  - now apply mutateStructure_no_return.
  - intros T ->. apply serialize_tokenize.
Qed.

Lemma anchor_absence_safety_witness :
  mutateChaos (tokenize (lit "fn main() { let x = 1.0; }")) (num "1.0") half_world
  = Some (tokenize (lit "fn main() { let x = 1.0; }"), half_world)
  /\ mutateStructure (tokenize (lit "fn main() { let x = 1.0; }")) (num "1.0") half_world
     = Some (tokenize (lit "fn main() { let x = 1.0; }"), half_world)
  /\ forall T, tokenize (lit "fn main() { let x = 1.0; }") = tokenize T ->
               serialize (tokenize (lit "fn main() { let x = 1.0; }")) = T.
Proof.
  apply (anchor_absence_safety (tokenize (lit "fn main() { let x = 1.0; }"))
           (num "1.0") half_world).
  vm_compute. reflexivity.
Defined.

(** C5, as stated, fails: the rule "a member-access receiver in the body
    stays as it is" is broken by [uv.x], whose receiver [uv] is renamed. *)
Lemma geometry_receiver_renamed :
  ~ (forall tokens intensity w out w' uvName bodyStart k t,
       geometry_anchors tokens = Some (uvName, bodyStart) ->
       mutateGeometry tokens intensity w = Some (out, w') ->
       nth_error (skipn (bodyStart + 1) tokens) k = Some t ->
       is_receiver (skipn (bodyStart + 1) tokens) k = true ->
       nth_error out (length out - length (skipn (bodyStart + 1) tokens) + k) = Some t).
Proof.
  intros H.
  destruct (mutateGeometry (tokenize scenarioB) (num "1.0") half_world)
    as [[out w']|] eqn:E; [|vm_compute in E; discriminate].
  specialize (H (tokenize scenarioB) (num "1.0") half_world out w' (lit "uv") 20 3
                (mkToken ident (lit "uv") 46)
                ltac:(vm_compute; reflexivity) E
                ltac:(vm_compute; reflexivity) ltac:(vm_compute; reflexivity)).
  vm_compute in E. injection E as <- <-. vm_compute in H. discriminate.
Qed.

(** C5, amended.  When the Geometry pass finds the entry function, a
    coordinate name [uvName] (other than the text [.], which no identifier
    token of the lexer has) and the opening brace of the body, it ends with
    the tokens up to the brace unchanged, followed by an indentation token,
    the tokens of a declaration [var <uvName>_geo_<q> = ...] with [q] an
    integer from 0 to 99999, a [;] token, and the tokens of the body, in
    which exactly the identifier tokens equal to [uvName] whose previous
    non-blank token (in the body) is not a [.] and whose next non-blank token
    is not a [:] carry the new name; receivers such as [uv.x] are renamed.
    When an anchor is missing, the pass returns its input and draws no
    random number. *)
Theorem geometry_rebinds (tokens : list Token) (intensity : jsnum) (w : World) :
  (geometry_anchors tokens = None ->
   mutateGeometry tokens intensity w = Some (tokens, w))
  /\ (forall uvName bodyStart,
        geometry_anchors tokens = Some (uvName, bodyStart) ->
        uvName <> lit "." ->
        fair w ->
        exists q inj body w',
          (0 <= q < 100000)%Z
          /\ let mutVar := uvName ++ lit "_geo_" ++ toString (of_Z q) in
             let post := skipn (bodyStart + 1) tokens in
             (exists rest, inj = lit "var " ++ mutVar ++ lit " = " ++ rest)
             /\ mutateGeometry tokens intensity w
                = Some (firstn (bodyStart + 1) tokens
                          ++ geo_indent :: tokenize inj ++ geo_semicolon :: body, w')
             /\ length body = length post
             /\ forall k t,
                  nth_error post k = Some t ->
                  nth_error body k
                  = Some (if TokenType_eqb (type t) ident && str_eqb (value t) uvName
                             && negb (after_dot post k) && negb (before_colon post k)
                          then with_value t mutVar else t)).
Proof.
  split.
  - apply mutateGeometry_no_anchor.
  - intros uvName bodyStart Ha Huv Hw.
    destruct (Runs_mutateGeometry_found tokens intensity uvName bodyStart Ha Huv w Hw)
      as (out & w' & E & _ & q & inj & body & Hq & Hinj & -> & Hlen & Hbody).
    exists q, inj, body, w'. cbv zeta. auto.
Qed.

Lemma geometry_rebinds_witness :
  exists q inj body w',
    (0 <= q < 100000)%Z
    /\ let mutVar := lit "uv" ++ lit "_geo_" ++ toString (of_Z q) in
       let post := skipn (20 + 1) (tokenize scenarioB) in
       (exists rest, inj = lit "var " ++ mutVar ++ lit " = " ++ rest)
       /\ mutateGeometry (tokenize scenarioB) (num "1.0") half_world
          = Some (firstn (20 + 1) (tokenize scenarioB)
                    ++ geo_indent :: tokenize inj ++ geo_semicolon :: body, w')
       /\ length body = length post
       /\ forall k t,
            nth_error post k = Some t ->
            nth_error body k
            = Some (if TokenType_eqb (type t) ident && str_eqb (value t) (lit "uv")
                       && negb (after_dot post k) && negb (before_colon post k)
                    then with_value t mutVar else t).
Proof.
  apply (proj2 (geometry_rebinds (tokenize scenarioB) (num "1.0") half_world)
           (lit "uv") 20).
  - vm_compute. reflexivity.
  - vm_compute. discriminate.
  - intros i. vm_compute. reflexivity.
Defined.

(** The number in the new name is drawn at random and the name is compared
    with no name of the source (the source comment reads "UNIQUE variable
    name"): applied to its own output, with the same draw, the pass declares
    [uv_geo_50000] a second time. *)
Lemma geometry_name_drawn_twice :
  exists out1 w1 out2 w2,
    mutateGeometry (tokenize scenarioB) (num "1.0") half_world = Some (out1, w1)
    /\ mutateGeometry (tokenize (serialize out1)) (num "1.0") w1 = Some (out2, w2)
    /\ serialize out2
       = lit "fn main(@location(0) uv : vec2<f32>) {" ++ value geo_indent
         ++ lit "var uv_geo_50000 = abs(uv * 2.0 - 1.0);;" ++ value geo_indent
         ++ lit "var uv_geo_50000 = abs(uv_geo_50000 * 2.0 - 1.0);; return uv_geo_50000.x; }".
Proof.
  eexists _, _, _, _.
  split; [vm_compute; reflexivity|].
  split; vm_compute; reflexivity.
Qed.

(** C6. The swizzle [xw], two characters of the coordinate alphabet
    [x, y, z, w], after a [.]: the Swizzle pass never permutes it and draws
    no random number for it, whatever the intensity. *)
Theorem swizzle_ignores_w (intensity : jsnum) (w : World) :
  mutateSwizzle (tokenize swizzle_xw) intensity w = Some (tokenize swizzle_xw, w)
  /\ swizzle_re (lit "xw") = false
  /\ swizzle_re (lit "xy") = true.
Proof.
  split; [apply mutateSwizzle_xw|]. split; reflexivity.
Qed.

(** C7, as stated, fails: a literal whose value overflows binary64 is
    rewritten to the text [Infinity], which is not a decimal. *)
Lemma numbers_overflow_text :
  exists t' w',
    numbers_selects (num "1.0") (mkToken number (lit "1.0e999") 0) half_world = true
    /\ mutateNumbers_token (num "1.0") (mkToken number (lit "1.0e999") 0) half_world
       = Some (t', w')
    /\ value t' = lit "Infinity"
    /\ decimal_text (value t') = false.
Proof.
  eexists _, _. split; [vm_compute; reflexivity|].
  split; [vm_compute; reflexivity|]. split; vm_compute; reflexivity.
Qed.

(** C7, amended.  A literal selected by the Numbers pass is rewritten to the
    text of its perturbed value [newVal]: the text [0.0] when the magnitude
    of [newVal] is below 0.001, and otherwise, when [newVal] is finite with
    a magnitude below [10^21], an optional minus sign, at least one digit, a
    point and exactly three digits. *)
Theorem numbers_text (intensity : jsnum) (t : Token) (w : World) :
  numbers_selects intensity t w = true ->
  let newVal :=
    perturb (parseFloat (value t)) (rng w (S (pos w))) (rng w (S (S (pos w)))) in
  exists t' w',
    mutateNumbers_token intensity t w = Some (t', w')
    /\ type t' = type t /\ index t' = index t
    /\ (ltb (abs newVal) (num "0.001") = true -> value t' = lit "0.0")
    /\ (ltb (abs newVal) (num "0.001") = false -> below_1e21 newVal = true ->
        is_fixed3 (value t') = true /\ decimal_text (value t') = true).
Proof.
  intros Hsel newVal.
  rewrite (mutateNumbers_token_selected intensity t w Hsel). fold newVal.
  eexists _, _. split; [reflexivity|]. split; [reflexivity|]. split; [reflexivity|].
  destruct (number_text_format newVal) as [H1 H2]. split.
  - exact H1.
  - intros Ha Hb. specialize (H2 Ha Hb). split; [exact H2|].
    now apply is_fixed3_decimal_text.
Qed.

Lemma numbers_text_witness :
  let newVal := perturb (parseFloat (lit "2.5")) (num "0.5") (num "0.5") in
  exists t' w',
    mutateNumbers_token (num "1.0") (mkToken number (lit "2.5") 0) half_world
    = Some (t', w')
    /\ type t' = number /\ index t' = 0%Z
    /\ (ltb (abs newVal) (num "0.001") = true -> value t' = lit "0.0")
    /\ (ltb (abs newVal) (num "0.001") = false -> below_1e21 newVal = true ->
        is_fixed3 (value t') = true /\ decimal_text (value t') = true).
Proof.
  apply (numbers_text (num "1.0") (mkToken number (lit "2.5") 0) half_world).
  vm_compute. reflexivity.
Defined.

(** C8. Scenario A: on the tokens of
    [return vec4<f32>(1.0, 0.0, 0.0, 1.0);] the Chaos pass ends, and the
    result reads [return ] followed by one of the five wrapper templates
    around the text [vec4<f32>(1.0, 0.0, 0.0, 1.0)], kept as it was, and
    [;]. *)
Theorem chaos_scenarioA (intensity : jsnum) (w : World) :
  fair w ->
  exists out w',
    mutateChaos (tokenize scenarioA) intensity w = Some (out, w')
    /\ In (serialize out) scenarioA_results
    /\ exists wrapped,
         In wrapped (chaosOptions scenarioA_expr)
         /\ serialize out = lit "return " ++ wrapped ++ lit ";".
Proof.
  intros Hw. destruct (Runs_scenarioA intensity w Hw) as (out & w' & E & _ & H1 & H2).
  exists out, w'. auto.
Qed.

Lemma chaos_scenarioA_witness :
  exists out w',
    mutateChaos (tokenize scenarioA) (num "1.0") half_world = Some (out, w')
    /\ In (serialize out) scenarioA_results
    /\ exists wrapped,
         In wrapped (chaosOptions scenarioA_expr)
         /\ serialize out = lit "return " ++ wrapped ++ lit ";".
Proof.
  apply (chaos_scenarioA (num "1.0") half_world).
  intros i. vm_compute. reflexivity.
Defined.

(** C9, as stated, fails: the depth is a number, and at 9007199254740996,
    the integer 2^53 + 4, the depth [depth - 1] of the recursive calls is
    the depth itself and is not [<= 0]; with every draw 0.5 no call ends by
    chance, and no nesting of the calls, however deep, gives a result. *)
Lemma generateScalarExpr_need_not_end :
  fair half_world
  /\ stuck_depth = of_Z (2 ^ 53 + 4)
  /\ sub stuck_depth (num "1") = stuck_depth
  /\ leb stuck_depth (num "0") = false
  /\ ~ (exists fuel s w',
          generateScalarExpr fuel stuck_depth (lit "uv") half_world = Some (s, w')).
Proof.
  split; [intros i; vm_compute; reflexivity|].
  split; [vm_compute; reflexivity|].
  split; [vm_compute; reflexivity|].
  split; [vm_compute; reflexivity|].
  intros (fuel & s & w' & E).
  rewrite generateScalarExpr_stuck in E by reflexivity. discriminate.
Qed.

(** C9, amended.  For an integer depth up to 2^53,
    [generateScalarExpr depth uvName] ends: allowed to nest [depth + 1]
    calls or more it gives one and the same result, and the number of calls
    of the function in the run, the first one included, is at most
    [2^(depth + 1) - 1] ([1] when [depth <= 0]): a bound in the depth alone,
    whatever the name, the random numbers and the calls made before. *)
Theorem generateScalarExpr_terminates (depth : Z) (uvName : jsstring) (w : World) :
  fair w ->
  (depth <= 2 ^ 53)%Z ->
  exists s w',
    (forall fuel, Z.to_nat depth + 1 <= fuel ->
       generateScalarExpr fuel (of_Z depth) uvName w = Some (s, w'))
    /\ calls w <= calls w'
    /\ calls w' - calls w <= 2 ^ (Z.to_nat depth + 1) - 1.
Proof.
  intros Hw Hd.
  pose proof (nests_within_of_Z depth Hd) as Hn.
  destruct (Runs_generateScalarExpr _ _ uvName Hn w Hw) as (s & w' & E & _ & _).
  exists s, w'. split.
  - intros fuel Hf.
    replace fuel with (Z.to_nat depth + 1 + (fuel - (Z.to_nat depth + 1))) by lia.
    rewrite generateScalarExpr_fuel by exact Hn. exact E.
  - apply Costs_generateScalarExpr in E. lia.
Qed.

Lemma generateScalarExpr_terminates_witness :
  exists s w',
    (forall fuel, Z.to_nat 4 + 1 <= fuel ->
       generateScalarExpr fuel (of_Z 4) (lit "uv") half_world = Some (s, w'))
    /\ calls half_world <= calls w'
    /\ calls w' - calls half_world <= 2 ^ (Z.to_nat 4 + 1) - 1.
Proof.
  apply (generateScalarExpr_terminates 4 (lit "uv") half_world).
  - intros i. vm_compute. reflexivity.
  - apply Z.leb_le. reflexivity.
Defined.

(** C10. Frame: each of the passes Numbers, Operators, Builtins, Color and
    Swizzle ends with a sequence of the length of its input, in which the
    token at every index has the type and the source offset of the input
    token at that index. *)
Theorem tokenwise_frame (tokens : list Token) (intensity : jsnum) (w : World)
  (pass : list Token -> jsnum -> M (list Token)) :
  fair w ->
  In pass [mutateNumbers; mutateOperators; mutateBuiltins; mutateColor; mutateSwizzle] ->
  exists out w',
    pass tokens intensity w = Some (out, w')
    /\ length out = length tokens
    /\ forall i t t',
         nth_error tokens i = Some t -> nth_error out i = Some t' ->
         type t' = type t /\ index t' = index t.
Proof.
  intros Hw Hin.
  assert (HR : Runs (pass tokens intensity) (Frame tokens)).
  { simpl in Hin. decompose [or] Hin; try contradiction; subst pass.
    - eapply Runs_weaken; [apply Runs_map_pass, Runs_mutateNumbers_token|]. now intros o [H _].
    - eapply Runs_weaken; [apply Runs_map_pass, Runs_mutateOperators_token|].
      now intros o [H _].
    - eapply Runs_weaken; [apply Runs_map_pass, Runs_mutateBuiltins_token|].
      now intros o [H _].
    - eapply Runs_weaken; [apply Runs_mutateColor|]. now intros o [H _].
    - eapply Runs_weaken; [apply Runs_mutateSwizzle|]. apply swizzled_Frame. }
  destruct (HR w Hw) as (out & w' & E & _ & HF).
  exists out, w'. split; [exact E|]. split; [now apply Frame_length|].
  intros i t t' Ht Ht'.
  clear -HF Ht Ht'. revert i Ht Ht'.
  induction HF as [|x y l l' Hxy _ IH]; intros [|i]; simpl; try discriminate.
  - intros [= ->] [= ->]. exact Hxy.
  - apply IH.
Qed.

Lemma tokenwise_frame_witness :
  exists out w',
    mutateNumbers (tokenize (lit "1.5 + x.yz")) (num "1.0") half_world = Some (out, w')
    /\ length out = length (tokenize (lit "1.5 + x.yz"))
    /\ forall i t t',
         nth_error (tokenize (lit "1.5 + x.yz")) i = Some t -> nth_error out i = Some t' ->
         type t' = type t /\ index t' = index t.
Proof.
  apply (tokenwise_frame (tokenize (lit "1.5 + x.yz")) (num "1.0") half_world mutateNumbers).
  - intros i. vm_compute. reflexivity.
  - left. reflexivity.
Defined.

(* ===================================================================== *)
(** * Further properties of the code *)
(* ===================================================================== *)

(** Properties that the code shows beyond the specification: of the lexer,
    of the random primitives, of the searches for the anchors, of each
    pass, of the pipeline, and of the presets and the log of the
    application. *)

(* ===================================================================== *)
(** ** The lexer: offsets, shapes, maximal munch *)
(* ===================================================================== *)

Lemma tokenize_from_cons x s i :
  tokenize_from (x :: s) i
  = match first_match patterns (x :: s) with
    | Some (ty, n) =>
        mkToken ty (firstn n (x :: s)) i
          :: tokenize_from (skipn n (x :: s)) (i + Z.of_nat n)
    | None => mkToken unknown [x] i :: tokenize_from s (i + 1)
    end.
Proof.
  funelim (tokenize_from (x :: s) i).
  - rewrite e. reflexivity.
  - rewrite e. reflexivity.
Qed.

(** Induction along the lexer loop. *)
Lemma tokenize_from_ind (P : jsstring -> Z -> list Token -> Prop) :
  (forall i, P [] i []) ->
  (forall x s i ty n,
     first_match patterns (x :: s) = Some (ty, n) -> 1 <= n ->
     P (skipn n (x :: s)) (i + Z.of_nat n)%Z
       (tokenize_from (skipn n (x :: s)) (i + Z.of_nat n)) ->
     P (x :: s) i (mkToken ty (firstn n (x :: s)) i
                     :: tokenize_from (skipn n (x :: s)) (i + Z.of_nat n))) ->
  (forall x s i,
     first_match patterns (x :: s) = None ->
     P s (i + 1)%Z (tokenize_from s (i + 1)) ->
     P (x :: s) i (mkToken unknown [x] i :: tokenize_from s (i + 1))) ->
  forall sub i, P sub i (tokenize_from sub i).
Proof.
  intros Hnil Hmatch Hunknown sub i. funelim (tokenize_from sub i).
  - apply Hnil.
  - apply Hmatch; [exact e|eapply first_match_pos; exact e|].
    apply H; assumption.
  - apply Hunknown; [exact e|]. apply H; assumption.
Qed.

Lemma span_le p s : span p s <= length s.
Proof. induction s as [|x s IH]; simpl; [lia|]. destruct (p x); lia. Qed.

Lemma exponent_len_le s : exponent_len s <= length s.
Proof.
  unfold exponent_len.
  destruct s as [|e rest]; [apply Nat.le_0_l|].
  destruct (N.eqb e (c "e") || N.eqb e (c "E")); [|apply Nat.le_0_l].
  destruct rest as [|sg rest']; [apply Nat.le_0_l|].
  destruct (N.eqb sg (c "+") || N.eqb sg (c "-")).
  - pose proof (span_le is_digit rest').
    destruct (span is_digit rest'); cbn [length] in *; lia.
  - pose proof (span_le is_digit (sg :: rest')).
    destruct (span is_digit (sg :: rest')); cbn [length] in *; lia.
Qed.

Lemma skipn_cons_length {A} n (s : list A) x r :
  skipn n s = x :: r -> length s = n + S (length r).
Proof.
  intros H. pose proof (length_skipn n s) as L. rewrite H in L. simpl in L.
  assert (n < length s); [|lia].
  destruct (le_lt_dec (length s) n) as [Hle|]; [|assumption].
  rewrite skipn_all2 in H by assumption. discriminate.
Qed.

Ltac solve_le H :=
  repeat (break_match_in H; try discriminate);
  try (injection H as H; subst); try discriminate;
  repeat match goal with
         | E : skipn _ _ = _ :: _ |- _ => apply skipn_cons_length in E
         end;
  repeat match goal with
         | |- context [exponent_len ?s] =>
             lazymatch goal with
             | _ : exponent_len s <= length s |- _ => fail
             | _ => pose proof (exponent_len_le s)
             end
         end;
  repeat match goal with
         | |- context [span ?p ?s] =>
             lazymatch goal with
             | _ : span p s <= length s |- _ => fail
             | _ => pose proof (span_le p s)
             end
         end;
  repeat match goal with
         | E : span ?p ?s = _ |- _ =>
             lazymatch goal with
             | _ : span p s <= length s |- _ => fail
             | _ => pose proof (span_le p s)
             end
         end;
  repeat match goal with
         | |- context [length (skipn ?n ?s)] => rewrite (length_skipn n s)
         | _ : context [length (skipn ?n ?s)] |- _ => rewrite (length_skipn n s) in *
         end;
  cbn [length] in *; try lia.

Lemma alternation_le alts s n :
  Forall (fun m => forall k, m s = Some k -> k <= length s) alts ->
  alternation alts s = Some n -> n <= length s.
Proof.
  induction 1 as [|m alts Hm _ IH]; simpl; [discriminate|].
  destruct (m s) eqn:E; [intros [= <-]; auto | exact IH].
Qed.

Lemma num_float_le s k : num_float s = Some k -> k <= length s.
Proof.
  unfold num_float.
  destruct (span is_digit s) as [|d1] eqn:E1; [discriminate|].
  destruct (skipn (S d1) s) as [|p rest] eqn:E2; [discriminate|].
  destruct (N.eqb p (c ".")); [|discriminate].
  destruct (span is_digit rest) as [|d2] eqn:E3; [discriminate|].
  pose proof (exponent_len_le (skipn (S d2) rest)) as He.
  rewrite length_skipn in He. set (X := exponent_len _) in *.
  intros [= <-]. apply skipn_cons_length in E2.
  pose proof (span_le is_digit rest). lia.
Qed.

Lemma num_leading_dot_le s k : num_leading_dot s = Some k -> k <= length s.
Proof.
  unfold num_leading_dot.
  destruct s as [|p rest]; [discriminate|].
  destruct (N.eqb p (c ".")); [|discriminate].
  destruct (span is_digit rest) as [|d] eqn:E3; [discriminate|].
  pose proof (exponent_len_le (skipn (S d) rest)) as He.
  rewrite length_skipn in He. set (X := exponent_len _) in *.
  intros [= <-]. pose proof (span_le is_digit rest). cbn [length]. lia.
Qed.

Lemma re_number_le s n : re_number s = Some n -> n <= length s.
Proof.
  apply alternation_le. repeat constructor; intros k H.
  - unfold num_hex in H. solve_le H.
  - now apply num_float_le.
  - unfold num_trailing_dot in H. solve_le H.
  - now apply num_leading_dot_le.
  - unfold num_int in H. solve_le H.
Qed.

(** A match lies inside the text. *)
Lemma first_match_le sub ty n :
  first_match patterns sub = Some (ty, n) -> n <= length sub.
Proof.
  unfold patterns, first_match. intros H.
  destruct (re_comment sub) eqn:E1.
  { injection H as <- <-. unfold re_comment in E1. solve_le E1. }
  destruct (re_whitespace sub) eqn:E2.
  { injection H as <- <-. unfold re_whitespace in E2. solve_le E2. }
  destruct (re_number sub) eqn:E3.
  { injection H as <- <-. eapply re_number_le; eauto. }
  destruct (re_ident sub) eqn:E4.
  { injection H as <- <-. unfold re_ident in E4. solve_le E4. }
  destruct (re_punct2 sub) eqn:E5.
  { injection H as <- <-. unfold re_punct2 in E5. solve_le E5. }
  destruct (re_punct1 sub) eqn:E6.
  { injection H as <- <-. unfold re_punct1 in E6. solve_le E6. }
  discriminate.
Qed.

Lemma tokenize_from_offsets sub i :
  forall k t, nth_error (tokenize_from sub i) k = Some t ->
    index t = (i + Z.of_nat (length (serialize (firstn k (tokenize_from sub i)))))%Z.
Proof.
  apply tokenize_from_ind with (sub := sub) (i := i); clear sub i.
  - intros i [|k] t; discriminate.
  - intros x s i ty n E Hn IH [|k] t; cbn [nth_error firstn].
    + intros [= <-]. simpl. lia.
    + intros H. rewrite (IH k t H).
      unfold serialize, join. cbn [map concat value]. rewrite length_app.
      assert (length (firstn n (x :: s)) = n).
      { apply firstn_length_le.
        eapply first_match_le; exact E. }
      lia.
  - intros x s i E IH [|k] t; cbn [nth_error firstn].
    + intros [= <-]. simpl. lia.
    + intros H. rewrite (IH k t H).
      unfold serialize, join. cbn [map concat value]. rewrite length_app. simpl. lia.
Qed.

Lemma forallb_span p s : forallb p (firstn (span p s) s) = true.
Proof.
  induction s as [|x s IH]; simpl; [reflexivity|].
  destruct (p x) eqn:E; simpl; [now rewrite E|reflexivity].
Qed.

Lemma span_0_head p x s : span p (x :: s) = 0 -> p x = false.
Proof. simpl. destruct (p x); [discriminate|reflexivity]. Qed.

Lemma span_S_head p x s n : span p (x :: s) = S n -> p x = true /\ span p s = n.
Proof. simpl. destruct (p x); [intros [= <-]; auto|discriminate]. Qed.

Lemma re_number_head x s n :
  re_number (x :: s) = Some n ->
  is_digit x || (N.eqb x (c ".") && match s with y :: _ => is_digit y | [] => false end)
  = true /\ (is_digit x = false -> 2 <= n).
Proof.
  unfold re_number, alternation.
  destruct (num_hex (x :: s)) eqn:E1.
  { intros _. unfold num_hex in E1. destruct s as [|b rest]; [discriminate|].
    destruct (N.eqb x (c "0")) eqn:Ex; [|discriminate].
    apply N.eqb_eq in Ex. subst x. split; [reflexivity|discriminate]. }
  destruct (num_float (x :: s)) eqn:E2.
  { intros _. unfold num_float in E2.
    destruct (span is_digit (x :: s)) eqn:Es; [discriminate|].
    apply span_S_head in Es as [-> _]. split; [reflexivity|discriminate]. }
  destruct (num_trailing_dot (x :: s)) eqn:E3.
  { intros _. unfold num_trailing_dot in E3.
    destruct (span is_digit (x :: s)) eqn:Es; [discriminate|].
    apply span_S_head in Es as [-> _]. split; [reflexivity|discriminate]. }
  destruct (num_leading_dot (x :: s)) eqn:E4.
  { intros [= <-]. unfold num_leading_dot in E4.
    destruct (N.eqb x (c ".")) eqn:Ex; [|discriminate].
    destruct (span is_digit s) eqn:Es; [discriminate|].
    destruct s as [|y s']; [discriminate|].
    apply span_S_head in Es as [-> _]. rewrite orb_true_r.
    split; [reflexivity|]. intros _. injection E4 as <-. lia. }
  destruct (num_int (x :: s)) eqn:E5; [|discriminate].
  intros _. unfold num_int in E5.
  destruct (span is_digit (x :: s)) eqn:Es; [discriminate|].
  apply span_S_head in Es as [-> _]. split; [reflexivity|discriminate].
Qed.

Lemma re_number_None_head x s : re_number (x :: s) = None -> is_digit x = false.
Proof.
  unfold re_number, alternation.
  destruct (num_hex _); [discriminate|]. destruct (num_float _); [discriminate|].
  destruct (num_trailing_dot _); [discriminate|].
  destruct (num_leading_dot _); [discriminate|].
  unfold num_int. destruct (span is_digit (x :: s)) eqn:Es.
  - intros _. eapply span_0_head; eauto.
  - destruct (skipn _ _) as [|u ?]; [discriminate|]. destruct (N.eqb u _); discriminate.
Qed.

(** What the first matching pattern says about the matched text. *)
Lemma first_match_lexeme x s ty n i :
  first_match patterns (x :: s) = Some (ty, n) ->
  lexeme_ok (mkToken ty (firstn n (x :: s)) i) = true.
Proof.
  unfold patterns, first_match, lexeme_ok. cbn [type value]. intros H.
  destruct (re_comment (x :: s)) eqn:E1.
  { injection H as <- <-. unfold re_comment in E1.
    destruct s as [|b rest]; [discriminate|].
    destruct (N.eqb x (c "/") && N.eqb b (c "/")) eqn:Eb; [|discriminate].
    injection E1 as <-. cbn [Nat.add firstn]. rewrite Eb. apply forallb_span. }
  destruct (re_whitespace (x :: s)) eqn:E2.
  { injection H as <- <-. unfold re_whitespace in E2.
    destruct (span is_space (x :: s)) as [|k] eqn:Es; [discriminate|].
    injection E2 as <-. rewrite <- Es.
    pose proof (forallb_span is_space (x :: s)) as F.
    rewrite Es in *. cbn [firstn] in *. exact F. }
  destruct (re_number (x :: s)) eqn:E3.
  { injection H as <- <-. pose proof (re_number_pos _ _ E3) as Hp.
    apply re_number_head in E3 as [E3 E3'].
    destruct n0 as [|k]; [lia|].
    cbn [firstn]. destruct (is_digit x) eqn:Ed; [reflexivity|].
    specialize (E3' eq_refl). destruct k as [|k]; [lia|].
    simpl in E3. destruct s as [|y s']; [rewrite andb_false_r in E3; discriminate|].
    cbn [firstn]. exact E3. }
  destruct (re_ident (x :: s)) eqn:E4.
  { injection H as <- <-. unfold re_ident in E4.
    destruct (is_ident_start x) eqn:Ei; [|discriminate].
    injection E4 as <-. cbn [Nat.add firstn]. rewrite Ei. apply forallb_span. }
  destruct (re_punct2 (x :: s)) eqn:E5.
  { injection H as <- <-. unfold re_punct2 in E5.
    destruct s as [|b rest]; [discriminate|].
    destruct (mem [x; b] _) eqn:Em; [|discriminate].
    injection E5 as <-. cbn [firstn]. exact Em. }
  destruct (re_punct1 (x :: s)) eqn:E6; [|discriminate].
  injection H as <- <-. unfold re_punct1 in E6.
  destruct (includes x _) eqn:Em; [|discriminate].
  injection E6 as <-. cbn [firstn]. exact Em.
Qed.

Lemma first_match_None_lexeme x s i :
  first_match patterns (x :: s) = None ->
  lexeme_ok (mkToken unknown [x] i) = true.
Proof.
  unfold patterns, first_match, lexeme_ok. cbn [type value]. intros H.
  destruct (re_comment (x :: s)); [discriminate|].
  destruct (re_whitespace (x :: s)) eqn:E2; [discriminate|].
  destruct (re_number (x :: s)) eqn:E3; [discriminate|].
  destruct (re_ident (x :: s)) eqn:E4; [discriminate|].
  destruct (re_punct2 (x :: s)); [discriminate|].
  destruct (re_punct1 (x :: s)) eqn:E6; [discriminate|].
  unfold re_whitespace in E2.
  destruct (span is_space (x :: s)) eqn:Es; [|discriminate].
  apply span_0_head in Es. apply re_number_None_head in E3.
  unfold re_ident in E4. destruct (is_ident_start x) eqn:Ei; [discriminate|].
  unfold re_punct1 in E6. fold punct1_chars in E6.
  destruct (includes x punct1_chars); [discriminate|].
  unfold is_word. now rewrite Es, Ei, E3.
Qed.

(** X1. Every token of [tokenize T] carries in [index] the offset of its
    text in [T]: the index is the length of the text of the tokens before it,
    and [T.slice(index, index + value.length)] is the text of the token. *)
Theorem tokenize_offsets (T : jsstring) (k : nat) (t : Token) :
  nth_error (tokenize T) k = Some t ->
  index t = Z.of_nat (length (serialize (firstn k (tokenize T))))
  /\ str_slice T (Z.to_nat (index t)) (Z.to_nat (index t) + length (value t)) = value t.
Proof.
  intros H. pose proof (tokenize_from_offsets T 0 k t H) as Hi.
  fold (tokenize T) in Hi. rewrite Z.add_0_l in Hi. split; [exact Hi|].
  rewrite Hi, Nat2Z.id. unfold str_slice.
  replace (_ + _ - _) with (length (value t)) by lia.
  destruct (nth_error_split _ _ H) as (l1 & l2 & E & Hl).
  rewrite <- (serialize_tokenize T) at 2. rewrite E.
  rewrite firstn_app, Hl, Nat.sub_diag, firstn_O, app_nil_r.
  rewrite <- Hl, firstn_all.
  unfold serialize, join. rewrite map_app, concat_app. cbn [map concat].
  rewrite skipn_app, skipn_all, Nat.sub_diag. cbn [app skipn].
  rewrite firstn_app, firstn_all, Nat.sub_diag, firstn_O. apply app_nil_r.
Qed.

Lemma tokenize_offsets_witness :
  nth_error (tokenize (lit "a+b")) 1 = Some (mkToken punct (lit "+") 1)
  /\ str_slice (lit "a+b") 1 2 = lit "+".
Proof.
  split; [vm_compute; reflexivity|].
  exact (proj2 (tokenize_offsets (lit "a+b") 1 (mkToken punct (lit "+") 1) eq_refl)).
Defined.

(** X2. The lexer makes no empty token, so a text of [n] code units
    has at most [n] tokens. *)
Theorem tokenize_no_empty_token (T : jsstring) :
  Forall (fun t => value t <> []) (tokenize T) /\ length (tokenize T) <= length T.
Proof.
  unfold tokenize. generalize 0%Z.
  intros i. apply tokenize_from_ind with (sub := T) (i := i); clear T i.
  - intros _. split; [constructor|simpl; lia].
  - intros x s i ty n E Hn [IH1 IH2]. split.
    + constructor; [|exact IH1]. cbn [value].
      destruct n; [lia|]. discriminate.
    + cbn [length] in *. rewrite length_skipn in IH2. cbn [length] in IH2. lia.
  - intros x s i E [IH1 IH2]. split.
    + constructor; [discriminate|exact IH1].
    + cbn [length]. lia.
Qed.

Lemma lexemes_tokenize (T : jsstring) : forallb lexeme_ok (tokenize T) = true.
Proof.
  unfold tokenize. generalize 0%Z.
  intros i. apply tokenize_from_ind with (sub := T) (i := i); clear T i.
  - reflexivity.
  - intros x s i ty n E Hn IH. cbn [forallb]. rewrite IH, andb_true_r.
    now apply first_match_lexeme.
  - intros x s i E IH. cbn [forallb]. rewrite IH, andb_true_r.
    eapply first_match_None_lexeme; eauto.
Qed.

(** X3. The text of every token of [tokenize T] has the shape of its
    type: a comment starts with [//] and holds no line terminator, a
    white-space token holds white space only, a number starts with a digit
    or with a point and a digit, an identifier is a letter or [_] followed by
    word characters, a punctuation is one of the seven two-character
    operators or one character of the punctuation class, an [unknown] token
    is a single code unit that is none of these; no token has the type
    [string]. *)
Theorem tokenize_lexemes (T : jsstring) : forallb lexeme_ok (tokenize T) = true.
Proof. exact (lexemes_tokenize T). Qed.

Lemma first_match_whitespace sub n :
  first_match patterns sub = Some (whitespace, n) -> n = span is_space sub.
Proof.
  unfold patterns, first_match.
  destruct (re_comment sub); [discriminate|].
  unfold re_whitespace.
  destruct (span is_space sub) eqn:Es.
  - destruct (re_number sub); [discriminate|]. destruct (re_ident sub); [discriminate|].
    destruct (re_punct2 sub); [discriminate|]. destruct (re_punct1 sub); discriminate.
  - now intros [= <-].
Qed.

Lemma first_match_ident x s n :
  first_match patterns (x :: s) = Some (ident, n) -> n = S (span is_word s).
Proof.
  unfold patterns, first_match.
  destruct (re_comment _); [discriminate|]. destruct (re_whitespace _); [discriminate|].
  destruct (re_number _); [discriminate|].
  unfold re_ident. destruct (is_ident_start x).
  - now intros [= <-].
  - destruct (re_punct2 _); [discriminate|]. destruct (re_punct1 _); discriminate.
Qed.

Lemma span_stop p s y r : skipn (span p s) s = y :: r -> p y = false.
Proof.
  induction s as [|x s IH]; simpl; [discriminate|].
  destruct (p x) eqn:E; simpl.
  - exact IH.
  - now intros [= <- _].
Qed.

(** The first token starts where the text starts. *)
Lemma tokenize_from_head sub i t rest :
  tokenize_from sub i = t :: rest ->
  exists x r, sub = x :: r /\ exists r', value t = x :: r'.
Proof.
  destruct sub as [|x s]; [simp tokenize_from; discriminate|].
  rewrite tokenize_from_cons. intros H. exists x, s. split; [reflexivity|].
  destruct (first_match patterns (x :: s)) as [[ty n]|] eqn:E.
  - injection H as <- _. cbn [value]. apply first_match_pos in E.
    destruct n; [lia|]. cbn [firstn]. eauto.
  - injection H as <- _. cbn [value]. eauto.
Qed.

Lemma tokenize_from_greedy sub i :
  forall k t1 t2,
    nth_error (tokenize_from sub i) k = Some t1 ->
    nth_error (tokenize_from sub i) (S k) = Some t2 ->
    (type t1 = whitespace -> starts_in is_space t2 = false)
    /\ (type t1 = ident -> starts_in is_word t2 = false).
Proof.
  apply tokenize_from_ind with (sub := sub) (i := i); clear sub i.
  - intros i [|k] t1 t2; discriminate.
  - intros x s i ty n E Hn IH [|k] t1 t2; cbn [nth_error]; [|apply IH].
    intros [= <-] H2. cbn [type].
    destruct (tokenize_from (skipn n (x :: s)) (i + Z.of_nat n)) as [|t rest] eqn:Et;
      [discriminate|].
    injection H2 as ->.
    destruct (tokenize_from_head _ _ _ _ Et) as (y & r & Es & r' & Ev).
    unfold starts_in. rewrite Ev. split; intros ->.
    + apply first_match_whitespace in E. subst n. eapply span_stop; eauto.
    + apply first_match_ident in E. subst n. cbn [skipn] in Es.
      eapply span_stop; eauto.
  - intros x s i E IH [|k] t1 t2; cbn [nth_error]; [|apply IH].
    intros [= <-] _. cbn [type]. split; discriminate.
Qed.

(** X4. Maximal munch: in [tokenize T] the token after a white-space
    token does not start with white space, so two white-space tokens never
    follow each other, and the token after an identifier does not start with
    a word character, so it is no identifier. *)
Theorem tokenize_greedy (T : jsstring) (k : nat) (t1 t2 : Token) :
  nth_error (tokenize T) k = Some t1 ->
  nth_error (tokenize T) (S k) = Some t2 ->
  (type t1 = whitespace -> starts_in is_space t2 = false /\ type t2 <> whitespace)
  /\ (type t1 = ident -> starts_in is_word t2 = false /\ type t2 <> ident).
Proof.
  intros H1 H2.
  destruct (tokenize_from_greedy T 0 k t1 t2 H1 H2) as [Hw Hi].
  pose proof (lexemes_tokenize T) as HL. rewrite forallb_forall in HL.
  specialize (HL t2 (nth_error_In _ _ H2)).
  unfold lexeme_ok, starts_in in *.
  split; intros Ht; [specialize (Hw Ht)|specialize (Hi Ht)]; (split; [assumption|]);
    intros E; rewrite E in HL; destruct (value t2) as [|y r]; try discriminate.
  - cbn [forallb] in HL. rewrite Hw in HL. discriminate.
  - unfold is_word in Hi. apply orb_false_elim in Hi as [Hi _].
    rewrite Hi in HL. discriminate.
Qed.

Lemma tokenize_greedy_witness :
  nth_error (tokenize (lit "a  b")) 1 = Some (mkToken whitespace (lit "  ") 1)
  /\ nth_error (tokenize (lit "a  b")) 2 = Some (mkToken ident (lit "b") 3)
  /\ starts_in is_space (mkToken ident (lit "b") 3) = false
  /\ type (mkToken ident (lit "b") 3) <> whitespace.
Proof.
  split; [reflexivity|]. split; [reflexivity|].
  exact (proj1 (tokenize_greedy (lit "a  b") 1 (mkToken whitespace (lit "  ") 1)
                  (mkToken ident (lit "b") 3) eq_refl eq_refl) eq_refl).
Defined.

(* ===================================================================== *)
(** ** The lexer: every token is a lexeme of its own *)
(* ===================================================================== *)

Lemma mem_In s arr : mem s arr = true -> In s arr.
Proof.
  unfold mem. rewrite existsb_exists. intros (x & Hx & E).
  apply str_eqb_eq in E. now subst.
Qed.

Lemma span_firstn p k s : span p (firstn k s) = Nat.min k (span p s).
Proof.
  revert k. induction s as [|x s IH]; intros [|k]; simpl; try reflexivity.
  destruct (p x); [now rewrite IH|reflexivity].
Qed.

Lemma firstn_skipn_swap {A} d k (s : list A) :
  skipn d (firstn (d + k) s) = firstn k (skipn d s).
Proof. rewrite skipn_firstn_comm. f_equal. lia. Qed.

(** *** Each pattern matches the text it matched, taken alone *)

Lemma re_comment_stable s n : re_comment s = Some n -> re_comment (firstn n s) = Some n.
Proof.
  unfold re_comment. destruct s as [|a [|b rest]]; try discriminate.
  destruct (N.eqb a (c "/") && N.eqb b (c "/")) eqn:E; [|discriminate].
  intros [= <-]. cbn [Nat.add firstn]. rewrite E, span_firstn, Nat.min_id. reflexivity.
Qed.

Lemma re_whitespace_stable s n :
  re_whitespace s = Some n -> re_whitespace (firstn n s) = Some n.
Proof.
  unfold re_whitespace. destruct (span is_space s) as [|k] eqn:E; [discriminate|].
  intros [= <-]. now rewrite span_firstn, E, Nat.min_id.
Qed.

Lemma re_ident_stable s n : re_ident s = Some n -> re_ident (firstn n s) = Some n.
Proof.
  unfold re_ident. destruct s as [|x rest]; [discriminate|].
  destruct (is_ident_start x) eqn:E; [|discriminate].
  intros [= <-]. cbn [Nat.add firstn]. rewrite E, span_firstn, Nat.min_id. reflexivity.
Qed.

Lemma re_punct2_stable s n : re_punct2 s = Some n -> re_punct2 (firstn n s) = Some n.
Proof.
  unfold re_punct2. destruct s as [|a [|b rest]]; try discriminate.
  destruct (mem [a; b] _) eqn:E; [|discriminate].
  intros [= <-]. cbn [firstn]. now rewrite E.
Qed.

Lemma re_punct1_stable s n : re_punct1 s = Some n -> re_punct1 (firstn n s) = Some n.
Proof.
  unfold re_punct1. destruct s as [|x rest]; [discriminate|].
  destruct (includes x _) eqn:E; [|discriminate].
  intros [= <-]. cbn [firstn]. now rewrite E.
Qed.

Lemma exponent_len_stable s : exponent_len (firstn (exponent_len s) s) = exponent_len s.
Proof.
  unfold exponent_len at 2 3.
  destruct s as [|e rest]; [reflexivity|].
  destruct (N.eqb e (c "e") || N.eqb e (c "E")) eqn:Ee; [|reflexivity].
  destruct rest as [|sg rest']; [reflexivity|].
  destruct (N.eqb sg (c "+") || N.eqb sg (c "-")) eqn:Es.
  - destruct (span is_digit rest') as [|d] eqn:Ed; [reflexivity|].
    change (2 + S d) with (S (S (S d))). rewrite !firstn_cons.
    unfold exponent_len. rewrite Ee, Es.
    now rewrite span_firstn, Ed, Nat.min_id.
  - destruct (span is_digit (sg :: rest')) as [|d] eqn:Ed; [reflexivity|].
    change (1 + S d) with (S (S d)). rewrite firstn_cons.
    unfold exponent_len. rewrite Ee.
    pose proof (span_firstn is_digit (S d) (sg :: rest')) as Hsp.
    rewrite Ed, Nat.min_id in Hsp. rewrite firstn_cons in *.
    rewrite Es, Hsp. reflexivity.
Qed.

Lemma firstn_cons_inv {A} k (s : list A) x r :
  firstn k s = x :: r -> exists k' s', k = S k' /\ s = x :: s' /\ r = firstn k' s'.
Proof.
  destruct k as [|k]; [discriminate|]. destruct s as [|y s]; [discriminate|].
  rewrite firstn_cons. intros [= -> <-]. eauto.
Qed.

Lemma skipn_span_firstn p k s x r :
  skipn (span p (firstn k s)) (firstn k s) = x :: r ->
  span p (firstn k s) = span p s
  /\ exists r', skipn (span p s) s = x :: r'
                /\ r = firstn (k - span p s - 1) r'.
Proof.
  rewrite span_firstn, skipn_firstn_comm. intros H.
  destruct (Nat.le_gt_cases k (span p s)) as [Hle|Hgt].
  - rewrite Nat.min_l in H by assumption. now rewrite Nat.sub_diag in H.
  - rewrite Nat.min_r in * by lia. split; [reflexivity|].
    apply firstn_cons_inv in H as (k' & s' & Hk & Hs & Hr).
    exists s'. split; [exact Hs|]. rewrite Hr. f_equal. lia.
Qed.

(** *** A match on a prefix gives a match on the text *)

Lemma num_hex_mono k s m : num_hex (firstn k s) = Some m -> num_hex s <> None.
Proof.
  unfold num_hex. destruct (firstn k s) as [|a [|b rest]] eqn:E; try discriminate.
  apply firstn_cons_inv in E as (k1 & s1 & -> & -> & E).
  symmetry in E. apply firstn_cons_inv in E as (k2 & s2 & -> & -> & ->).
  destruct (N.eqb a (c "0") && N.eqb b (c "x")); [|discriminate].
  rewrite span_firstn. destruct (span is_hex s2); [|discriminate].
  now rewrite Nat.min_0_r.
Qed.

Lemma num_float_mono k s m : num_float (firstn k s) = Some m -> num_float s <> None.
Proof.
  intros H. unfold num_float in H.
  destruct (span is_digit (firstn k s)) as [|d1] eqn:E1; [discriminate|].
  destruct (skipn (S d1) (firstn k s)) as [|p rest] eqn:E2; [discriminate|].
  rewrite <- E1 in E2. apply skipn_span_firstn in E2 as (Hsp & r' & Hs & ->).
  rewrite E1 in Hsp. rewrite <- Hsp in Hs.
  unfold num_float. rewrite <- Hsp, Hs.
  destruct (N.eqb p (c ".")); [|discriminate].
  rewrite span_firstn in H. destruct (span is_digit r'); [|discriminate].
  now rewrite Nat.min_0_r in H.
Qed.

Lemma num_leading_dot_mono k s m :
  num_leading_dot (firstn k s) = Some m -> num_leading_dot s <> None.
Proof.
  unfold num_leading_dot. destruct (firstn k s) as [|p rest] eqn:E; [discriminate|].
  apply firstn_cons_inv in E as (k1 & s1 & -> & -> & ->).
  destruct (N.eqb p (c ".")); [|discriminate].
  rewrite span_firstn. destruct (span is_digit s1); [|discriminate].
  now rewrite Nat.min_0_r.
Qed.

(** *** Each alternative of the number pattern, on the text it matched *)

Lemma num_hex_stable s n : num_hex s = Some n -> num_hex (firstn n s) = Some n.
Proof.
  unfold num_hex. destruct s as [|a [|b rest]]; try discriminate.
  destruct (N.eqb a (c "0") && N.eqb b (c "x")) eqn:E; [|discriminate].
  destruct (span is_hex rest) as [|d] eqn:Ed; [discriminate|].
  intros [= <-]. change (2 + S d) with (S (S (S d))). rewrite !firstn_cons.
  now rewrite E, span_firstn, Ed, Nat.min_id.
Qed.

Lemma num_float_stable s n : num_float s = Some n -> num_float (firstn n s) = Some n.
Proof.
  unfold num_float at 1.
  destruct (span is_digit s) as [|d1] eqn:E1; [discriminate|].
  destruct (skipn (S d1) s) as [|p rest] eqn:E2; [discriminate|].
  destruct (N.eqb p (c ".")) eqn:Ep; [|discriminate].
  destruct (span is_digit rest) as [|d2] eqn:E3; [discriminate|].
  set (el := exponent_len (skipn (S d2) rest)). intros H.
  assert (Hn : n = S d1 + 1 + S d2 + el) by congruence. clear H. subst n.
  unfold num_float.
  assert (Hsp : span is_digit (firstn (S d1 + 1 + S d2 + el) s) = S d1).
  { rewrite span_firstn, E1. lia. }
  rewrite Hsp.
  replace (S d1 + 1 + S d2 + el) with (S d1 + (1 + S d2 + el)) by lia.
  rewrite firstn_skipn_swap, E2.
  change (1 + S d2 + el) with (S (S d2 + el)). rewrite firstn_cons, Ep.
  assert (Hsp2 : span is_digit (firstn (S d2 + el) rest) = S d2).
  { rewrite span_firstn, E3. lia. }
  rewrite Hsp2. rewrite firstn_skipn_swap.
  unfold el. rewrite exponent_len_stable. f_equal. lia.
Qed.

Lemma num_trailing_dot_stable s n :
  num_trailing_dot s = Some n -> num_trailing_dot (firstn n s) = Some n.
Proof.
  unfold num_trailing_dot at 1.
  destruct (span is_digit s) as [|d1] eqn:E1; [discriminate|].
  destruct (skipn (S d1) s) as [|p rest] eqn:E2; [discriminate|].
  destruct (N.eqb p (c ".")) eqn:Ep; [|discriminate].
  intros H.
  assert (Hn : n = S d1 + 1).
  { destruct rest as [|x ?]; [now injection H as <-|].
    destruct (_ || _); [discriminate|now injection H as <-]. }
  subst n. clear H. unfold num_trailing_dot.
  assert (Hsp : span is_digit (firstn (S d1 + 1) s) = S d1).
  { rewrite span_firstn, E1. lia. }
  rewrite Hsp, firstn_skipn_swap, E2.
  change (firstn 1 (p :: rest)) with [p]. cbv beta iota. now rewrite Ep.
Qed.

Lemma num_leading_dot_stable s n :
  num_leading_dot s = Some n -> num_leading_dot (firstn n s) = Some n.
Proof.
  unfold num_leading_dot at 1. destruct s as [|p rest]; [discriminate|].
  destruct (N.eqb p (c ".")) eqn:Ep; [|discriminate].
  destruct (span is_digit rest) as [|d] eqn:Ed; [discriminate|].
  set (el := exponent_len (skipn (S d) rest)). intros H.
  assert (Hn : n = S (S d + el)) by (injection H as H; lia). clear H. subst n.
  rewrite firstn_cons.
  unfold num_leading_dot. rewrite Ep.
  assert (Hsp : span is_digit (firstn (S d + el) rest) = S d).
  { rewrite span_firstn, Ed. lia. }
  rewrite Hsp, firstn_skipn_swap. unfold el. now rewrite exponent_len_stable.
Qed.

Lemma num_int_stable s n : num_int s = Some n -> num_int (firstn n s) = Some n.
Proof.
  unfold num_int at 1. destruct (span is_digit s) as [|d] eqn:Ed; [discriminate|].
  assert (Hdigits : num_int (firstn (S d) s) = Some (S d)).
  { unfold num_int. rewrite span_firstn, Ed, Nat.min_id.
    now rewrite skipn_firstn_comm, Nat.sub_diag. }
  destruct (skipn (S d) s) as [|u rest] eqn:E2.
  - intros H. assert (Hn : n = S d) by congruence. now subst n.
  - destruct (N.eqb u (c "u")) eqn:Eu; intros H.
    + assert (Hn : n = S d + 1) by congruence. subst n. clear H.
      unfold num_int.
      assert (Hsp : span is_digit (firstn (S d + 1) s) = S d).
      { rewrite span_firstn, Ed. lia. }
      rewrite Hsp, firstn_skipn_swap, E2.
      change (firstn 1 (u :: rest)) with [u]. cbv beta iota. now rewrite Eu.
    + assert (Hn : n = S d) by congruence. now subst n.
Qed.

Lemma no_match_of_mono {A} (r : option A) (r' : option A) :
  (forall m, r' = Some m -> r <> None) -> r = None -> r' = None.
Proof. intros H E. destruct r' as [m|]; [|reflexivity]. now destruct (H m eq_refl). Qed.

Lemma num_trailing_dot_after_dot p rest :
  N.eqb p (c ".") = true -> num_trailing_dot (p :: rest) = None.
Proof.
  intros E. apply N.eqb_eq in E. subst p. unfold num_trailing_dot.
  change (span is_digit (c "." :: rest)) with 0. reflexivity.
Qed.

Lemma re_number_stable s n : re_number s = Some n -> re_number (firstn n s) = Some n.
Proof.
  unfold re_number, alternation.
  destruct (num_hex s) as [k|] eqn:E1.
  { intros [= ->]. now rewrite (num_hex_stable _ _ E1). }
  destruct (num_float s) as [k|] eqn:E2.
  { intros [= ->].
    rewrite (no_match_of_mono _ _ (num_hex_mono n s) E1).
    now rewrite (num_float_stable _ _ E2). }
  destruct (num_trailing_dot s) as [k|] eqn:E3.
  { intros [= ->].
    rewrite (no_match_of_mono _ _ (num_hex_mono n s) E1).
    rewrite (no_match_of_mono _ _ (num_float_mono n s) E2).
    now rewrite (num_trailing_dot_stable _ _ E3). }
  destruct (num_leading_dot s) as [k|] eqn:E4.
  { intros [= ->].
    rewrite (no_match_of_mono _ _ (num_hex_mono n s) E1).
    rewrite (no_match_of_mono _ _ (num_float_mono n s) E2).
    rewrite (num_leading_dot_stable _ _ E4).
    unfold num_leading_dot in E4. destruct s as [|p rest]; [discriminate|].
    destruct (N.eqb p (c ".")) eqn:Ep; [|discriminate].
    destruct n as [|n]; [destruct (span is_digit rest); discriminate|].
    rewrite firstn_cons. now rewrite (num_trailing_dot_after_dot _ _ Ep). }
  destruct (num_int s) as [k|] eqn:E5; [|discriminate].
  intros [= ->].
  rewrite (no_match_of_mono _ _ (num_hex_mono n s) E1).
  rewrite (no_match_of_mono _ _ (num_float_mono n s) E2).
  rewrite (no_match_of_mono _ _ (num_leading_dot_mono n s) E4).
  rewrite (num_int_stable _ _ E5).
  replace (num_trailing_dot (firstn n s)) with (@None nat); [reflexivity|].
  symmetry. unfold num_int in E5. unfold num_trailing_dot.
  destruct (span is_digit s) as [|d] eqn:Ed; [discriminate|].
  destruct (skipn (S d) s) as [|u rest] eqn:Es.
  - injection E5 as <-. rewrite span_firstn, Ed, Nat.min_id.
    now rewrite skipn_firstn_comm, Nat.sub_diag.
  - destruct (N.eqb u (c "u")) eqn:Eu.
    + assert (Hn : n = S d + 1) by congruence. subst n.
      assert (Hsp : span is_digit (firstn (S d + 1) s) = S d).
      { rewrite span_firstn, Ed. lia. }
      rewrite Hsp, firstn_skipn_swap, Es.
      change (firstn 1 (u :: rest)) with [u]. cbv beta iota.
      apply N.eqb_eq in Eu. subst u. reflexivity.
    + injection E5 as <-. rewrite span_firstn, Ed, Nat.min_id.
      now rewrite skipn_firstn_comm, Nat.sub_diag.
Qed.

Lemma re_comment_mono k s m : re_comment (firstn k s) = Some m -> re_comment s <> None.
Proof.
  unfold re_comment. destruct (firstn k s) as [|a [|b rest]] eqn:E; try discriminate.
  apply firstn_cons_inv in E as (k1 & s1 & -> & -> & E).
  symmetry in E. apply firstn_cons_inv in E as (k2 & s2 & -> & -> & ->).
  destruct (N.eqb a (c "/") && N.eqb b (c "/")); discriminate.
Qed.

Lemma re_whitespace_mono k s m :
  re_whitespace (firstn k s) = Some m -> re_whitespace s <> None.
Proof.
  unfold re_whitespace. rewrite span_firstn.
  destruct (span is_space s); [|discriminate]. now rewrite Nat.min_0_r.
Qed.

Lemma ident_start_not_number x :
  is_ident_start x = true -> is_digit x = false /\ N.eqb x (c ".") = false.
Proof.
  unfold is_ident_start, is_digit, in_range. intros H. split.
  - destruct (N.leb_spec (c "0") x), (N.leb_spec x (c "9")); try reflexivity.
    exfalso. cbn in *.
    repeat match goal with
           | H : context [N.leb ?a ?b] |- _ => destruct (N.leb_spec a b)
           | H : context [N.eqb ?a ?b] |- _ => destruct (N.eqb_spec a b)
           end; simpl in H; try discriminate; lia.
  - destruct (N.eqb_spec x (c ".")) as [->|]; [discriminate H|reflexivity].
Qed.

Lemma re_number_no_head x r :
  is_digit x = false -> N.eqb x (c ".") = false -> re_number (x :: r) = None.
Proof.
  intros Hd Hp. destruct (re_number (x :: r)) as [n|] eqn:E; [|reflexivity].
  apply re_number_head in E as [E _]. now rewrite Hd, Hp in E.
Qed.

Lemma first_match_stable sub ty n :
  first_match patterns sub = Some (ty, n) ->
  first_match patterns (firstn n sub) = Some (ty, n).
Proof.
  unfold patterns, first_match. intros H.
  destruct (re_comment sub) as [k|] eqn:E1.
  { injection H as <- <-. now rewrite (re_comment_stable _ _ E1). }
  destruct (re_whitespace sub) as [k|] eqn:E2.
  { injection H as <- <-.
    rewrite (no_match_of_mono _ _ (re_comment_mono k sub) E1).
    now rewrite (re_whitespace_stable _ _ E2). }
  destruct (re_number sub) as [k|] eqn:E3.
  { injection H as <- <-.
    rewrite (no_match_of_mono _ _ (re_comment_mono k sub) E1).
    rewrite (no_match_of_mono _ _ (re_whitespace_mono k sub) E2).
    now rewrite (re_number_stable _ _ E3). }
  destruct (re_ident sub) as [k|] eqn:E4.
  { injection H as <- <-.
    rewrite (no_match_of_mono _ _ (re_comment_mono k sub) E1).
    rewrite (no_match_of_mono _ _ (re_whitespace_mono k sub) E2).
    rewrite (re_ident_stable _ _ E4).
    unfold re_ident in E4. destruct sub as [|x rest]; [discriminate|].
    destruct (is_ident_start x) eqn:Ex; [|discriminate].
    injection E4 as <-. cbn [Nat.add]. rewrite firstn_cons.
    destruct (ident_start_not_number x Ex) as [Hd Hp].
    now rewrite (re_number_no_head _ _ Hd Hp). }
  destruct (re_punct2 sub) as [k|] eqn:E5.
  { injection H as <- <-. unfold re_punct2 in E5.
    destruct sub as [|a [|b rest]]; try discriminate.
    destruct (mem [a; b] _) eqn:Em; [|discriminate].
    injection E5 as <-. rewrite !firstn_cons, firstn_O.
    apply mem_In in Em. cbn [In] in Em.
    decompose [or] Em; try contradiction;
      match goal with E : _ = [a; b] |- _ => injection E as <- <- end; reflexivity. }
  destruct (re_punct1 sub) as [k|] eqn:E6; [|discriminate].
  injection H as <- <-. unfold re_punct1 in E6.
  destruct sub as [|x rest]; [discriminate|].
  destruct (includes x _) eqn:Em; [|discriminate].
  injection E6 as <-. rewrite firstn_cons, firstn_O.
  unfold includes in Em. apply existsb_exists in Em as (y & Hy & Exy).
  apply N.eqb_eq in Exy. subst y. cbn [In lit map list_ascii_of_string] in Hy.
  decompose [or] Hy; try contradiction; subst x; reflexivity.
Qed.

Lemma first_match_None_single x s :
  first_match patterns (x :: s) = None -> first_match patterns [x] = None.
Proof.
  intros H. pose proof (first_match_None_lexeme x s 0 H) as HL.
  unfold lexeme_ok in HL. cbn [type value] in HL.
  apply andb_prop in HL as [HL Hp]. apply andb_prop in HL as [Hs Hw].
  apply negb_true_iff in Hs, Hw, Hp.
  unfold is_word in Hw. apply orb_false_elim in Hw as [Hi Hd].
  unfold patterns, first_match.
  change (re_comment [x]) with (@None nat).
  unfold re_whitespace. cbn [span]. rewrite Hs.
  assert (Hdot : N.eqb x (c ".") = false).
  { destruct (N.eqb_spec x (c ".")) as [->|]; [discriminate Hp|reflexivity]. }
  rewrite (re_number_no_head _ _ Hd Hdot).
  unfold re_ident. rewrite Hi.
  change (re_punct2 [x]) with (@None nat).
  unfold re_punct1. fold punct1_chars. now rewrite Hp.
Qed.

Lemma relex_tokenize_from sub i :
  forall t, In t (tokenize_from sub i) ->
    tokenize (value t) = [mkToken (type t) (value t) 0].
Proof.
  apply tokenize_from_ind with (sub := sub) (i := i); clear sub i.
  - intros i t [].
  - intros x s i ty n E Hn IH t [<-|Hin]; [|now apply IH].
    cbn [type value]. pose proof (first_match_le _ _ _ E) as Hle.
    pose proof (first_match_stable _ _ _ E) as Est.
    destruct n as [|n]; [lia|]. rewrite firstn_cons in *.
    unfold tokenize. rewrite tokenize_from_cons, Est.
    rewrite <- firstn_cons. rewrite firstn_firstn, Nat.min_id.
    rewrite skipn_firstn_comm, Nat.sub_diag, firstn_O.
    simp tokenize_from. reflexivity.
  - intros x s i E IH t [<-|Hin]; [|now apply IH].
    cbn [type value]. unfold tokenize.
    rewrite tokenize_from_cons, (first_match_None_single _ _ E).
    simp tokenize_from. reflexivity.
Qed.

(** X5. Every token is a lexeme of its own: the lexer makes of the
    text of a token of [tokenize T] that one token, with the same type, at
    index 0. *)
Theorem tokenize_relex (T : jsstring) (t : Token) :
  In t (tokenize T) -> tokenize (value t) = [mkToken (type t) (value t) 0].
Proof. apply relex_tokenize_from. Qed.

Lemma tokenize_relex_witness :
  tokenize (lit "1.5e3") = [mkToken number (lit "1.5e3") 0].
Proof.
  apply (tokenize_relex (lit "x*1.5e3;") (mkToken number (lit "1.5e3") 2)).
  right. right. left. reflexivity.
Defined.

(* ===================================================================== *)
(** ** Random choice; what Operators and Builtins write; quiet random sequences *)
(* ===================================================================== *)

Lemma drawn_0 w : drawn 0 w = w.
Proof. destruct w. unfold drawn. simpl. now rewrite Nat.add_0_r. Qed.

Lemma drawn_S n w : drawn n (drawn 1 w) = drawn (S n) w.
Proof. unfold drawn. simpl. f_equal. lia. Qed.

Lemma random_drawn w : random w = Some (rng w (pos w), drawn 1 w).
Proof. unfold random, drawn. now rewrite Nat.add_1_r. Qed.

Lemma of_nat_0 : of_nat 0 = S754_zero false.
Proof. reflexivity. Qed.

Lemma getRandomItem_nil {T} (w : World) : getRandomItem (@nil T) w = None.
Proof.
  unfold getRandomItem, bind. rewrite random_drawn. cbn [length].
  rewrite of_nat_0.
  destruct (rng w (pos w)) as [s|s| |s m e]; reflexivity.
Qed.

(** X6. [getRandomItem] of an empty array gives [undefined] (the
    abnormal end of the model) whatever [Math.random()] returns; of an array
    that is not empty it returns an element of the array and reads one
    random number, for every random number in [0, 1): the index
    [Math.floor(r * length)] never reaches [length]. *)
Theorem getRandomItem_in_bounds {T} (arr : list T) (w : World) :
  (arr = [] -> getRandomItem arr w = None)
  /\ (arr <> [] -> (Z.of_nat (length arr) < 2 ^ 32)%Z ->
      unit_draw (rng w (pos w)) = true ->
      exists x, getRandomItem arr w = Some (x, drawn 1 w) /\ In x arr).
Proof.
  split.
  - intros ->. apply getRandomItem_nil.
  - intros Hne Hlen Hr.
    assert (H1 : 1 <= length arr) by (destruct arr; [congruence|simpl; lia]).
    assert (H2 : (Z.of_nat (length arr) < 2 ^ 53)%Z) by lia.
    destruct (FloatFacts.pick_lt _ _ Hr H1 H2) as (k & Ek & Hk).
    unfold getRandomItem, bind. rewrite random_drawn, Ek.
    destruct (nth_error arr k) as [x|] eqn:Ex.
    + exists x. split; [reflexivity|]. eapply nth_error_In; eauto.
    + apply nth_error_None in Ex. lia.
Qed.

Lemma getRandomItem_in_bounds_witness :
  exists x, getRandomItem [1; 2; 3] half_world = Some (x, drawn 1 half_world)
            /\ In x [1; 2; 3].
Proof.
  apply (proj2 (getRandomItem_in_bounds [1; 2; 3] half_world)).
  - discriminate.
  - vm_compute. reflexivity.
  - vm_compute. reflexivity.
Defined.

Lemma fair_drawn n w : fair w -> fair (drawn n w).
Proof. intros H i. apply H. Qed.

Lemma shuffle_loop_draws i : forall arr w,
  fair w -> i < length arr -> (Z.of_nat (length arr) < 2 ^ 53)%Z ->
  exists s, shuffle_loop i arr w = Some (s, drawn i w)
            /\ Permutation arr s.
Proof.
  induction i as [|i IH]; intros arr w Hw Hi Hlen.
  - exists arr. rewrite drawn_0. split; [reflexivity|apply Permutation_refl].
  - rewrite shuffle_loop_S. unfold bind. rewrite random_drawn.
    destruct (FloatFacts.pick_lt (rng w (pos w)) (S i + 1) (Hw _) ltac:(lia) ltac:(lia))
      as (j & -> & Hj).
    destruct (nth_error arr (S i)) as [ai|] eqn:Eai;
      [|apply nth_error_None in Eai; lia].
    destruct (nth_error arr j) as [aj|] eqn:Eaj;
      [|apply nth_error_None in Eaj; lia].
    destruct (IH (set_nth (set_nth arr (S i) aj) j ai) (drawn 1 w))
      as (s & Es & Hs).
    + now apply fair_drawn.
    + rewrite !length_set_nth. lia.
    + now rewrite !length_set_nth.
    + exists s. rewrite Es, drawn_S. split; [reflexivity|].
      eapply Permutation_trans; [|exact Hs]. now apply swap_Permutation.
Qed.

(** X7. [shuffleString(str)] returns a permutation of the code
    units of [str], of the same length, and reads [length - 1] random numbers
    (none for the empty string). *)
Theorem shuffleString_permutes (str : jsstring) (w : World) :
  fair w -> (Z.of_nat (length str) < 2 ^ 32)%Z ->
  exists s, shuffleString str w = Some (s, drawn (length str - 1) w)
            /\ Permutation str s /\ length s = length str.
Proof.
  intros Hw Hlen. unfold shuffleString.
  destruct str as [|x str].
  - exists []. simpl. rewrite drawn_0. repeat split. constructor.
  - destruct (shuffle_loop_draws (length (x :: str) - 1) (x :: str) w Hw) as (s & E & P).
    + simpl. lia.
    + lia.
    + exists s. split; [exact E|]. split; [exact P|].
      symmetry. now apply Permutation_length.
Qed.

Lemma shuffleString_permutes_witness :
  exists s, shuffleString (lit "xyz") half_world = Some (s, drawn 2 half_world)
            /\ Permutation (lit "xyz") s /\ length s = 3.
Proof.
  apply (shuffleString_permutes (lit "xyz") half_world).
  - intros i. vm_compute. reflexivity.
  - vm_compute. reflexivity.
Defined.

Lemma TokenType_eqb_eq a b : TokenType_eqb a b = true -> a = b.
Proof. destruct a, b; simpl; congruence. Qed.

Section Within.

Variable intensity : jsnum.

Lemma Runs_mutateOperators_token_within t :
  Runs (mutateOperators_token intensity t) (replaced_within punct OPS t).
Proof.
  unfold mutateOperators_token.
  destruct (TokenType_eqb (type t) punct && mem (value t) OPS) eqn:E;
    [|apply Runs_ret; now left].
  apply andb_prop in E as [Ety Em]. apply TokenType_eqb_eq in Ety. apply mem_In in Em.
  eapply Runs_bind; [apply Runs_random|]. intros r _.
  destruct (ltb r intensity); [|apply Runs_ret; now left].
  eapply Runs_bind; [apply Runs_getRandomItem; simpl; lia|]. intros v Hv.
  apply Runs_ret. right. split; [exact Ety|]. split; [exact Em|].
  exists v. split; [exact Hv|reflexivity].
Qed.

Lemma Runs_mutateBuiltins_token_within t :
  Runs (mutateBuiltins_token intensity t) (replaced_within ident SAFE_BUILTINS t).
Proof.
  unfold mutateBuiltins_token.
  destruct (TokenType_eqb (type t) ident && mem (value t) SAFE_BUILTINS) eqn:E;
    [|apply Runs_ret; now left].
  apply andb_prop in E as [Ety Em]. apply TokenType_eqb_eq in Ety. apply mem_In in Em.
  eapply Runs_bind; [apply Runs_random|]. intros r _.
  destruct (ltb r intensity); [|apply Runs_ret; now left].
  eapply Runs_bind; [apply Runs_getRandomItem; simpl; lia|]. intros v Hv.
  apply Runs_ret. right. split; [exact Ety|]. split; [exact Em|].
  exists v. split; [exact Hv|reflexivity].
Qed.

End Within.

(** X8. The Operators pass ends, and each token of its result is
    the input token, or an input punctuation [+], [-], [*] or [/] whose text
    is again one of these four: no other token, such as [->] or [==], is
    changed. *)
Theorem mutateOperators_within (tokens : list Token) (intensity : jsnum) (w : World) :
  fair w ->
  exists out w',
    mutateOperators tokens intensity w = Some (out, w')
    /\ Forall2 (replaced_within punct OPS) tokens out.
Proof.
  intros Hw.
  destruct (Runs_mapM (mutateOperators_token intensity) (replaced_within punct OPS) tokens
              (fun t _ => Runs_mutateOperators_token_within intensity t) w Hw)
    as (out & w' & E & _ & H).
  exists out, w'. split; assumption.
Qed.

Lemma mutateOperators_within_witness :
  exists out w',
    mutateOperators (tokenize (lit "a - b -> c")) (num "1.0") half_world = Some (out, w')
    /\ Forall2 (replaced_within punct OPS) (tokenize (lit "a - b -> c")) out.
Proof.
  apply (mutateOperators_within (tokenize (lit "a - b -> c")) (num "1.0") half_world).
  intros i. vm_compute. reflexivity.
Defined.

(** X9. The Builtins pass ends, and each token of its result is the
    input token, or an input identifier of [SAFE_BUILTINS] whose text is
    again a name of [SAFE_BUILTINS]. *)
Theorem mutateBuiltins_within (tokens : list Token) (intensity : jsnum) (w : World) :
  fair w ->
  exists out w',
    mutateBuiltins tokens intensity w = Some (out, w')
    /\ Forall2 (replaced_within ident SAFE_BUILTINS) tokens out.
Proof.
  intros Hw.
  destruct (Runs_mapM (mutateBuiltins_token intensity)
              (replaced_within ident SAFE_BUILTINS) tokens
              (fun t _ => Runs_mutateBuiltins_token_within intensity t) w Hw)
    as (out & w' & E & _ & H).
  exists out, w'. split; assumption.
Qed.

Lemma mutateBuiltins_within_witness :
  exists out w',
    mutateBuiltins (tokenize (lit "sin(x) + exp(y)")) (num "1.0") half_world
    = Some (out, w')
    /\ Forall2 (replaced_within ident SAFE_BUILTINS) (tokenize (lit "sin(x) + exp(y)")) out.
Proof.
  apply (mutateBuiltins_within (tokenize (lit "sin(x) + exp(y)")) (num "1.0") half_world).
  intros i. vm_compute. reflexivity.
Defined.

Lemma quiet_same_rng i w w' : rng w' = rng w -> quiet i w -> quiet i w'.
Proof. unfold quiet. intros -> H. exact H. Qed.

Lemma Quiet_ret {A} i (a : A) (Q : A -> Prop) : Q a -> Quiet i (ret a) Q.
Proof. intros HQ w _. exists a, w. auto. Qed.

Lemma Quiet_bind {A B} i (m : M A) (k : A -> M B) (P : A -> Prop) (Q : B -> Prop) :
  Quiet i m P -> (forall a, P a -> Quiet i (k a) Q) -> Quiet i (bind m k) Q.
Proof.
  intros Hm Hk w Hw. destruct (Hm w Hw) as (a & w1 & E1 & R1 & Pa).
  destruct (Hk a Pa w1 (quiet_same_rng i w w1 R1 Hw)) as (b & w2 & E2 & R2 & Qb).
  exists b, w2. unfold bind. rewrite E1. repeat split; auto. congruence.
Qed.

Lemma Quiet_random i : Quiet i random (fun r => ltb r i = false).
Proof.
  intros w Hw. eexists _, _. split; [reflexivity|]. split; [reflexivity|]. apply Hw.
Qed.

Lemma Quiet_mapM {A} i (f : A -> M A) (l : list A) :
  (forall x, Quiet i (f x) (eq x)) -> Quiet i (mapM f l) (eq l).
Proof.
  intros Hf. induction l as [|x l IH]; simpl.
  - now apply Quiet_ret.
  - eapply Quiet_bind; [apply Hf|]. intros y <-.
    eapply Quiet_bind; [apply IH|]. intros ys <-. now apply Quiet_ret.
Qed.

Section QuietPasses.

Variable intensity : jsnum.

Lemma Quiet_mutateNumbers tokens : Quiet intensity (mutateNumbers tokens intensity) (eq tokens).
Proof.
  apply Quiet_mapM. intros t. unfold mutateNumbers_token.
  destruct (_ && _); [|now apply Quiet_ret].
  eapply Quiet_bind; [apply Quiet_random|]. intros r ->. now apply Quiet_ret.
Qed.

Lemma Quiet_mutateOperators tokens :
  Quiet intensity (mutateOperators tokens intensity) (eq tokens).
Proof.
  apply Quiet_mapM. intros t. unfold mutateOperators_token.
  destruct (_ && _); [|now apply Quiet_ret].
  eapply Quiet_bind; [apply Quiet_random|]. intros r ->. now apply Quiet_ret.
Qed.

Lemma Quiet_mutateBuiltins tokens :
  Quiet intensity (mutateBuiltins tokens intensity) (eq tokens).
Proof.
  apply Quiet_mapM. intros t. unfold mutateBuiltins_token.
  destruct (_ && _); [|now apply Quiet_ret].
  eapply Quiet_bind; [apply Quiet_random|]. intros r ->. now apply Quiet_ret.
Qed.

Lemma Quiet_for_each_index body tokens n : forall i0,
  (forall i, i0 <= i < i0 + n -> Quiet intensity (body tokens i) (eq tokens)) ->
  Quiet intensity (for_each_index body n i0 tokens) (eq tokens).
Proof.
  induction n as [|n IH]; intros i0 Hbody; simpl.
  - now apply Quiet_ret.
  - eapply Quiet_bind; [apply Hbody; lia|]. intros cur <-.
    apply IH. intros i Hi. apply Hbody. lia.
Qed.

Lemma Quiet_mutateSwizzle tokens :
  Quiet intensity (mutateSwizzle tokens intensity) (eq tokens).
Proof.
  unfold mutateSwizzle. apply Quiet_for_each_index. intros i Hi.
  unfold swizzle_at. destruct (_ && _); [|now apply Quiet_ret].
  destruct (nth_error tokens (i + 1)) as [next|] eqn:En;
    [|apply nth_error_None in En; lia].
  destruct (_ && _); [|now apply Quiet_ret].
  eapply Quiet_bind; [apply Quiet_random|]. intros r ->. now apply Quiet_ret.
Qed.

Lemma Quiet_gated flag pass tokens :
  Quiet intensity (gated flag intensity pass tokens) (eq tokens).
Proof.
  unfold gated. destruct flag; [|now apply Quiet_ret].
  eapply Quiet_bind; [apply Quiet_random|]. intros r ->. now apply Quiet_ret.
Qed.

Lemma Quiet_enabled flag pass tokens :
  Quiet intensity (pass tokens intensity) (eq tokens) ->
  Quiet intensity (enabled flag intensity pass tokens) (eq tokens).
Proof. intros H. unfold enabled. destruct flag; [exact H|now apply Quiet_ret]. Qed.

End QuietPasses.

(** X10. When no random number is below the intensity, as for
    intensity 0, [fuzzShader] returns the source text unchanged, whatever the
    flags. *)
Theorem fuzzShader_quiet (code : jsstring) (config : FuzzConfig) (w : World) :
  quiet (cfg_intensity config) w ->
  exists w', fuzzShader code config w = Some (code, w').
Proof.
  intros Hw.
  assert (H : Quiet (cfg_intensity config) (fuzzShader code config) (eq code)).
  { unfold fuzzShader.
    eapply Quiet_bind; [apply Quiet_gated|]. intros ? <-.
    eapply Quiet_bind; [apply Quiet_gated|]. intros ? <-.
    eapply Quiet_bind; [apply Quiet_gated|]. intros ? <-.
    eapply Quiet_bind; [apply Quiet_gated|]. intros ? <-.
    eapply Quiet_bind; [apply Quiet_enabled, Quiet_mutateNumbers|]. intros ? <-.
    eapply Quiet_bind; [apply Quiet_enabled, Quiet_mutateOperators|]. intros ? <-.
    eapply Quiet_bind; [apply Quiet_enabled, Quiet_mutateBuiltins|]. intros ? <-.
    eapply Quiet_bind; [apply Quiet_enabled, Quiet_mutateSwizzle|]. intros ? <-.
    apply Quiet_ret. symmetry. apply serialize_tokenize. }
  destruct (H w Hw) as (a & w' & E & _ & <-). eauto.
Qed.

Lemma fuzzShader_quiet_witness :
  exists w',
    fuzzShader triangle (mkConfig true true true true true true true (num "0")) half_world
    = Some (triangle, w').
Proof.
  apply (fuzzShader_quiet triangle
           (mkConfig true true true true true true true (num "0")) half_world).
  intros i. vm_compute. reflexivity.
Defined.

(* ===================================================================== *)
(** ** The searches, and the Chaos pass on any array *)
(* ===================================================================== *)

Lemma for_find_down_Some n hit k :
  for_find_down n hit = Some k ->
  k < n /\ hit k = true /\ forall j, k < j < n -> hit j = false.
Proof.
  induction n as [|n IH]; simpl; [discriminate|].
  destruct (hit n) eqn:E.
  - intros [= <-]. repeat split; [lia|exact E|]. intros j Hj. lia.
  - intros H. destruct (IH H) as (H1 & H2 & H3). repeat split; [lia|exact H2|].
    intros j Hj. destruct (Nat.eq_dec j n) as [->|]; [exact E|]. apply H3. lia.
Qed.

Lemma for_find_down_None_inv n hit :
  for_find_down n hit = None -> forall i, i < n -> hit i = false.
Proof.
  induction n as [|n IH]; simpl; intros H i Hi; [lia|].
  destruct (hit n) eqn:E; [discriminate|].
  destruct (Nat.eq_dec i n) as [->|]; [exact E|]. apply IH; [exact H|lia].
Qed.

Lemma for_find_first n i hit k :
  for_find n i hit = Some k -> forall j, i <= j < k -> hit j = false.
Proof.
  revert i. induction n as [|n IH]; intros i; simpl; [discriminate|].
  destruct (hit i) eqn:E.
  - intros [= <-] j Hj. lia.
  - intros H j Hj. destruct (Nat.eq_dec j i) as [->|]; [exact E|].
    apply (IH _ H). lia.
Qed.

Lemma for_find_None n i hit :
  for_find n i hit = None -> forall j, i <= j < i + n -> hit j = false.
Proof.
  revert i. induction n as [|n IH]; intros i; simpl; [intros _ j Hj; lia|].
  destruct (hit i) eqn:E; [discriminate|].
  intros H j Hj. destruct (Nat.eq_dec j i) as [->|]; [exact E|].
  apply (IH _ H). lia.
Qed.

Lemma is_return_hit tokens i t :
  nth_error tokens i = Some t ->
  type_is tokens i ident && value_is tokens i (lit "return") = is_return t.
Proof. intros H. unfold type_is, value_is, is_return. now rewrite H. Qed.

(** X11. The search for [return] finds the last identifier token
    [return] of the array, and finds none only when the array has none. *)
Theorem findReturn_last (tokens : list Token) :
  match findReturn tokens with
  | Some i =>
      (exists t, nth_error tokens i = Some t /\ is_return t = true)
      /\ forall j t, i < j -> nth_error tokens j = Some t -> is_return t = false
  | None => forall t, In t tokens -> is_return t = false
  end.
Proof.
  unfold findReturn.
  destruct (for_find_down _ _) as [i|] eqn:E.
  - apply for_find_down_Some in E as (Hi & Hhit & Hlater). split.
    + destruct (nth_error tokens i) as [t|] eqn:Et;
        [|apply nth_error_None in Et; lia].
      exists t. split; [reflexivity|]. now rewrite <- (is_return_hit tokens i t Et).
    + intros j t Hj Ht. rewrite <- (is_return_hit tokens j t Ht). apply Hlater.
      split; [exact Hj|]. apply nth_error_Some. congruence.
  - intros t Hin. apply In_nth_error in Hin as (j & Ht).
    rewrite <- (is_return_hit tokens j t Ht).
    apply (for_find_down_None_inv _ _ E). apply nth_error_Some. congruence.
Qed.

Lemma while_skip_ge n j p : j <= while_skip n j p.
Proof.
  revert j. induction n as [|n IH]; intros j; simpl; [lia|].
  destruct (p j); [|lia]. specialize (IH (S j)). lia.
Qed.

Lemma uv_by_location_occurs tokens n : forall i u r,
  uv_by_location tokens n i = u :: r ->
  exists k t, i < k /\ nth_error tokens k = Some t /\ type t = ident /\ value t = u :: r.
Proof.
  induction n as [|n IH]; intros i u r; cbn [uv_by_location]; [discriminate|].
  destruct (value_is tokens i (lit ")")); [discriminate|].
  assert (Hrec : uv_by_location tokens n (S i) = u :: r ->
                 exists k t, i < k /\ nth_error tokens k = Some t /\ type t = ident
                             /\ value t = u :: r).
  { intros H. destruct (IH _ _ _ H) as (k & t & Hk & Ht). exists k, t.
    split; [lia|exact Ht]. }
  destruct (value_is tokens i (lit "location")); [|exact Hrec].
  set (j := skip_ws tokens (skip_until tokens (i + 1) (lit ")") + 1)).
  assert (Hj : i < j).
  { unfold j, skip_ws, skip_until.
    pose proof (while_skip_ge (length tokens - (i + 1)) (i + 1)
                  (fun k => negb (value_is tokens k (lit ")")))) as H1.
    match goal with |- _ < while_skip ?n ?a ?p => pose proof (while_skip_ge n a p) end.
    lia. }
  destruct (nth_error tokens j) as [t|] eqn:Et; [|exact Hrec].
  destruct (TokenType_eqb (type t) ident) eqn:Ety; [|exact Hrec].
  intros Hv. exists j, t. repeat split; auto.
  destruct (type t); try discriminate; reflexivity.
Qed.

Lemma uv_literal_occurs tokens n : forall i u r,
  uv_literal tokens n i = u :: r ->
  u :: r = lit "uv" /\ exists k, i <= k /\ value_is tokens k (lit "uv") = true.
Proof.
  induction n as [|n IH]; intros i u r; cbn [uv_literal]; [discriminate|].
  destruct (value_is tokens i (lit ")")); [discriminate|].
  destruct (value_is tokens i (lit "uv")) eqn:E.
  - intros <-. split; [reflexivity|]. exists i. split; [lia|exact E].
  - intros H. destruct (IH _ _ _ H) as (-> & k & Hk & Hv). split; [reflexivity|].
    exists k. split; [lia|exact Hv].
Qed.

Lemma findUVName_token (tokens : list Token) (mainIdx : nat) (name : jsstring) :
  findUVName tokens mainIdx = Some name -> name <> [] ->
  exists k t,
    mainIdx <= k /\ nth_error tokens k = Some t /\ value t = name
    /\ (type t = ident \/ name = lit "uv").
Proof.
  unfold findUVName. intros H Hne.
  destruct (find_value_from tokens mainIdx (lit "(")) as [argsStart|] eqn:Ea;
    [|discriminate].
  apply find_value_from_Some in Ea as [Ha _].
  destruct (uv_by_location tokens (length tokens - argsStart) argsStart) as [|u r] eqn:E1.
  - injection H as <-.
    destruct (uv_literal tokens (length tokens - argsStart) argsStart) as [|u r] eqn:E2;
      [congruence|].
    destruct (uv_literal_occurs _ _ _ _ _ E2) as (Huv & k & Hk & Hv).
    unfold value_is in Hv. destruct (nth_error tokens k) as [t|] eqn:Et; [|discriminate].
    apply str_eqb_eq in Hv. exists k, t. repeat split; try congruence; [lia|now right].
  - injection H as <-.
    destruct (uv_by_location_occurs _ _ _ _ _ E1) as (k & t & Hk & Ht & Hty & Hv).
    exists k, t. repeat split; auto. lia.
Qed.

(** X12. A name found by [findUVName] that is not empty is the text
    of a token at or after [mainIdx]: the identifier after a [location]
    attribute, or a token [uv]. *)
Theorem findUVName_occurs (tokens : list Token) (mainIdx : nat) (name : jsstring) :
  findUVName tokens mainIdx = Some name -> name <> [] ->
  exists k t,
    mainIdx <= k /\ nth_error tokens k = Some t /\ value t = name
    /\ (type t = ident \/ name = lit "uv").
Proof. exact (findUVName_token tokens mainIdx name). Qed.

Lemma findUVName_occurs_witness :
  exists k t,
    3 <= k /\ nth_error (tokenize (lit "@fragment fn main(@location(0) p : vec2<f32>)")) k
              = Some t
    /\ value t = lit "p" /\ (type t = ident \/ lit "p" = lit "uv").
Proof.
  apply (findUVName_occurs
           (tokenize (lit "@fragment fn main(@location(0) p : vec2<f32>)")) 3 (lit "p")).
  - vm_compute. reflexivity.
  - discriminate.
Defined.

Lemma uv_by_location_closed tokens p n : forall i,
  i <= p < i + n -> value_is tokens p (lit ")") = true ->
  (forall k, i <= k < p -> value_is tokens k (lit "location") = false) ->
  uv_by_location tokens n i = [].
Proof.
  induction n as [|n IH]; intros i Hi Hp Hno; cbn [uv_by_location]; [reflexivity|].
  destruct (value_is tokens i (lit ")")) eqn:E; [reflexivity|].
  assert (i <> p) by congruence.
  rewrite Hno by lia. apply IH; [lia|exact Hp|]. intros k Hk. apply Hno. lia.
Qed.

Lemma uv_literal_closed tokens p n : forall i,
  i <= p < i + n -> value_is tokens p (lit ")") = true ->
  (forall k, i <= k < p -> value_is tokens k (lit "uv") = false) ->
  uv_literal tokens n i = [].
Proof.
  induction n as [|n IH]; intros i Hi Hp Hno; cbn [uv_literal]; [reflexivity|].
  destruct (value_is tokens i (lit ")")) eqn:E; [reflexivity|].
  assert (i <> p) by congruence.
  rewrite Hno by lia. apply IH; [lia|exact Hp|]. intros k Hk. apply Hno. lia.
Qed.

(** X13. Both loops of [findUVName] stop at the first [)] after the
    opening parenthesis: when no token [location] or [uv] stands before it,
    as in [fn main(@builtin(position) p : ..., @location(0) uv : ...)], the
    name is empty, and the Geometry and Structure passes return the array
    unchanged without reading a random number. *)
Theorem findUVName_stops_at_first_close
  (tokens : list Token) (mainIdx argsStart p : nat) (intensity : jsnum) (w : World) :
  findMain tokens = Some mainIdx ->
  find_value_from tokens mainIdx (lit "(") = Some argsStart ->
  argsStart <= p -> value_is tokens p (lit ")") = true ->
  (forall k, argsStart <= k < p ->
     value_is tokens k (lit "location") = false /\ value_is tokens k (lit "uv") = false) ->
  findUVName tokens mainIdx = Some []
  /\ mutateGeometry tokens intensity w = Some (tokens, w)
  /\ mutateStructure tokens intensity w = Some (tokens, w).
Proof.
  intros Hm Ha Hp Hc Hno.
  assert (Hlen : p < length tokens).
  { unfold value_is in Hc. destruct (nth_error tokens p) eqn:E; [|discriminate].
    apply nth_error_Some. congruence. }
  assert (Huv : findUVName tokens mainIdx = Some []).
  { unfold findUVName. rewrite Ha.
    rewrite (uv_by_location_closed tokens p) by (auto; try lia; intros; now apply Hno).
    rewrite (uv_literal_closed tokens p) by (auto; try lia; intros; now apply Hno).
    reflexivity. }
  split; [exact Huv|].
  unfold mutateGeometry, mutateStructure. now rewrite Hm, Huv.
Qed.

Lemma findUVName_stops_at_first_close_witness :
  findUVName (tokenize builtin_first) 0 = Some []
  /\ mutateGeometry (tokenize builtin_first) (num "1.0") half_world
     = Some (tokenize builtin_first, half_world)
  /\ mutateStructure (tokenize builtin_first) (num "1.0") half_world
     = Some (tokenize builtin_first, half_world).
Proof.
  apply (findUVName_stops_at_first_close (tokenize builtin_first) 0 3 8).
  - vm_compute. reflexivity.
  - vm_compute. reflexivity.
  - lia.
  - vm_compute. reflexivity.
  - intros k Hk.
    assert (Hc : k = 3 \/ k = 4 \/ k = 5 \/ k = 6 \/ k = 7) by lia.
    destruct Hc as [->|[->|[->|[->| ->]]]]; vm_compute; split; reflexivity.
Defined.

Lemma serialize_app a b : serialize (a ++ b) = serialize a ++ serialize b.
Proof. unfold serialize, join. now rewrite map_app, concat_app. Qed.

Lemma split_at_slice tokens a b :
  a <= b -> tokens = firstn a tokens ++ slice tokens a b ++ skipn b tokens.
Proof.
  intros H. unfold slice.
  rewrite <- (firstn_skipn a tokens) at 1. f_equal.
  rewrite <- (firstn_skipn (b - a) (skipn a tokens)) at 1. f_equal.
  rewrite skipn_skipn. f_equal. lia.
Qed.

Lemma firstn_splice tokens start del ins :
  start <= length tokens -> firstn start (splice tokens start del ins) = firstn start tokens.
Proof.
  intros H. unfold splice. rewrite firstn_app.
  rewrite firstn_firstn, Nat.min_id, length_firstn, Nat.min_l by assumption.
  now rewrite Nat.sub_diag, firstn_O, app_nil_r.
Qed.

Lemma return_not_semicolon tokens retIdx semiIdx :
  findReturn tokens = Some retIdx ->
  find_value_from tokens retIdx (lit ";") = Some semiIdx ->
  retIdx + 1 <= semiIdx < length tokens.
Proof.
  intros Hr Hs. apply find_value_from_Some in Hs as [Hs Hv].
  unfold findReturn in Hr. apply for_find_down_Some in Hr as (_ & Hr & _).
  apply andb_prop in Hr as [_ Hr].
  assert (semiIdx <> retIdx); [|lia]. intros ->.
  unfold value_is in *. destruct (nth_error tokens retIdx) as [t|]; [|discriminate].
  apply str_eqb_eq in Hr, Hv. rewrite Hr in Hv. discriminate.
Qed.

(** X14. When the last [return] is followed by a [;], the Chaos pass
    rewrites the text between them and nothing else: the text before the
    expression and the text from the [;] on are kept, and the expression
    text (with one white-space token after [return] left in place when an
    expression follows it, a blank inserted otherwise) is replaced by one
    of the five templates around it. *)
Theorem mutateChaos_rewrites_last_return
  (tokens : list Token) (intensity : jsnum) (w : World) (retIdx semiIdx : nat) :
  findReturn tokens = Some retIdx ->
  find_value_from tokens retIdx (lit ";") = Some semiIdx ->
  fair w ->
  let gap := return_gap tokens retIdx && (retIdx + 2 <? semiIdx) in
  let start := if gap then retIdx + 2 else retIdx + 1 in
  let pad := if gap then [] else lit " " in
  let pre := serialize (firstn start tokens) in
  let expr := serialize (slice tokens start semiIdx) in
  let post := serialize (skipn semiIdx tokens) in
  serialize tokens = pre ++ expr ++ post
  /\ exists wrapped out w',
       In wrapped (chaosOptions expr)
       /\ mutateChaos tokens intensity w = Some (out, w')
       /\ serialize out = pre ++ pad ++ wrapped ++ post
       /\ firstn start out = firstn start tokens.
Proof.
  intros Hr Hs Hw. cbv zeta.
  pose proof (return_not_semicolon _ _ _ Hr Hs) as Hlt.
  assert (Hcode :
    mutateChaos tokens intensity w
    = (let gap := return_gap tokens retIdx && (retIdx + 2 <? semiIdx) in
       let start := if gap then retIdx + 2 else retIdx + 1 in
       (injectionStr <- getRandomItem
                          (chaosOptions (serialize (slice tokens start semiIdx))) ;;
        ret (splice tokens start (semiIdx - start)
               (tokenize ((if gap then [] else lit " ") ++ injectionStr)))) w)).
  { unfold mutateChaos. rewrite Hr, Hs. unfold return_gap.
    replace (retIdx + 1 <? length tokens) with true
      by (symmetry; apply Nat.ltb_lt; lia).
    cbn [andb].
    destruct (type_is tokens (retIdx + 1) whitespace); cbn [andb].
    - destruct (Nat.ltb_spec (retIdx + 2) semiIdx), (Nat.leb_spec semiIdx (retIdx + 2));
        try lia; reflexivity.
    - destruct (Nat.leb_spec semiIdx (retIdx + 1)); try lia; reflexivity. }
  rewrite Hcode. clear Hcode. cbv zeta.
  remember (return_gap tokens retIdx && (retIdx + 2 <? semiIdx)) as gap eqn:Egap.
  remember (if gap then retIdx + 2 else retIdx + 1) as start eqn:Estart.
  assert (Hstart : start <= semiIdx).
  { subst start gap. destruct (return_gap tokens retIdx); simpl; [|lia].
    destruct (Nat.ltb_spec (retIdx + 2) semiIdx); lia. }
  split.
  { rewrite <- !serialize_app. f_equal. now apply split_at_slice. }
  destruct (Runs_getRandomItem (chaosOptions (serialize (slice tokens start semiIdx)))
              ltac:(simpl; lia) ltac:(simpl; lia) w Hw)
    as (wrapped & w' & Ew & _ & Hin).
  exists wrapped,
    (splice tokens start (semiIdx - start)
       (tokenize ((if gap then [] else lit " ") ++ wrapped))), w'.
  split; [exact Hin|]. split; [|split].
  - unfold bind. rewrite Ew. reflexivity.
  - unfold splice. rewrite !serialize_app, serialize_tokenize.
    replace (start + (semiIdx - start)) with semiIdx by lia.
    now rewrite <- !app_assoc.
  - apply firstn_splice. lia.
Qed.

Lemma mutateChaos_rewrites_last_return_witness :
  let tokens := tokenize (lit "return a;return b+c ;") in
  serialize tokens = lit "return a;return " ++ lit "b+c " ++ lit ";"
  /\ exists wrapped out w',
       In wrapped (chaosOptions (lit "b+c "))
       /\ mutateChaos tokens (num "1.0") half_world = Some (out, w')
       /\ serialize out = lit "return a;return " ++ [] ++ wrapped ++ lit ";"
       /\ firstn 6 out = firstn 6 tokens.
Proof.
  exact (mutateChaos_rewrites_last_return (tokenize (lit "return a;return b+c ;"))
           (num "1.0") half_world 4 10 eq_refl eq_refl
           (fun i => eq_refl)).
Defined.

(* ===================================================================== *)
(** ** Generated expressions have balanced parentheses *)
(* ===================================================================== *)

Lemma paren_scan_app a b d :
  paren_scan (a ++ b) d
  = match paren_scan a d with
    | Some d' => paren_scan b d'
    | None => None
    end.
Proof.
  revert d. induction a as [|x a IH]; intros d; cbn [paren_scan app]; [reflexivity|].
  destruct (N.eqb x (c "(")); [apply IH|].
  destruct (N.eqb x (c ")")); [|apply IH].
  destruct d; [reflexivity|apply IH].
Qed.

Lemma paren_scan_lift s : forall d d' k,
  paren_scan s d = Some d' -> paren_scan s (d + k) = Some (d' + k).
Proof.
  induction s as [|x s IH]; intros d d' k; cbn [paren_scan].
  - now intros [= <-].
  - destruct (N.eqb x (c "(")); [apply (IH (S d))|].
    destruct (N.eqb x (c ")")); [|apply IH].
    destruct d as [|d]; [discriminate|]. cbn [Nat.add]. apply IH.
Qed.

Lemma balanced_scan s d : balanced s = true -> paren_scan s d = Some d.
Proof.
  unfold balanced. destruct (paren_scan s 0) as [[|n]|] eqn:E; try discriminate.
  intros _. apply (paren_scan_lift s 0 0 d E).
Qed.

Lemma paren_free_scan s d : paren_free s = true -> paren_scan s d = Some d.
Proof.
  unfold paren_free.
  revert d. induction s as [|x s IH]; intros d; cbn [forallb paren_scan]; [reflexivity|].
  intros H. apply andb_prop in H as [Hx Hs]. apply negb_true_iff in Hx.
  apply orb_false_elim in Hx as [-> ->]. now apply IH.
Qed.

Lemma paren_free_balanced s : paren_free s = true -> balanced s = true.
Proof. intros H. unfold balanced. now rewrite paren_free_scan. Qed.

Lemma paren_free_app a b : paren_free (a ++ b) = paren_free a && paren_free b.
Proof. apply forallb_app. Qed.

Lemma paren_free_digits s : forallb is_digit s = true -> paren_free s = true.
Proof.
  unfold paren_free. rewrite !forallb_forall. intros H x Hx. specialize (H x Hx).
  unfold is_digit, in_range in H. apply andb_prop in H as [H1 H2].
  apply N.leb_le in H1, H2. apply negb_true_iff. apply orb_false_intro; apply N.eqb_neq;
    intros ->; vm_compute in H1; vm_compute in H2; try (now apply H1); try (now apply H2).
Qed.

Lemma paren_free_digits_of z : paren_free (digits_of z) = true.
Proof. apply paren_free_digits, digits_of_spec. Qed.

Lemma paren_free_zeros n : paren_free (zeros n) = true.
Proof. apply paren_free_digits, forallb_zeros. Qed.

Lemma paren_free_firstn n s : paren_free s = true -> paren_free (firstn n s) = true.
Proof. apply forallb_firstn. Qed.

Lemma paren_free_skipn n s : paren_free s = true -> paren_free (skipn n s) = true.
Proof. apply forallb_skipn. Qed.

Ltac paren_free_tac :=
  repeat (rewrite paren_free_app; apply andb_true_intro; split);
  try reflexivity;
  try apply paren_free_digits_of;
  try apply paren_free_zeros;
  try (apply paren_free_firstn; paren_free_tac);
  try (apply paren_free_skipn; paren_free_tac).

Lemma paren_free_finite_to_string sg m e : paren_free (finite_to_string sg m e) = true.
Proof.
  unfold finite_to_string.
  destruct (shortest m e 20 1) as [[n k] s].
  rewrite paren_free_app. apply andb_true_intro. split; [destruct sg; reflexivity|].
  destruct ((k <=? n)%Z && (n <=? 21)%Z); [paren_free_tac|].
  destruct ((0 <? n)%Z && (n <=? 21)%Z); [paren_free_tac|].
  destruct ((-6 <? n)%Z && (n <=? 0)%Z); [paren_free_tac|].
  pose proof (paren_free_digits_of s) as Hs.
  set (es := (if (n - 1 <? 0)%Z then lit "-" else lit "+") ++ digits_of (Z.abs (n - 1))).
  assert (He : paren_free es = true)
    by (unfold es; destruct (n - 1 <? 0)%Z; paren_free_tac).
  clearbody es.
  destruct (digits_of s) as [|d [|d' r]].
  - paren_free_tac. exact He.
  - change (paren_free ([d] ++ lit "e" ++ es) = true). paren_free_tac; assumption.
  - change (paren_free ([d] ++ lit "." ++ (d' :: r) ++ lit "e" ++ es) = true).
    change (paren_free ([d] ++ d' :: r) = true) in Hs.
    rewrite paren_free_app in Hs. apply andb_prop in Hs as [Hd Hr].
    paren_free_tac; assumption.
Qed.

Lemma paren_free_toString x : paren_free (toString x) = true.
Proof.
  destruct x as [s|s| |s m e]; try reflexivity.
  - destruct s; reflexivity.
  - apply paren_free_finite_to_string.
Qed.

Lemma paren_free_toFixed x f : paren_free (toFixed x f) = true.
Proof.
  unfold toFixed. destruct x as [s|s| |s m e].
  - destruct f; [reflexivity|]. paren_free_tac.
  - apply paren_free_toString.
  - apply paren_free_toString.
  - destruct (_ <=? _)%Z; [apply paren_free_toString|].
    rewrite paren_free_app. apply andb_true_intro. split; [destruct s; reflexivity|].
    destruct f; paren_free_tac.
Qed.

(** Reading a concatenation piece by piece, from a known depth. *)
Ltac scan_step :=
  try rewrite paren_scan_app;
  match goal with
  | H : balanced ?a = true |- context [paren_scan ?a ?d] =>
      rewrite (balanced_scan a d H)
  | |- context [paren_scan (lit ?s) ?d] =>
      let v := eval vm_compute in (paren_scan (lit s) d) in
      change (paren_scan (lit s) d) with v
  end;
  cbv beta iota.

Ltac scan :=
  cbv beta in *; unfold balanced; rewrite <- ?app_assoc; repeat scan_step;
  try reflexivity.

Ltac eval_str_eqb :=
  repeat match goal with
         | |- context [str_eqb (lit ?a) (lit ?b)] =>
             let v := eval vm_compute in (str_eqb (lit a) (lit b)) in
             change (str_eqb (lit a) (lit b)) with v
         end;
  cbv beta iota.

Lemma Runs_terminal_balanced uvName :
  balanced uvName = true -> Runs (terminal uvName) Balanced.
Proof.
  intros Hu. unfold terminal.
  eapply Runs_bind; [apply Runs_randFloat|]. intros x _.
  pose proof (paren_free_balanced _ (paren_free_toFixed x 2)) as Hx.
  eapply Runs_weaken; [apply Runs_getRandomItem; simpl; lia|].
  intros s Hs. unfold Balanced. cbn [In] in Hs.
  decompose [or] Hs; try contradiction; subst s; scan.
Qed.

Lemma Runs_nonterminal_balanced rec :
  Runs rec Balanced -> Runs (nonterminal rec) Balanced.
Proof.
  intros Hrec. unfold nonterminal, Balanced in *.
  eapply Runs_bind; [apply Runs_random|]. intros rnd _.
  destruct (ltb rnd (num "0.35")).
  { eapply Runs_bind; [apply Runs_getRandomItem; simpl; lia|]. intros f Hf.
    eapply Runs_bind; [exact Hrec|]. intros inner Hi. apply Runs_ret.
    cbn [In map] in Hf.
    decompose [or] Hf; try contradiction; subst f; eval_str_eqb; scan. }
  destruct (ltb rnd (num "0.7")).
  { eapply Runs_bind; [apply Runs_getRandomItem; simpl; lia|]. intros op Hop.
    eapply Runs_bind; [exact Hrec|]. intros a Ha.
    eapply Runs_bind; [exact Hrec|]. intros b Hb. apply Runs_ret.
    cbn [In map] in Hop.
    decompose [or] Hop; try contradiction; subst op; scan. }
  eapply Runs_bind; [apply Runs_random|]. intros ty _.
  destruct (ltb ty (num "0.33")).
  { eapply Runs_bind; [exact Hrec|]. intros a Ha.
    eapply Runs_bind; [exact Hrec|]. intros b Hb.
    eapply Runs_bind; [apply Runs_randFloat|]. intros x _.
    pose proof (paren_free_balanced _ (paren_free_toFixed x 2)) as Hx.
    apply Runs_ret. scan. }
  destruct (ltb ty (num "0.66")).
  { eapply Runs_bind; [exact Hrec|]. intros a Ha. apply Runs_ret. scan. }
  eapply Runs_bind; [exact Hrec|]. intros a Ha.
  eapply Runs_bind; [exact Hrec|]. intros b Hb. apply Runs_ret. scan.
Qed.

Lemma Runs_generateScalarExpr_balanced fuel depth uvName :
  balanced uvName = true -> nests_within fuel depth = true ->
  Runs (generateScalarExpr fuel depth uvName) Balanced.
Proof.
  intros Hu. revert depth.
  induction fuel as [|fuel IH]; intros depth H; [discriminate|].
  rewrite generateScalarExpr_unfold. rewrite nests_within_unfold in H.
  eapply Runs_bind; [apply Runs_tick|]. intros _ _.
  destruct (leb depth (num "0")); [now apply Runs_terminal_balanced|].
  eapply Runs_bind; [apply Runs_random|]. intros r0 _.
  destruct (ltb r0 (num "0.15")); [now apply Runs_terminal_balanced|].
  apply Runs_nonterminal_balanced. apply IH. exact H.
Qed.

Lemma Yields_of_Runs {A} (m : M A) (Q : A -> Prop) : Runs m Q -> Yields m Q.
Proof.
  intros Hm w a w' Hw E. destruct (Hm w Hw) as (a0 & w0 & E0 & R0 & Q0).
  rewrite E in E0. injection E0 as <- <-. auto.
Qed.

Lemma Yields_fail {A} (Q : A -> Prop) : Yields (@fail A) Q.
Proof. intros w a w' _ [=]. Qed.

Lemma Yields_bind {A B} (m : M A) (k : A -> M B) (P : A -> Prop) (Q : B -> Prop) :
  Yields m P -> (forall a, P a -> Yields (k a) Q) -> Yields (bind m k) Q.
Proof.
  intros Hm Hk w b w' Hw E. unfold bind in E.
  destruct (m w) as [[a w1]|] eqn:E1; [|discriminate].
  destruct (Hm w a w1 Hw E1) as [R1 Pa].
  destruct (Hk a Pa w1 b w' (fair_same_rng w w1 R1 Hw) E) as [R2 Qb].
  split; [congruence|exact Qb].
Qed.

Lemma Yields_nonterminal_balanced rec :
  Yields rec Balanced -> Yields (nonterminal rec) Balanced.
Proof.
  intros Hrec. unfold nonterminal, Balanced in *.
  eapply Yields_bind; [apply Yields_of_Runs, Runs_random|]. intros rnd _.
  destruct (ltb rnd (num "0.35")).
  { eapply Yields_bind; [apply Yields_of_Runs, Runs_getRandomItem; simpl; lia|].
    intros f Hf.
    eapply Yields_bind; [exact Hrec|]. intros inner Hi.
    apply Yields_of_Runs, Runs_ret.
    cbn [In map] in Hf.
    decompose [or] Hf; try contradiction; subst f; eval_str_eqb; scan. }
  destruct (ltb rnd (num "0.7")).
  { eapply Yields_bind; [apply Yields_of_Runs, Runs_getRandomItem; simpl; lia|].
    intros op Hop.
    eapply Yields_bind; [exact Hrec|]. intros a Ha.
    eapply Yields_bind; [exact Hrec|]. intros b Hb. apply Yields_of_Runs, Runs_ret.
    cbn [In map] in Hop.
    decompose [or] Hop; try contradiction; subst op; scan. }
  eapply Yields_bind; [apply Yields_of_Runs, Runs_random|]. intros ty _.
  destruct (ltb ty (num "0.33")).
  { eapply Yields_bind; [exact Hrec|]. intros a Ha.
    eapply Yields_bind; [exact Hrec|]. intros b Hb.
    eapply Yields_bind; [apply Yields_of_Runs, Runs_randFloat|]. intros x _.
    pose proof (paren_free_balanced _ (paren_free_toFixed x 2)) as Hx.
    apply Yields_of_Runs, Runs_ret. scan. }
  destruct (ltb ty (num "0.66")).
  { eapply Yields_bind; [exact Hrec|]. intros a Ha.
    apply Yields_of_Runs, Runs_ret. scan. }
  eapply Yields_bind; [exact Hrec|]. intros a Ha.
  eapply Yields_bind; [exact Hrec|]. intros b Hb.
  apply Yields_of_Runs, Runs_ret. scan.
Qed.

(** Whatever the depth and the nesting allowed, a result is balanced. *)
Lemma Yields_generateScalarExpr_balanced fuel depth uvName :
  balanced uvName = true -> Yields (generateScalarExpr fuel depth uvName) Balanced.
Proof.
  intros Hu. revert depth.
  induction fuel as [|fuel IH]; intros depth; [apply Yields_fail|].
  rewrite generateScalarExpr_unfold.
  eapply Yields_bind; [apply Yields_of_Runs, Runs_tick|]. intros _ _.
  destruct (leb depth (num "0")).
  { now apply Yields_of_Runs, Runs_terminal_balanced. }
  eapply Yields_bind; [apply Yields_of_Runs, Runs_random|]. intros r0 _.
  destruct (ltb r0 (num "0.15")).
  { now apply Yields_of_Runs, Runs_terminal_balanced. }
  apply Yields_nonterminal_balanced. apply IH.
Qed.

Lemma gene_shape_balanced s : gene_shape s -> balanced s = true.
Proof.
  intros [(e & He & ->)|(r & g & b & Hr & Hg & Hb & ->)]; scan.
Qed.

Lemma Runs_generateProceduralGene_shape uvName :
  balanced uvName = true -> Runs (generateProceduralGene uvName) gene_shape.
Proof.
  intros Hu. unfold generateProceduralGene.
  pose proof nests_within_4 as H4. pose proof nests_within_3 as H3.
  eapply Runs_bind; [now apply Runs_generateScalarExpr_balanced|]. intros r Hr.
  eapply Runs_bind; [now apply Runs_generateScalarExpr_balanced|]. intros g Hg.
  eapply Runs_bind; [now apply Runs_generateScalarExpr_balanced|]. intros b Hb.
  eapply Runs_bind; [apply Runs_random|]. intros p _.
  destruct (ltb p (num "0.5")).
  - eapply Runs_bind; [now apply Runs_generateScalarExpr_balanced|]. intros e He.
    apply Runs_ret. left. eauto.
  - apply Runs_ret. right. exists r, g, b. auto.
Qed.

Lemma Costs_generateProceduralGene uvName : Costs (generateProceduralGene uvName) 108.
Proof.
  unfold generateProceduralGene.
  change 108 with ((2 ^ 5 - 1) + ((2 ^ 5 - 1) + ((2 ^ 5 - 1) + (0 + (2 ^ 4 - 1))))).
  apply Costs_bind; [apply Costs_generateScalarExpr|]. intros r.
  apply Costs_bind; [apply Costs_generateScalarExpr|]. intros g.
  apply Costs_bind; [apply Costs_generateScalarExpr|]. intros b.
  apply Costs_bind; [apply Costs_random|]. intros p.
  destruct (ltb p (num "0.5")).
  - replace (2 ^ 4 - 1) with ((2 ^ 4 - 1) + 0) by lia.
    apply Costs_bind; [apply Costs_generateScalarExpr|]. intros e. apply Costs_ret.
  - eapply Costs_weaken; [apply Costs_ret|lia].
Qed.

(** X15. For a name with balanced parentheses, every expression
    that [generateScalarExpr] returns has balanced parentheses, whatever the
    depth and the nesting of the calls; and it does return one from every
    depth that reaches [depth <= 0] within the nesting allowed, as every
    integer depth up to 2^53 does ([nests_within_of_Z]). *)
Theorem generateScalarExpr_balanced (fuel : nat) (depth : jsnum) (uvName : jsstring)
  (w : World) :
  fair w -> balanced uvName = true ->
  (forall s w', generateScalarExpr fuel depth uvName w = Some (s, w') ->
                balanced s = true)
  /\ (nests_within fuel depth = true ->
      exists s w', generateScalarExpr fuel depth uvName w = Some (s, w')
                   /\ balanced s = true).
Proof.
  intros Hw Hu. split.
  - intros s w' E.
    exact (proj2 (Yields_generateScalarExpr_balanced fuel depth uvName Hu w s w' Hw E)).
  - intros Hn.
    destruct (Runs_generateScalarExpr_balanced fuel depth uvName Hu Hn w Hw)
      as (s & w' & E & _ & H).
    exists s, w'. split; assumption.
Qed.

Lemma generateScalarExpr_balanced_witness :
  (forall s w', generateScalarExpr 5 (num "4") (lit "uv") half_world = Some (s, w') ->
                balanced s = true)
  /\ exists s w', generateScalarExpr 5 (num "4") (lit "uv") half_world = Some (s, w')
                  /\ balanced s = true.
Proof.
  destruct (generateScalarExpr_balanced 5 (num "4") (lit "uv") half_world) as [H1 H2].
  - intros i. vm_compute. reflexivity.
  - vm_compute. reflexivity.
  - split; [exact H1|]. apply H2. vm_compute. reflexivity.
Defined.

(** X16. [generateProceduralGene] returns, after at most 108 calls
    of [generateScalarExpr], either [f_pal(e, ...)] with the four constant
    vectors or [vec3<f32>(r, g, b)], where the generated expressions, and so
    the gene, have balanced parentheses. *)
Theorem generateProceduralGene_shape (uvName : jsstring) (w : World) :
  fair w -> balanced uvName = true ->
  exists s w',
    generateProceduralGene uvName w = Some (s, w')
    /\ gene_shape s /\ balanced s = true
    /\ calls w <= calls w' <= calls w + 108.
Proof.
  intros Hw Hu.
  destruct (Runs_generateProceduralGene_shape uvName Hu w Hw) as (s & w' & E & _ & H).
  exists s, w'. split; [exact E|]. split; [exact H|]. split.
  - now apply gene_shape_balanced.
  - exact (Costs_generateProceduralGene uvName w s w' E).
Qed.

Lemma generateProceduralGene_shape_witness :
  exists s w',
    generateProceduralGene (lit "uv") half_world = Some (s, w')
    /\ gene_shape s /\ balanced s = true
    /\ calls half_world <= calls w' <= calls half_world + 108.
Proof.
  apply (generateProceduralGene_shape (lit "uv") half_world).
  - intros i. vm_compute. reflexivity.
  - vm_compute. reflexivity.
Defined.

(* ===================================================================== *)
(** ** The Structure pass on a source text *)
(* ===================================================================== *)

Lemma is_word_not_paren x :
  is_word x = true -> negb (N.eqb x (c "(") || N.eqb x (c ")")) = true.
Proof.
  intros H. apply negb_true_iff, orb_false_intro; apply N.eqb_neq; intros ->;
    vm_compute in H; discriminate.
Qed.

Lemma ident_paren_free t :
  lexeme_ok t = true -> type t = ident -> paren_free (value t) = true.
Proof.
  unfold lexeme_ok. intros H E. rewrite E in H.
  destruct (value t) as [|x r]; [discriminate|].
  apply andb_prop in H as [Hx Hr]. unfold paren_free. cbn [forallb].
  apply andb_true_intro. split.
  - apply is_word_not_paren. unfold is_word. now rewrite Hx.
  - rewrite forallb_forall in *. intros y Hy. apply is_word_not_paren. now apply Hr.
Qed.

Lemma whitespace_not_semicolon t :
  lexeme_ok t = true -> type t = whitespace -> str_eqb (value t) (lit ";") = false.
Proof.
  unfold lexeme_ok. intros H E. rewrite E in H.
  destruct (value t) as [|x r]; [discriminate|].
  cbn [forallb] in H. apply andb_prop in H as [Hx _].
  destruct (str_eqb (x :: r) (lit ";")) eqn:Es; [|reflexivity].
  apply str_eqb_eq in Es. injection Es as -> _. vm_compute in Hx. discriminate.
Qed.

Lemma mutateStructure_on_source
  (T : jsstring) (intensity : jsnum) (w : World)
  (mainIdx retIdx semiIdx : nat) (uvName : jsstring) :
  let tokens := tokenize T in
  findMain tokens = Some mainIdx ->
  findUVName tokens mainIdx = Some uvName -> uvName <> [] ->
  findReturn tokens = Some retIdx ->
  find_value_from tokens retIdx (lit ";") = Some semiIdx ->
  fair w ->
  let gap := return_gap tokens retIdx in
  let start := if gap then retIdx + 2 else retIdx + 1 in
  let pad := if gap then [] else lit " " in
  let pre := serialize (firstn start tokens) in
  let expr := serialize (slice tokens start semiIdx) in
  let post := serialize (skipn semiIdx tokens) in
  T = pre ++ expr ++ post
  /\ exists gene out w',
       mutateStructure tokens intensity w = Some (out, w')
       /\ gene_shape gene
       /\ serialize out = pre ++ pad ++ lit "vec4<f32>(" ++ gene ++ lit ", 1.0)" ++ post.
Proof.
  intros tokens Hm Hu Hne Hr Hs Hw. cbv zeta.
  pose proof (return_not_semicolon _ _ _ Hr Hs) as Hlt.
  pose proof (lexemes_tokenize T) as HL. fold tokens in HL. rewrite forallb_forall in HL.
  (* the coordinate name has no parenthesis *)
  assert (Hbal : balanced uvName = true).
  { destruct (findUVName_token tokens mainIdx uvName Hu Hne) as (k & t & _ & Ht & Hv & Hc).
    apply paren_free_balanced. destruct Hc as [Hty| ->]; [|reflexivity].
    rewrite <- Hv. apply ident_paren_free; [|exact Hty].
    apply HL. eapply nth_error_In; eauto. }
  (* a white space after [return] is not the semicolon *)
  remember (return_gap tokens retIdx) as gap eqn:Egap.
  remember (if gap then retIdx + 2 else retIdx + 1) as start eqn:Estart.
  assert (Hstart : start <= semiIdx).
  { subst start. destruct gap; [|lia].
    assert (semiIdx <> retIdx + 1); [|lia]. intros ->.
    apply find_value_from_Some in Hs as [_ Hv].
    unfold return_gap, type_is in Egap. unfold value_is in Hv.
    destruct (nth_error tokens (retIdx + 1)) as [t|] eqn:Et; [|discriminate].
    rewrite (whitespace_not_semicolon t) in Hv; [discriminate| |].
    - apply HL. eapply nth_error_In; eauto.
    - symmetry in Egap. now apply TokenType_eqb_eq in Egap. }
  split.
  { rewrite <- !serialize_app, <- split_at_slice by exact Hstart.
    symmetry. apply serialize_tokenize. }
  destruct (Runs_generateProceduralGene_shape uvName Hbal w Hw) as (gene & w' & Eg & _ & Hg).
  exists gene,
    (splice tokens start (semiIdx - start)
       (tokenize ((if gap then [] else lit " ") ++ lit "vec4<f32>(" ++ gene ++ lit ", 1.0)"))),
    w'.
  split; [|split; [exact Hg|]].
  - unfold mutateStructure. rewrite Hm, Hu, Hr, Hs.
    destruct uvName as [|u uv]; [congruence|].
    unfold return_gap in Egap.
    replace (retIdx + 1 <? length tokens) with true
      by (symmetry; apply Nat.ltb_lt; lia).
    cbn [andb]. rewrite <- Egap.
    destruct gap; cbv beta iota zeta; unfold bind; rewrite Eg; subst start.
    + destruct (Nat.ltb_spec (retIdx + 2) semiIdx) as [Hlt2|Hge]; cbn [negb app].
      * reflexivity.
      * replace semiIdx with (retIdx + 2) by lia. now rewrite Nat.sub_diag.
    + destruct (Nat.ltb_spec (retIdx + 1) semiIdx) as [Hlt2|Hge]; cbn [negb app].
      * reflexivity.
      * replace semiIdx with (retIdx + 1) by lia. now rewrite Nat.sub_diag.
  - unfold splice. rewrite !serialize_app, serialize_tokenize.
    replace (start + (semiIdx - start)) with semiIdx by lia.
    now rewrite <- !app_assoc.
Qed.

(** X17. On the tokens of a source text where the entry function, a
    coordinate name, the last [return] and a [;] after it are found, the
    Structure pass replaces the text of the return expression by
    [vec4<f32>(gene, 1.0)] with a gene of one of the two shapes, and keeps
    the text before the expression and from the [;] on. *)
Theorem mutateStructure_replaces_return
  (T : jsstring) (intensity : jsnum) (w : World)
  (mainIdx retIdx semiIdx : nat) (uvName : jsstring) :
  let tokens := tokenize T in
  findMain tokens = Some mainIdx ->
  findUVName tokens mainIdx = Some uvName -> uvName <> [] ->
  findReturn tokens = Some retIdx ->
  find_value_from tokens retIdx (lit ";") = Some semiIdx ->
  fair w ->
  let gap := return_gap tokens retIdx in
  let start := if gap then retIdx + 2 else retIdx + 1 in
  let pad := if gap then [] else lit " " in
  let pre := serialize (firstn start tokens) in
  let expr := serialize (slice tokens start semiIdx) in
  let post := serialize (skipn semiIdx tokens) in
  T = pre ++ expr ++ post
  /\ exists gene out w',
       mutateStructure tokens intensity w = Some (out, w')
       /\ gene_shape gene
       /\ serialize out = pre ++ pad ++ lit "vec4<f32>(" ++ gene ++ lit ", 1.0)" ++ post.
Proof. exact (mutateStructure_on_source T intensity w mainIdx retIdx semiIdx uvName). Qed.

Lemma mutateStructure_replaces_return_witness :
  let tokens := tokenize triangle in
  let pre := serialize (firstn 79 tokens) in
  let expr := serialize (slice tokens 79 89) in
  let post := serialize (skipn 89 tokens) in
  triangle = pre ++ expr ++ post
  /\ exists gene out w',
       mutateStructure tokens (num "1.0") half_world = Some (out, w')
       /\ gene_shape gene
       /\ serialize out = pre ++ [] ++ lit "vec4<f32>(" ++ gene ++ lit ", 1.0)" ++ post.
Proof.
  exact (mutateStructure_replaces_return triangle (num "1.0") half_world 0 77 89 (lit "uv")
           eq_refl eq_refl ltac:(discriminate) eq_refl eq_refl (fun i => eq_refl)).
Defined.

(* ===================================================================== *)
(** ** Color and Numbers on any random sequence; the empty text *)
(* ===================================================================== *)

Lemma Always_ret {A} (a : A) (Q : A -> Prop) : Q a -> Always (ret a) Q.
Proof. intros HQ w. exists a, w. auto. Qed.

Lemma Always_bind {A B} (m : M A) (k : A -> M B) (P : A -> Prop) (Q : B -> Prop) :
  Always m P -> (forall a, P a -> Always (k a) Q) -> Always (bind m k) Q.
Proof.
  intros Hm Hk w. destruct (Hm w) as (a & w1 & E1 & Pa).
  destruct (Hk a Pa w1) as (b & w2 & E2 & Qb).
  exists b, w2. unfold bind. rewrite E1. auto.
Qed.

Lemma Always_random : Always random (fun _ => True).
Proof. intros w. eexists _, _. split; [reflexivity|exact I]. Qed.

Lemma Always_mapM {A B} (f : A -> M B) (R : A -> B -> Prop) (l : list A) :
  (forall x, Always (f x) (R x)) -> Always (mapM f l) (Forall2 R l).
Proof.
  intros H. induction l as [|x l IH]; simpl.
  - apply Always_ret. constructor.
  - eapply Always_bind; [apply H|]. intros y Hy.
    eapply Always_bind; [apply IH|]. intros ys Hys.
    apply Always_ret. now constructor.
Qed.

Lemma Always_for_each_index body (Inv : list Token -> Prop) n : forall i0 cur,
  (forall cur i, Inv cur -> Always (body cur i) Inv) ->
  Inv cur -> Always (for_each_index body n i0 cur) Inv.
Proof.
  induction n as [|n IH]; intros i0 cur Hbody Hinv; simpl.
  - now apply Always_ret.
  - eapply Always_bind; [apply Hbody; exact Hinv|]. intros cur' Hcur'.
    now apply IH.
Qed.

Lemma Forall2_nth_error_r {A B} (R : A -> B -> Prop) l l' j y :
  Forall2 R l l' -> nth_error l' j = Some y ->
  exists x, nth_error l j = Some x /\ R x y.
Proof.
  intros H. revert j. induction H as [|a b l l' Hab _ IH]; intros [|j]; simpl;
    try discriminate.
  - intros [= <-]. eauto.
  - apply IH.
Qed.

Lemma Forall2_set_nth {A B} (R : A -> B -> Prop) l l' j x y :
  Forall2 R l l' -> nth_error l j = Some x -> R x y -> Forall2 R l (set_nth l' j y).
Proof.
  intros H. revert j. induction H as [|a b l l' Hab H IH]; intros [|j]; simpl;
    try discriminate.
  - intros [= ->] Hxy. now constructor.
  - intros Hj Hxy. constructor; [exact Hab|]. now apply IH.
Qed.

Lemma color_touched_again t0 t v :
  color_touched t0 t -> float_literal t = true ->
  color_touched t0 (with_value t (toFixed v 2)).
Proof.
  intros [->|(Hf & v0 & ->)] Ht; right.
  - split; [exact Ht|]. now exists v.
  - split; [exact Hf|]. now exists v.
Qed.

Section ColorPass.

Variable intensity : jsnum.
Variable tokens : list Token.

Lemma Always_color_args n : forall j balance cur,
  Forall2 color_touched tokens cur ->
  Always (color_args intensity n j balance cur) (Forall2 color_touched tokens).
Proof.
  induction n as [|n IH]; intros j balance cur Hf; cbn [color_args].
  - now apply Always_ret.
  - destruct (nth_error cur j) as [t|] eqn:Et; [|now apply Always_ret].
    destruct (0 <? balance)%Z; [|now apply Always_ret].
    eapply Always_bind with (P := Forall2 color_touched tokens).
    + destruct (_ && TokenType_eqb (type t) number && _) eqn:Eb; [|now apply Always_ret].
      eapply Always_bind; [apply Always_random|]. intros r _.
      destruct (ltb r intensity); [|now apply Always_ret].
      eapply Always_bind; [apply Always_random|]. intros r' _.
      apply Always_ret.
      destruct (Forall2_nth_error_r _ _ _ _ _ Hf Et) as (t0 & Et0 & Ht0).
      eapply Forall2_set_nth; [exact Hf|exact Et0|].
      apply color_touched_again; [exact Ht0|].
      unfold float_literal. rewrite <- andb_assoc in Eb.
      now apply andb_prop in Eb as [_ Eb].
    + intros cur' Hc. now apply IH.
Qed.

Lemma Always_color_at cur i :
  Forall2 color_touched tokens cur ->
  Always (color_at intensity cur i) (Forall2 color_touched tokens).
Proof.
  intros Hf. unfold color_at.
  destruct (_ && _); [|now apply Always_ret].
  match goal with |- context [if ?b then color_args _ _ _ _ _ else _] => destruct b end;
    [|now apply Always_ret].
  now apply Always_color_args.
Qed.

End ColorPass.

Lemma Forall2_refl_on {A} (R : A -> A -> Prop) l : (forall x, R x x) -> Forall2 R l l.
Proof. intros H. induction l; constructor; auto. Qed.

Lemma for_each_index_idle body tokens n w : forall i0,
  (forall i, i0 <= i < i0 + n -> body tokens i w = Some (tokens, w)) ->
  for_each_index body n i0 tokens w = Some (tokens, w).
Proof.
  induction n as [|n IH]; intros i0 H; simpl; [reflexivity|].
  unfold bind. rewrite H by lia. apply IH. intros i Hi. apply H. lia.
Qed.

Lemma mutateColor_no_ctor tokens intensity w :
  forallb (fun t => negb (is_vec_ctor t)) tokens = true ->
  mutateColor tokens intensity w = Some (tokens, w).
Proof.
  intros H. unfold mutateColor. apply for_each_index_idle. intros i Hi.
  unfold color_at, type_is, value_is.
  destruct (nth_error tokens i) as [t|] eqn:Et; [|reflexivity].
  rewrite forallb_forall in H. specialize (H t (nth_error_In _ _ Et)).
  apply negb_true_iff in H. unfold is_vec_ctor in H. now rewrite H.
Qed.

(** X18. The Color pass ends for every random sequence, and each
    token of its result is the input token, or a number token with a decimal
    point whose text is replaced by a [toFixed(2)] text; without an
    identifier [vec3] or [vec4] it returns the array and reads no random
    number. *)
Theorem mutateColor_touches_literals (tokens : list Token) (intensity : jsnum) (w : World) :
  (exists out w',
     mutateColor tokens intensity w = Some (out, w')
     /\ Forall2 color_touched tokens out)
  /\ (forallb (fun t => negb (is_vec_ctor t)) tokens = true ->
      mutateColor tokens intensity w = Some (tokens, w)).
Proof.
  split; [|apply mutateColor_no_ctor].
  destruct (Always_for_each_index (color_at intensity) (Forall2 color_touched tokens)
              (length tokens) 0 tokens
              (fun cur i H => Always_color_at intensity tokens cur i H)
              (Forall2_refl_on _ _ (fun t => or_introl eq_refl)) w)
    as (out & w' & E & H).
  exists out, w'. split; assumption.
Qed.

Lemma mutateColor_touches_literals_witness :
  mutateColor (tokenize (lit "a + 1.5")) (num "1.0") half_world
  = Some (tokenize (lit "a + 1.5"), half_world).
Proof.
  apply (proj2 (mutateColor_touches_literals (tokenize (lit "a + 1.5")) (num "1.0")
                  half_world)).
  vm_compute. reflexivity.
Defined.

Lemma Always_mutateNumbers_token intensity t :
  Always (mutateNumbers_token intensity t) (number_touched t).
Proof.
  unfold mutateNumbers_token. fold (float_literal t).
  destruct (float_literal t) eqn:Ef; [|apply Always_ret; now left].
  eapply Always_bind; [apply Always_random|]. intros r _.
  destruct (ltb r intensity); [|apply Always_ret; now left].
  destruct (isNaN (parseFloat (value t))) eqn:En; cbn [negb];
    [apply Always_ret; now left|].
  eapply Always_bind; [apply Always_random|]. intros r1 _.
  eapply Always_bind; [apply Always_random|]. intros r2 _.
  apply Always_ret. right. split; [exact Ef|]. split; [exact En|]. eauto.
Qed.

(** X19. The Numbers pass ends for every random sequence, also one
    that holds values outside [0, 1) or NaN, and each token of its result is
    the input token, or a number token with a decimal point whose text
    parses to a number and is replaced by the text of a perturbed value. *)
Theorem mutateNumbers_touches_literals (tokens : list Token) (intensity : jsnum) (w : World) :
  exists out w',
    mutateNumbers tokens intensity w = Some (out, w')
    /\ Forall2 number_touched tokens out.
Proof.
  destruct (Always_mapM (mutateNumbers_token intensity) number_touched tokens
              (Always_mutateNumbers_token intensity) w) as (out & w' & E & H).
  exists out, w'. split; assumption.
Qed.

Lemma Always_gated_nil flag intensity pass :
  (forall w, pass [] intensity w = Some ([], w)) ->
  Always (gated flag intensity pass []) (eq []).
Proof.
  intros H. unfold gated. destruct flag; [|now apply Always_ret].
  eapply Always_bind; [apply Always_random|]. intros r _.
  destruct (ltb r intensity); [|now apply Always_ret].
  intros w. exists [], w. split; [apply H|reflexivity].
Qed.

Lemma Always_enabled_nil flag intensity pass :
  (forall w, pass [] intensity w = Some ([], w)) ->
  Always (enabled flag intensity pass []) (eq []).
Proof.
  intros H. unfold enabled. destruct flag; [|now apply Always_ret].
  intros w. exists [], w. split; [apply H|reflexivity].
Qed.

(** X20. On the empty text [fuzzShader] returns the empty text, for
    every configuration and every random sequence. *)
Theorem fuzzShader_empty (config : FuzzConfig) (w : World) :
  exists w', fuzzShader [] config w = Some ([], w').
Proof.
  assert (H : Always (fuzzShader [] config) (eq [])).
  { unfold fuzzShader. change (tokenize []) with (@nil Token).
    eapply Always_bind; [apply Always_gated_nil; reflexivity|]. intros ? <-.
    eapply Always_bind; [apply Always_gated_nil; reflexivity|]. intros ? <-.
    eapply Always_bind; [apply Always_gated_nil; reflexivity|]. intros ? <-.
    eapply Always_bind; [apply Always_gated_nil; reflexivity|]. intros ? <-.
    eapply Always_bind; [apply Always_enabled_nil; reflexivity|]. intros ? <-.
    eapply Always_bind; [apply Always_enabled_nil; reflexivity|]. intros ? <-.
    eapply Always_bind; [apply Always_enabled_nil; reflexivity|]. intros ? <-.
    eapply Always_bind; [apply Always_enabled_nil; reflexivity|]. intros ? <-.
    now apply Always_ret. }
  destruct (H w) as (a & w' & E & <-). eauto.
Qed.

(* ===================================================================== *)
(** ** The passes that keep the frame, composed *)
(* ===================================================================== *)

Section FramePipeline.

Variable intensity : jsnum.
Variable T : list Token.

Lemma keeps_frame_mutateNumbers : keeps_frame intensity mutateNumbers.
Proof.
  intros toks. eapply Runs_weaken.
  - apply (Runs_map_pass (mutateNumbers_token intensity) float_literal).
    apply Runs_mutateNumbers_token.
  - now intros out [H _].
Qed.

Lemma keeps_frame_mutateOperators : keeps_frame intensity mutateOperators.
Proof.
  intros toks. eapply Runs_weaken.
  - apply (Runs_map_pass (mutateOperators_token intensity) operator_token).
    apply Runs_mutateOperators_token.
  - now intros out [H _].
Qed.

Lemma keeps_frame_mutateBuiltins : keeps_frame intensity mutateBuiltins.
Proof.
  intros toks. eapply Runs_weaken.
  - apply (Runs_map_pass (mutateBuiltins_token intensity) builtin_token).
    apply Runs_mutateBuiltins_token.
  - now intros out [H _].
Qed.

Lemma keeps_frame_mutateColor : keeps_frame intensity mutateColor.
Proof.
  intros toks. eapply Runs_weaken; [apply Runs_mutateColor|]. now intros out [H _].
Qed.

Lemma keeps_frame_mutateSwizzle : keeps_frame intensity mutateSwizzle.
Proof.
  intros toks. eapply Runs_weaken; [apply Runs_mutateSwizzle|].
  intros out. apply swizzled_Frame.
Qed.

Lemma Runs_gated_frame flag pass toks :
  keeps_frame intensity pass -> Frame T toks ->
  Runs (gated flag intensity pass toks) (Frame T).
Proof.
  intros Hp Hf. unfold gated. destruct flag; [|now apply Runs_ret].
  eapply Runs_bind; [apply Runs_random|]. intros r _.
  destruct (ltb r intensity); [|now apply Runs_ret].
  eapply Runs_weaken; [apply Hp|]. intros out Ho. eapply Frame_trans; eauto.
Qed.

Lemma Runs_enabled_frame flag pass toks :
  keeps_frame intensity pass -> Frame T toks ->
  Runs (enabled flag intensity pass toks) (Frame T).
Proof.
  intros Hp Hf. unfold enabled. destruct flag; [|now apply Runs_ret].
  eapply Runs_weaken; [apply Hp|]. intros out Ho. eapply Frame_trans; eauto.
Qed.

End FramePipeline.

(** X21. With the Structure, Geometry and Chaos flags off, the result
    of [fuzzShader] is the serialization of an array with as many tokens as
    the lexer made of the source, each with the type and index of the source
    token at its place: Color, Numbers, Operators, Builtins and Swizzle
    compose without adding, removing or moving a token. *)
Theorem fuzzShader_keeps_frame (code : jsstring) (config : FuzzConfig) (w : World) :
  cfg_mutateStructure config = false ->
  cfg_mutateGeometry config = false ->
  cfg_mutateChaos config = false ->
  fair w ->
  exists out w',
    fuzzShader code config w = Some (serialize out, w')
    /\ length out = length (tokenize code)
    /\ Forall2 same_frame (tokenize code) out.
Proof.
  intros Hs Hg Hc Hw.
  assert (H : Runs (fuzzShader code config)
                (fun s => exists out, s = serialize out /\ Frame (tokenize code) out)).
  { unfold fuzzShader. rewrite Hs, Hg, Hc. cbn [gated].
    eapply Runs_bind; [apply Runs_ret; apply Frame_refl|]. intros t1 H1.
    eapply Runs_bind; [apply Runs_ret; exact H1|]. intros t2 H2.
    eapply Runs_bind;
      [apply Runs_gated_frame; [apply keeps_frame_mutateColor|exact H2]|]. intros t3 H3.
    eapply Runs_bind; [apply Runs_ret; exact H3|]. intros t4 H4.
    eapply Runs_bind;
      [apply Runs_enabled_frame; [apply keeps_frame_mutateNumbers|exact H4]|]. intros t5 H5.
    eapply Runs_bind;
      [apply Runs_enabled_frame; [apply keeps_frame_mutateOperators|exact H5]|].
    intros t6 H6.
    eapply Runs_bind;
      [apply Runs_enabled_frame; [apply keeps_frame_mutateBuiltins|exact H6]|].
    intros t7 H7.
    eapply Runs_bind;
      [apply Runs_enabled_frame; [apply keeps_frame_mutateSwizzle|exact H7]|].
    intros t8 H8.
    apply Runs_ret. eauto. }
  destruct (H w Hw) as (s & w' & E & _ & out & -> & Hf).
  exists out, w'. split; [exact E|]. split; [now apply Frame_length|exact Hf].
Qed.

Lemma fuzzShader_keeps_frame_witness :
  exists out w',
    fuzzShader triangle (mkConfig true true true false true false false (num "1.0"))
      half_world = Some (serialize out, w')
    /\ length out = length (tokenize triangle)
    /\ Forall2 same_frame (tokenize triangle) out.
Proof.
  apply (fuzzShader_keeps_frame triangle
           (mkConfig true true true false true false false (num "1.0")) half_world).
  - reflexivity.
  - reflexivity.
  - reflexivity.
  - intros i. vm_compute. reflexivity.
Defined.

(** X22. The Swizzle pass ends and keeps the length of the array;
    each token of its result is the input token, or stands right after a
    punctuation [.], is an identifier of 2 to 4 letters of [xyzrgba], and has
    its letters permuted. *)
Theorem mutateSwizzle_permutes (tokens : list Token) (intensity : jsnum) (w : World) :
  fair w ->
  exists out w',
    mutateSwizzle tokens intensity w = Some (out, w')
    /\ length out = length tokens
    /\ forall i t', nth_error out i = Some t' ->
         nth_error tokens i = Some t'
         \/ exists i0 t p,
              i = S i0 /\ swizzle_site tokens i0 = true /\ nth_error tokens i = Some t
              /\ Permutation (value t) p /\ t' = with_value t p.
Proof.
  intros Hw.
  destruct (Runs_mutateSwizzle intensity tokens w Hw) as (out & w' & E & _ & Hlen & H).
  exists out, w'. split; [exact E|]. split; [exact Hlen|exact H].
Qed.

Lemma mutateSwizzle_permutes_witness :
  exists out w',
    mutateSwizzle (tokenize (lit "c.rgb")) (num "1.0") half_world = Some (out, w')
    /\ length out = length (tokenize (lit "c.rgb"))
    /\ forall i t', nth_error out i = Some t' ->
         nth_error (tokenize (lit "c.rgb")) i = Some t'
         \/ exists i0 t p,
              i = S i0 /\ swizzle_site (tokenize (lit "c.rgb")) i0 = true
              /\ nth_error (tokenize (lit "c.rgb")) i = Some t
              /\ Permutation (value t) p /\ t' = with_value t p.
Proof.
  apply (mutateSwizzle_permutes (tokenize (lit "c.rgb")) (num "1.0") half_world).
  intros i. vm_compute. reflexivity.
Defined.

(* ===================================================================== *)
(** ** The presets and the log of the application *)
(* ===================================================================== *)

Lemma Structure_on_preset code intensity w retIdx semiIdx :
  findMain (tokenize code) = Some 55 ->
  findUVName (tokenize code) 55 = Some (lit "uv") ->
  findReturn (tokenize code) = Some retIdx ->
  find_value_from (tokenize code) retIdx (lit ";") = Some semiIdx ->
  return_gap (tokenize code) retIdx = true ->
  serialize (skipn semiIdx (tokenize code)) = preset_tail ->
  fair w ->
  exists retIdx semiIdx gene out w',
    findReturn (tokenize code) = Some retIdx
    /\ find_value_from (tokenize code) retIdx (lit ";") = Some semiIdx
    /\ serialize (skipn semiIdx (tokenize code)) = preset_tail
    /\ mutateStructure (tokenize code) intensity w = Some (out, w')
    /\ gene_shape gene
    /\ serialize out
       = serialize (firstn (retIdx + 2) (tokenize code))
         ++ lit "vec4<f32>(" ++ gene ++ lit ", 1.0)" ++ preset_tail.
Proof.
  intros Hm Hu Hr Hs Hg Ht Hw.
  destruct (mutateStructure_on_source code intensity w 55 retIdx semiIdx (lit "uv")
              Hm Hu ltac:(discriminate) Hr Hs Hw)
    as (_ & gene & out & w' & E & Hshape & Hser).
  rewrite Hg, Ht in Hser. cbn [app] in Hser.
  exists retIdx, semiIdx, gene, out, w'. auto 6.
Qed.

(** X23. On each of the four presets of the application the
    Structure pass finds its anchors: the result is the text of the preset
    up to and with [return] and the blank after it, then
    [vec4<f32>(gene, 1.0)], then the end of the preset from the [;] of its
    last statement on. *)
Theorem presets_rebuilt (p : ShaderPreset) (intensity : jsnum) (w : World) :
  In p PRESETS -> fair w ->
  let tokens := tokenize (preset_code p) in
  exists retIdx semiIdx gene out w',
    findReturn tokens = Some retIdx
    /\ find_value_from tokens retIdx (lit ";") = Some semiIdx
    /\ serialize (skipn semiIdx tokens) = preset_tail
    /\ mutateStructure tokens intensity w = Some (out, w')
    /\ gene_shape gene
    /\ serialize out
       = serialize (firstn (retIdx + 2) tokens)
         ++ lit "vec4<f32>(" ++ gene ++ lit ", 1.0)" ++ preset_tail.
Proof.
  intros Hin Hw. cbv zeta. unfold PRESETS in Hin. cbn [In] in Hin.
  destruct Hin as [<-|[<-|[<-|[<-|[]]]]].
  - apply Structure_on_preset with (retIdx := 132) (semiIdx := 144);
      try exact Hw; vm_compute; reflexivity.
  - apply Structure_on_preset with (retIdx := 168) (semiIdx := 180);
      try exact Hw; vm_compute; reflexivity.
  - apply Structure_on_preset with (retIdx := 278) (semiIdx := 298);
      try exact Hw; vm_compute; reflexivity.
  - apply Structure_on_preset with (retIdx := 188) (semiIdx := 200);
      try exact Hw; vm_compute; reflexivity.
Qed.

Lemma presets_rebuilt_witness :
  let tokens := tokenize (preset_code preset_Plasma) in
  exists retIdx semiIdx gene out w',
    findReturn tokens = Some retIdx
    /\ find_value_from tokens retIdx (lit ";") = Some semiIdx
    /\ serialize (skipn semiIdx tokens) = preset_tail
    /\ mutateStructure tokens (num "0.2") half_world = Some (out, w')
    /\ gene_shape gene
    /\ serialize out
       = serialize (firstn (retIdx + 2) tokens)
         ++ lit "vec4<f32>(" ++ gene ++ lit ", 1.0)" ++ preset_tail.
Proof.
  apply (presets_rebuilt preset_Plasma (num "0.2") half_world).
  - right. right. left. reflexivity.
  - intros i. vm_compute. reflexivity.
Defined.

(** X24. [handleReset] finds a preset for every [PresetName]: the
    search [PRESETS.find(p => p.name === presetName)] returns a preset of
    that name, and it is the only preset of that name. *)
Theorem handleReset_finds_preset (presetName : PresetName) :
  exists p,
    find_preset presetName = Some p
    /\ preset_name p = presetName
    /\ forall q, In q PRESETS -> preset_name q = presetName -> q = p.
Proof.
  destruct presetName; eexists; (split; [reflexivity|]); (split; [reflexivity|]);
    intros q [<-|[<-|[<-|[<-|[]]]]]; cbn [preset_name]; intros E;
    try discriminate E; reflexivity.
Qed.

(** X25. The log update [prev => [...prev, entry].slice(-50)] of
    [addLog] keeps at most 50 entries: the new entry is the last one, and
    only the oldest entries are dropped, [length prev + 1 - 50] of them. *)
Theorem addLog_keeps_last_50 (entry : LogEntry) (prev : list LogEntry) :
  length (addLog entry prev) = Nat.min (length prev + 1) 50
  /\ (exists older, addLog entry prev = older ++ [entry])
  /\ (exists dropped, prev ++ [entry] = dropped ++ addLog entry prev
                      /\ length dropped = length prev + 1 - 50).
Proof.
  unfold addLog, slice_last. rewrite length_app. cbn [length]. split; [|split].
  - rewrite length_skipn, length_app. cbn [length]. lia.
  - rewrite skipn_app. exists (skipn (length prev + 1 - 50) prev).
    f_equal. replace (length prev + 1 - 50 - length prev) with 0 by lia. reflexivity.
  - exists (firstn (length prev + 1 - 50) (prev ++ [entry])). split.
    + symmetry. apply firstn_skipn.
    + rewrite length_firstn, length_app. cbn [length]. lia.
Qed.
